(** * Venn-Abers calibration (hiclass/_calibration): a shallow embedding

    The development follows [VennAbersCalibrator.py] and [Calibrator.py].

    Modelling conventions.
    - numpy float64 values are modelled twice.  [IVAP], [CVAP] and
      [Calibrator] compute with exact rationals ([Q]) and no rounding: what
      is proved of them is proved of the arithmetic done exactly.  [IVAP64]
      is the inductive predictor again with binary64 floats and one
      rounding per operation: it decides where rounding breaks a property
      of the exact model.  Calibration and test scores are only ever
      compared, so they are canonical rationals ([Qc]), whose Leibniz
      equality is numeric equality, as for finite floats.
    - A Python list / numpy array is a [list]; [stack[-1]] is the head of the
      list that models a stack, [stack.append] conses, [stack.pop] takes the
      tail.
    - An exception is the [Raise] case of [result].
    - Labels are integers ([Z]).
    - Division on [Q] is total and gives 0 for a zero divisor, where numpy
      gives inf or nan.  The divisors of [fit] are counts of scores that
      occur and differences of abscissas of neighbours on a stack, which the
      invariants below keep strictly monotone; the divisor of
      [IVAP.predict_proba] is shown positive.  The normalisation of
      [_Calibrator.predict_proba], where a zero divisor does occur, goes
      through [np_divide]. *)

From Stdlib Require Import ZArith QArith Qcanon Qabs List Lia Lqa Psatz Permutation Bool Arith Sorted.
From Stdlib Require String PrimFloat Uint63.
Import ListNotations.

Set Implicit Arguments.

(** ** Exceptions *)

Inductive exn : Type :=
| AssertionError
| NotFittedError
| AttributeError
| IndexError
| KeyError
| ValueError.

Inductive result (A : Type) : Type :=
| Ok (a : A)
| Raise (e : exn).

Arguments Ok {A} a.
Arguments Raise {A} e.

Definition bind {A B : Type} (c : result A) (k : A -> result B) : result B :=
  match c with
  | Ok a => k a
  | Raise e => Raise e
  end.

Notation "x <- c ;; k" := (bind c (fun x => k))
  (at level 61, c at next level, right associativity).
Notation "' pat <- c ;; k" := (bind c (fun x => match x with pat => k end))
  (at level 61, pat pattern, c at next level, right associativity).

Fixpoint mapM {A B : Type} (f : A -> result B) (l : list A) : result (list B) :=
  match l with
  | [] => Ok []
  | a :: l' => b <- f a ;; bs <- mapM f l' ;; Ok (b :: bs)
  end.

Fixpoint foldM {A S : Type} (f : S -> A -> result S) (l : list A) (s : S) : result S :=
  match l with
  | [] => Ok s
  | a :: l' => s' <- f s a ;; foldM f l' s'
  end.

(** ** Arrays *)

(** [a[i]] for a non-negative index. *)
Definition getitem {A : Type} (a : list A) (i : nat) : result A :=
  match nth_error a i with
  | Some x => Ok x
  | None => Raise IndexError
  end.

Fixpoint update {A : Type} (a : list A) (i : nat) (v : A) : list A :=
  match a, i with
  | [], _ => []
  | _ :: a', O => v :: a'
  | x :: a', S i' => x :: update a' i' v
  end.

(** [a[i] = v] for a non-negative index. *)
Definition setitem {A : Type} (a : list A) (i : nat) (v : A) : result (list A) :=
  if (i <? length a)%nat then Ok (update a i v) else Raise IndexError.

(** [a[idx]] for an index array [idx]. *)
Definition take_idx {A : Type} (a : list A) (idx : list nat) : result (list A) :=
  mapM (getitem a) idx.

(** [a[-1]] and [a[-2]]. *)
Definition last1 {A : Type} (a : list A) : result A :=
  match rev a with
  | x :: _ => Ok x
  | _ => Raise IndexError
  end.

Definition last2 {A : Type} (a : list A) : result A :=
  match rev a with
  | _ :: x :: _ => Ok x
  | _ => Raise IndexError
  end.

(** [np.zeros(n)]. *)
Definition np_zeros (n : nat) : list Q := repeat 0%Q n.

(** [np.cumsum]. *)
Fixpoint cumsum_from (acc : Q) (l : list Q) : list Q :=
  match l with
  | [] => []
  | x :: l' => (acc + x)%Q :: cumsum_from (acc + x)%Q l'
  end.

Definition np_cumsum (l : list Q) : list Q := cumsum_from 0%Q l.

(** ** Comparisons on scores *)

Definition Qc_eqb (a b : Qc) : bool :=
  match (a ?= b)%Qc with Eq => true | _ => false end.

Definition Qc_ltb (a b : Qc) : bool :=
  match (a ?= b)%Qc with Lt => true | _ => false end.

Definition Qc_leb (a b : Qc) : bool :=
  match (a ?= b)%Qc with Gt => false | _ => true end.

(** Comparisons on float values: [a >= b] and [a <= b]. *)
Definition Q_geb (a b : Q) : bool :=
  match (a ?= b)%Q with Lt => false | _ => true end.

Definition Q_leb (a b : Q) : bool :=
  match (a ?= b)%Q with Gt => false | _ => true end.

(** ** Sorting *)

Section InsertionSort.
Variable A : Type.
Variable leb : A -> A -> bool.

Fixpoint insert (x : A) (l : list A) : list A :=
  match l with
  | [] => [x]
  | y :: l' => if leb x y then x :: l else y :: insert x l'
  end.

Fixpoint isort (l : list A) : list A :=
  match l with
  | [] => []
  | x :: l' => insert x (isort l')
  end.
End InsertionSort.

(** Key order of [np.lexsort([y, scores])]: [scores] is the primary key and
    [y] breaks ties. *)
Definition key_leb (a b : Qc * Z) : bool :=
  Qc_ltb (fst a) (fst b) || (Qc_eqb (fst a) (fst b) && (snd a <=? snd b)%Z).

Definition entry_leb (a b : nat * (Qc * Z)) : bool := key_leb (snd a) (snd b).

Definition enumerate {A : Type} (l : list A) : list (nat * A) :=
  combine (seq 0 (length l)) l.

(** [np.lexsort([y, scores])]: the indices that sort the rows by
    (score, label); the two key arrays must have the same shape. *)
Definition np_lexsort (y : list Z) (scores : list Qc) : result (list nat) :=
  if (length y =? length scores)%nat
  then Ok (map fst (isort entry_leb (enumerate (combine scores y))))
  else Raise ValueError.

(** ** [np.unique] *)

(** Sorted distinct values of an array. *)
Fixpoint dedup_sorted (l : list Qc) : list Qc :=
  match l with
  | [] => []
  | x :: l' =>
      match l' with
      | [] => [x]
      | y :: _ => if Qc_eqb x y then dedup_sorted l' else x :: dedup_sorted l'
      end
  end.

Fixpoint index_of (v : Qc) (l : list Qc) : nat :=
  match l with
  | [] => O
  | x :: l' => if Qc_eqb x v then O else S (index_of v l')
  end.

Definition count_of (v : Qc) (l : list Qc) : nat :=
  length (filter (Qc_eqb v) l).

(** [np.unique(a, return_index=True, return_counts=True)]: the sorted distinct
    values, the index of the first occurrence of each and the number of
    occurrences of each. *)
Definition np_unique (a : list Qc) : list Qc * list nat * list nat :=
  let values := dedup_sorted (isort Qc_leb a) in
  (values, map (fun v => index_of v a) values, map (fun v => count_of v a) values).

(** [len(np.unique(y))] for a label array. *)
Definition n_unique_labels (y : list Z) : nat := length (nodup Z.eq_dec y).

(** ** [np.searchsorted] *)

(** numpy's binary search; [fuel] bounds the number of halvings. *)
Fixpoint binsearch (lt : Qc -> Qc -> bool) (a : list Qc) (key : Qc)
         (fuel lo hi : nat) : nat :=
  match fuel with
  | O => lo
  | S fuel' =>
      if (lo <? hi)%nat then
        let mid := (lo + (hi - lo) / 2)%nat in
        match nth_error a mid with
        | Some x =>
            if lt x key
            then binsearch lt a key fuel' (S mid) hi
            else binsearch lt a key fuel' lo mid
        | None => lo
        end
      else lo
  end.

(** [np.searchsorted(a, v, side="left")]: compares with [a[mid] < v]. *)
Definition searchsorted_left (a : list Qc) (v : Qc) : nat :=
  binsearch Qc_ltb a v (length a) 0 (length a).

(** [np.searchsorted(a, v, side="right")]: compares with [a[mid] <= v]. *)
Definition searchsorted_right (a : list Qc) (v : Qc) : nat :=
  binsearch Qc_leb a v (length a) 0 (length a).

(** ** Python dictionaries keyed by scores *)

Definition dict (V : Type) : Type := list (Qc * V).

(** [d[k] = v]: the newest binding of a key shadows the older ones. *)
Definition dict_set {V : Type} (d : dict V) (k : Qc) (v : V) : dict V := (k, v) :: d.

Fixpoint dict_get {V : Type} (d : dict V) (k : Qc) : result V :=
  match d with
  | [] => Raise KeyError
  | (k', v) :: d' => if Qc_eqb k' k then Ok v else dict_get d' k
  end.

(** [dict(zip(keys, vals))]. *)
Definition dict_zip {V : Type} (keys : list Qc) (vals : list V) : dict V :=
  fold_left (fun d kv => dict_set d (fst kv) (snd kv)) (combine keys vals) [].

(** ** The inductive Venn-Abers predictor *)

Definition point : Type := (Q * Q)%type.

Definition Zsum (l : list Z) : Z := fold_right Z.add 0%Z l.

Definition Q_of_nat (n : nat) : Q := inject_Z (Z.of_nat n).

Module IVAP.

(** An instance of [_InductiveVennAbersCalibrator]; an attribute that has
    not been assigned yet is [None]. *)
Record t : Type := mk {
  fitted : bool;
  k_distinct : option nat;
  F1 : option (list Q);
  F0 : option (list Q);
  unique_elements : option (list Qc)
}.

(** [__init__]. *)
Definition init : t := mk false None None None None.

(** Reading an attribute of [self]. *)
Definition getattr {A : Type} (a : option A) : result A :=
  match a with
  | Some x => Ok x
  | None => Raise AttributeError
  end.

Definition point_addition (p1 p2 : point) : point :=
  (fst p1 + fst p2, snd p1 + snd p2)%Q.

Definition point_subtraction (p1 p2 : point) : point :=
  (fst p1 - fst p2, snd p1 - snd p2)%Q.

(** [np.cross] of two vectors of the plane. *)
Definition np_cross (a b : point) : Q := (fst a * snd b - snd a * fst b)%Q.

Definition slope (top next_to_top : point) : Q :=
  ((snd next_to_top - snd top) / (fst next_to_top - fst top))%Q.

Definition at_or_above (p : point) (cur_slope : Q) (top next_to_top : point) : bool :=
  let intersection_point := (fst p, snd top + cur_slope * (fst p - fst top))%Q in
  Q_geb (snd p) (snd intersection_point).

Definition non_left_angle_turn (next_to_top top p_i : point) : bool :=
  let res := np_cross (point_subtraction top next_to_top) (point_subtraction p_i top) in
  Q_leb res 0.

Definition non_right_angle_turn (next_to_top top p_i : point) : bool :=
  let res := np_cross (point_subtraction top next_to_top) (point_subtraction p_i top) in
  Q_geb res 0.

(** [stack[-1]] and [stack[-2]]. *)
Definition stack_top (stack : list point) : result point :=
  match stack with
  | top :: _ => Ok top
  | [] => Raise IndexError
  end.

Definition stack_next (stack : list point) : result point :=
  match stack with
  | _ :: next_to_top :: _ => Ok next_to_top
  | _ => Raise IndexError
  end.

(** [while len(stack) > 1 and turn(stack[-2], stack[-1]): stack.pop()],
    where [turn] closes over the third point of the test. *)
Fixpoint pop_while (turn : point -> point -> bool) (stack : list point) : list point :=
  match stack with
  | top :: ((next_to_top :: _) as rest) =>
      if turn next_to_top top then pop_while turn rest else stack
  | _ => stack
  end.

(** The label rate [y[j]] of the [j]-th distinct score. *)
Definition label_rate (un_el : list Qc) (w : dict nat) (ocs : list Qc) (ocl : list Z)
           (oucs : list Qc) (j : nat) : result Q :=
  s_j <- getitem oucs j ;;
  let matching_labels :=
    map snd (filter (fun sl => Qc_eqb (fst sl) s_j) (combine ocs ocl)) in
  key <- getitem un_el j ;;
  w_j <- dict_get w key ;;
  Ok (inject_Z (Zsum matching_labels) / Q_of_nat w_j)%Q.

Definition compute_csd (k_distinct : nat) (un_el : list Qc) (un_el_counts : list nat)
           (ocs : list Qc) (ocl : list Z) (oucs : list Qc) : result (list point) :=
  let w := dict_zip un_el un_el_counts in
  y <- mapM (label_rate un_el w ocs ocl oucs) (seq 0 k_distinct) ;;
  let counts := map Q_of_nat un_el_counts in
  let xs := np_cumsum counts in
  let ys := np_cumsum (map (fun yc => fst yc * snd yc)%Q (combine y counts)) in
  Ok ((0, 0)%Q :: combine xs ys).

Definition initialize_f1_corners (csd : list point) : result (list point) :=
  p0 <- getitem csd 0 ;;
  p1 <- getitem csd 1 ;;
  Ok (fold_left
        (fun stack p_i =>
           p_i :: pop_while (fun next_to_top top => non_left_angle_turn next_to_top top p_i) stack)
        (skipn 2 csd) [p1; p0]).

Definition initialize_f0_corners (csd : list point) : result (list point) :=
  p0 <- last1 csd ;;
  p1 <- last2 csd ;;
  Ok (fold_left
        (fun stack p_i =>
           p_i :: pop_while (fun next_to_top top => non_right_angle_turn next_to_top top p_i) stack)
        (rev (firstn (length csd - 2) csd)) [p1; p0]).

Definition f_state : Type := (list Q * list point * list point)%type.

(** One iteration of the loop of [compute_f1]. *)
Definition compute_f1_step (st : f_state) (i : nat) : result f_state :=
  let '(F1, csd, stack) := st in
  top <- stack_top stack ;;
  next_to_top <- stack_next stack ;;
  let cur := slope top next_to_top in
  F1 <- setitem F1 (i - 1) cur ;;
  a <- getitem csd (i - 2) ;;
  b <- getitem csd i ;;
  c <- getitem csd (i - 1) ;;
  let p_temp := point_subtraction (point_addition a b) c in
  csd <- setitem csd (i - 1) p_temp ;;
  if at_or_above p_temp cur top next_to_top
  then Ok (F1, csd, stack)
  else
    let stack := tl stack in
    let stack := pop_while (fun next_to_top top => non_left_angle_turn p_temp top next_to_top) stack in
    Ok (F1, csd, p_temp :: stack).

Definition compute_f1 (k_distinct : nat) (prev_stack : list point) (csd : list point)
  : result (list Q) :=
  let F1 := np_zeros (k_distinct + 1) in
  let stack := rev prev_stack in
  '(F1, _, _) <- foldM compute_f1_step (seq 2 k_distinct) (F1, csd, stack) ;;
  Ok F1.

(** One iteration of the loop of [compute_f0]. *)
Definition compute_f0_step (st : f_state) (i : nat) : result f_state :=
  let '(F0, csd, stack) := st in
  top <- stack_top stack ;;
  next_to_top <- stack_next stack ;;
  let cur := slope top next_to_top in
  F0 <- setitem F0 i cur ;;
  a <- getitem csd (i - 1) ;;
  b <- getitem csd (i + 1) ;;
  c <- getitem csd i ;;
  let p_i := point_subtraction (point_addition a b) c in
  csd <- setitem csd i p_i ;;
  if at_or_above p_i cur top next_to_top
  then Ok (F0, csd, stack)
  else
    let stack := tl stack in
    let stack := pop_while (fun next_to_top top => non_right_angle_turn p_i top next_to_top) stack in
    Ok (F0, csd, p_i :: stack).

Definition compute_f0 (k_distinct : nat) (prev_stack : list point) (csd : list point)
  : result (list Q) :=
  let F0 := np_zeros (k_distinct + 1) in
  let stack := rev prev_stack in
  '(F0, _, _) <- foldM compute_f0_step (rev (seq 1 k_distinct)) (F0, csd, stack) ;;
  Ok F0.

(** [np.where(y == positive_label, 1, 0)]. *)
Definition binarize (positive_label : Z) (y : list Z) : list Z :=
  map (fun l => if (l =? positive_label)%Z then 1%Z else 0%Z) y.

Definition fit (self : t) (y : list Z) (scores : list Qc) : result t :=
  let positive_label := 1%Z in
  if negb (n_unique_labels y <=? 2)%nat then Raise AssertionError else
  let y := binarize positive_label y in
  order_idx <- np_lexsort y scores ;;
  ordered_calibration_scores <- take_idx scores order_idx ;;
  ordered_calibration_labels <- take_idx y order_idx ;;
  let '(unique_elements, unique_idx, unique_element_counts) :=
    np_unique ordered_calibration_scores in
  ordered_unique_calibration_scores <- take_idx ordered_calibration_scores unique_idx ;;
  _ <- take_idx ordered_calibration_labels unique_idx ;;
  let k_distinct := length unique_idx in
  csd_1 <- compute_csd k_distinct unique_elements unique_element_counts
             ordered_calibration_scores ordered_calibration_labels
             ordered_unique_calibration_scores ;;
  let csd_0 := csd_1 in
  last <- last1 csd_0 ;;
  let csd_0 := csd_0 ++ [(fst last + 1, snd last + 0)%Q] in
  let csd_1 := (-1, -1)%Q :: csd_1 in
  f1_stack <- initialize_f1_corners csd_1 ;;
  f0_stack <- initialize_f0_corners csd_0 ;;
  F1 <- compute_f1 k_distinct f1_stack csd_1 ;;
  F0 <- compute_f0 k_distinct f0_stack csd_0 ;;
  Ok (mk true (Some k_distinct) (Some F1) (Some F0) (Some unique_elements)).

(** The point estimate [p1 / (1 - p0 + p1)]. *)
Definition merge (p0 p1 : Q) : Q := (p1 / (1 - p0 + p1))%Q.

Definition predict_proba (self : t) (scores : list Qc) : result (list Q) :=
  if negb (fitted self) then Raise NotFittedError else
  ue <- getattr (unique_elements self) ;;
  let lower := map (searchsorted_left ue) scores in
  let upper := map (fun s => searchsorted_right (removelast ue) s + 1)%nat scores in
  F0 <- getattr (F0 self) ;;
  p0 <- take_idx F0 lower ;;
  F1 <- getattr (F1 self) ;;
  p1 <- take_idx F1 upper ;;
  Ok (map (fun p => merge (fst p) (snd p)) (combine p0 p1)).

Definition predict_intervall (self : t) (scores : list Qc) : result (list (Q * Q)) :=
  ue <- getattr (unique_elements self) ;;
  let lower := map (searchsorted_left ue) scores in
  let upper := map (fun s => searchsorted_right (removelast ue) s + 1)%nat scores in
  F0 <- getattr (F0 self) ;;
  p0 <- take_idx F0 lower ;;
  F1 <- getattr (F1 self) ;;
  p1 <- take_idx F1 upper ;;
  Ok (combine p0 p1).

End IVAP.

(** ** The cross Venn-Abers predictor *)

Module CVAP.

(** An instance of [_CrossVennAbersCalibrator].  The estimator type and its
    parameters, stored by [__init__], are the section variables below. *)
Record t : Type := mk {
  fitted : bool;
  n_folds : nat;
  ivaps : option (list IVAP.t)
}.

(** [__init__(estimator, n_folds)]. *)
Definition init (n_folds : nat) : t := mk false n_folds None.

(** What [fit] does besides computing its result, in order: the call of
    [create_n_splits], the folds it skips and the folds it trains on. *)
Inductive event : Type :=
| CreateSplits
| SkipSplit (i : nat)
| TrainModel (i : nat).

Section Estimator.

(** A row of the feature matrix. *)
Variable Row : Type.

(** [StratifiedKFold(n_splits=n_folds).split(X, y)] of scikit-learn: the
    (train_index, cal_index) pairs. *)
Variable stratified_kfold :
  nat -> list Row -> list Z -> result (list (list nat * list nat)).

(** A fresh estimator with the stored parameters, fitted on
    [(X_train, y_train)]; the result is [predict_proba(X_cal)[:, 1]]. *)
Variable estimator_scores : list Row -> list Z -> list Row -> result (list Qc).

(** [scipy.stats.gmean] of a one-dimensional sample. *)
Variable gmean : list Q -> Q.

Definition splits : Type :=
  (list (list Row * list Row) * list (list Z * list Z))%type.

Definition create_n_splits (X : list Row) (y : list Z) (n_folds : nat) : result splits :=
  idx <- stratified_kfold n_folds X y ;;
  l <- mapM (fun tc : list nat * list nat =>
               let (train_index, cal_index) := tc in
               x_train <- take_idx X train_index ;;
               x_cal <- take_idx X cal_index ;;
               y_train <- take_idx y train_index ;;
               y_cal <- take_idx y cal_index ;;
               Ok ((x_train, x_cal), (y_train, y_cal))) idx ;;
  Ok (map fst l, map snd l).

(** The loop [for i in range(self.n_folds)] of [fit]; [acc] is
    [self.ivaps]. *)
Fixpoint fit_loop (sp : splits) (range : list nat) (log : list event)
         (acc : list IVAP.t) : list event * result (list IVAP.t) :=
  match range with
  | [] => (log, Ok acc)
  | i :: range' =>
      match (sx <- getitem (fst sp) i ;; sy <- getitem (snd sp) i ;; Ok (sx, sy)) with
      | Raise e => (log, Raise e)
      | Ok ((X_train, X_cal), (y_train, y_cal)) =>
          if (n_unique_labels y_train <? 2)%nat || (n_unique_labels y_cal <? 2)%nat
          then fit_loop sp range' (log ++ [SkipSplit i]) acc
          else
            match (calibration_scores <- estimator_scores X_train y_train X_cal ;;
                   IVAP.fit IVAP.init y_cal calibration_scores) with
            | Raise e => (log ++ [TrainModel i], Raise e)
            | Ok calibrator =>
                fit_loop sp range' (log ++ [TrainModel i]) (acc ++ [calibrator])
            end
      end
  end.

Definition fit (self : t) (y : list Z) (scores : list Qc) (X : list Row)
  : list event * result t :=
  if negb (n_unique_labels y =? 2)%nat then ([], Raise AssertionError) else
  match create_n_splits X y (n_folds self) with
  | Raise e => ([CreateSplits], Raise e)
  | Ok sp =>
      match fit_loop sp (seq 0 (n_folds self)) [CreateSplits] [] with
      | (log, Raise e) => (log, Raise e)
      | (log, Ok l) => (log, Ok (mk true (n_folds self) (Some l)))
      end
  end.

(** [res[:, :, c]] of [res = np.array(res)].  Each element of the list
    [res] is [np.array(list(zip(p0, p1)))], of shape (n, 2) for n > 0
    scores but of shape (0,) for no score; in that case [np.array(res)]
    has two axes only and indexing three raises. *)
Definition axis2 {A : Type} (c : Q * Q -> A) (res : list (list (Q * Q)))
  : result (list (list A)) :=
  if existsb (fun row => (length row =? 0)%nat) res
  then Raise IndexError
  else Ok (map (map c) res).

(** [gmean(a)] of a two-dimensional [a], along axis 0. *)
Definition gmean_axis0 (a : list (list Q)) : list Q :=
  map (fun j => gmean (map (fun row => nth j row 0%Q) a)) (seq 0 (length (hd [] a))).

Definition predict_proba (self : t) (scores : list Qc) : result (list Q) :=
  if negb (fitted self) then Raise NotFittedError else
  calibrators <- IVAP.getattr (ivaps self) ;;
  res <- mapM (fun calibrator => IVAP.predict_intervall calibrator scores) calibrators ;;
  if (length res =? 0)%nat then Ok (repeat 0%Q (length scores)) else
  p0 <- axis2 fst res ;;
  p1 <- axis2 snd res ;;
  let p1_gm := gmean_axis0 p1 in
  let p0_gm := gmean_axis0 (map (map (fun p => 1 - p)%Q) p0) in
  Ok (map (fun g => fst g / (snd g + fst g))%Q (combine p1_gm p0_gm)).

End Estimator.

End CVAP.

(** ** The multiclass dispatcher *)

Module Calibrator.

(** What [_Calibrator.predict_proba] needs of a binary calibrator. *)
Class BinaryCalibrator (C : Type) : Type :=
  calibrator_predict_proba : C -> list Qc -> result (list Q).

#[export] Instance ivap_calibrator : BinaryCalibrator IVAP.t := IVAP.predict_proba.

#[export] Instance cvap_calibrator (gmean : list Q -> Q) : BinaryCalibrator CVAP.t :=
  CVAP.predict_proba gmean.

(** A float after a division: [None] is a non-finite value (nan or inf),
    which numpy returns for a zero divisor. *)
Definition np_divide (a b : Q) : option Q :=
  if Qeq_bool b 0 then None else Some (a / b)%Q.

Definition Qsum (l : list Q) : Q := fold_right Qplus 0%Q l.

Section Dispatch.

Variable C : Type.
Context {BC : BinaryCalibrator C}.

(** The attributes of a [_Calibrator] that [predict_proba] reads. *)
Record t : Type := mk {
  multiclass : bool;
  n_classes : nat;            (* len(self.estimator.classes_) *)
  calibrators : list C
}.

(** A vector assigned to a column of [n_samples] entries: numpy
    broadcasts a vector of length one and rejects other lengths. *)
Definition broadcast (n_samples : nat) (v : list Q) : result (list Q) :=
  if (length v =? n_samples)%nat then Ok v
  else if (length v =? 1)%nat then Ok (repeat (hd 0%Q v) n_samples)
  else Raise ValueError.

(** [probabilities[:, idx] = v] on a matrix kept as its list of columns. *)
Definition set_column (n_samples : nat) (probabilities : list (list Q)) (idx : nat)
           (v : list Q) : result (list (list Q)) :=
  if (idx <? length probabilities)%nat
  then col <- broadcast n_samples v ;; Ok (update probabilities idx col)
  else Raise IndexError.

(** The rows of a matrix kept as its list of columns. *)
Definition rows (n_samples : nat) (columns : list (list Q)) : list (list Q) :=
  map (fun r => map (fun col => nth r col 0%Q) columns) (seq 0 n_samples).

(** [predict_proba(X)], from [test_scores = self.estimator.predict_proba(X)]
    given by its columns [test_scores[:, i]] and from [X.shape[0]]. *)
Definition predict_proba (self : t) (n_samples : nat) (test_scores : list (list Qc))
  : result (list (list (option Q))) :=
  if multiclass self then
    let score_splits := test_scores in
    let probabilities := repeat (repeat 0%Q n_samples) (n_classes self) in
    probabilities <-
      foldM (fun probabilities (entry : nat * list Qc) =>
               let (idx, split) := entry in
               calibrator <- getitem (calibrators self) idx ;;
               v <- calibrator_predict_proba calibrator split ;;
               set_column n_samples probabilities idx v)
            (enumerate score_splits) probabilities ;;
    Ok (map (fun row => map (fun x => np_divide x (Qsum row)) row)
            (rows n_samples probabilities))
  else
    calibrator <- getitem (calibrators self) 0 ;;
    split <- getitem test_scores 1 ;;
    v <- calibrator_predict_proba calibrator split ;;
    probabilities <- set_column n_samples (repeat (repeat 0%Q n_samples) 2) 1 v ;;
    col1 <- getitem probabilities 1 ;;
    probabilities <- set_column n_samples probabilities 0 (map (fun p => 1 - p)%Q col1) ;;
    Ok (map (map Some) (rows n_samples probabilities)).

End Dispatch.

End Calibrator.

(** ** Helpers of [VennAbersCalibrator.py] *)

(** The exceptions of the helpers and of the dispatcher: those of the
    predictors and two more. *)
Inductive error : Type :=
| Exn (e : exn)
| TypeError
| ZeroDivisionError.

Inductive outcome (A : Type) : Type :=
| Return (a : A)
| Throw (e : error).

Arguments Return {A} a.
Arguments Throw {A} e.

(** [matrix[start_idx:end_idx]] for non-negative bounds. *)
Definition slice {A : Type} (matrix : list A) (start_idx end_idx : nat) : list A :=
  firstn (end_idx - start_idx) (skipn start_idx matrix).

(** The loop [for i in range(n_folds)] of [split_csr_matrix]. *)
Fixpoint split_loop {A : Type} (matrix : list A) (rows_per_fold remainder : nat)
         (range : list nat) (start_idx : nat) (folds : list (list A)) : list (list A) :=
  match range with
  | [] => folds
  | i :: range' =>
      let extra_row := if (i <? remainder)%nat then 1%nat else 0%nat in
      let end_idx := (start_idx + rows_per_fold + extra_row)%nat in
      let fold := slice matrix start_idx end_idx in
      split_loop matrix rows_per_fold remainder range' end_idx (folds ++ [fold])
  end.

(** [split_csr_matrix(matrix, n_folds)] on a matrix given by its rows;
    [n_rows // n_folds] raises for [n_folds = 0]. *)
Definition split_csr_matrix {A : Type} (matrix : list A) (n_folds : nat)
  : outcome (list (list A)) :=
  let n_rows := length matrix in
  if (n_folds =? 0)%nat then Throw ZeroDivisionError else
  let rows_per_fold := (n_rows / n_folds)%nat in
  let remainder := (n_rows mod n_folds)%nat in
  Return (split_loop matrix rows_per_fold remainder (seq 0 n_folds) 0 []).

Definition bind_outcome {A B : Type} (c : outcome A) (k : A -> outcome B) : outcome B :=
  match c with
  | Return a => k a
  | Throw e => Throw e
  end.

Notation "x <~ c ;; k" := (bind_outcome c (fun x => k))
  (at level 61, c at next level, right associativity).

(** An exception of the predictors, passed on. *)
Definition lift {A : Type} (r : result A) : outcome A :=
  match r with
  | Ok a => Return a
  | Raise e => Throw (Exn e)
  end.

Fixpoint foldM_outcome {A S : Type} (f : S -> A -> outcome S) (l : list A) (s : S) : outcome S :=
  match l with
  | [] => Return s
  | a :: l' => s' <~ f s a ;; foldM_outcome f l' s'
  end.

(** ** Construction and fitting of the dispatcher ([Calibrator.py]) *)

Module CalibratorFit.

Import String.

(** Keyword arguments [**method_params]: a dictionary from names to
  values, kept as the list of its items; the values are natural
  numbers. *)
Definition params : Type := list (string * nat).

Definition available_methods : list string :=
["ivap"; "cvap"; "sigmoid"; "isotonic"]%string.

Section Fit.

(** A row of the feature matrix. *)
Variable Row : Type.

(** scikit-learn: [StratifiedKFold(n_splits).split], the estimator refitted
on a fold by the cross predictor, and
[LabelBinarizer(sparse_output=False).fit_transform(y).T] (by rows) and
[LabelEncoder().fit_transform(y)]. *)
Variable stratified_kfold : nat -> list Row -> list Z -> result (list (list nat * list nat)).
Variable estimator_scores : list Row -> list Z -> list Row -> result (list Qc).
Variable label_binarizer_T : list Z -> outcome (list (list Z)).
Variable label_encoder : list Z -> outcome (list Z).

(** The classes of [PlattScaling.py] and [IsotonicRegression.py]: their
instances, [_PlattScaling()], [_IsotonicRegression(params)] and
[fit]. *)
Variable Other : Type.
Variable platt_scaling : outcome Other.
Variable isotonic_regression : params -> outcome Other.
Variable other_fit : Other -> list Z -> list Qc -> list Row -> outcome Other.

(** What the dispatcher uses of the estimator it wraps: whether
[predict_proba] is callable, [classes_] and [get_params] when it has
them, and [predict_proba(X)] by columns. *)
Record estimator : Type := mk_estimator {
has_predict_proba : bool;
classes_ : option (list Z);
has_get_params : bool;
predict_proba : list Row -> outcome (list (list Qc))
}.

Inductive calibrator : Type :=
| Ivap (c : IVAP.t)
| Cvap (c : CVAP.t)
| Ext (c : Other).

(** An instance of [_Calibrator]; [calibrators] is [None] until [fit]
assigns it. *)
Record t : Type := mk {
the_estimator : estimator;
method_params : params;
self_classes_ : list Z;
multiclass : bool;
method : string;
calibrators : option (list calibrator)
}.

(** [__init__(estimator, method, **method_params)]. *)
Definition init (est : estimator) (method : string) (method_params : params)
: outcome t :=
if negb (has_predict_proba est) then Throw (Exn AssertionError) else
match classes_ est with
| None => Throw (Exn AttributeError)
| Some classes =>
  if negb (existsb (String.eqb method) available_methods)
  then Throw (Exn ValueError)
  else Return (mk est method_params classes false method None)
end.

(** [_InductiveVennAbersCalibrator] called with [**params]: [__init__] takes no
argument. *)
Definition new_ivap (p : params) : outcome IVAP.t :=
match p with
| [] => Return IVAP.init
| _ => Throw TypeError
end.

(** [_CrossVennAbersCalibrator(estimator, **params)]: [__init__] takes
[n_folds=5] and calls [estimator.get_params()]. *)
Definition new_cvap (est : estimator) (p : params) : outcome CVAP.t :=
let body n_folds :=
if has_get_params est then Return (CVAP.init n_folds) else Throw (Exn AttributeError) in
match p with
| [] => body 5%nat
| [(k, v)] => if String.eqb k "n_folds" then body v else Throw TypeError
| _ => Throw TypeError
end.

(** [_create_calibrator(name, params)]; [None] is Python's [None], returned
when no branch is taken. *)
Definition create_calibrator (self : t) (name : string) (p : params)
: outcome (option calibrator) :=
if String.eqb name "ivap" then c <~ new_ivap p ;; Return (Some (Ivap c))
else if String.eqb name "cvap" then
c <~ new_cvap (the_estimator self) p ;; Return (Some (Cvap c))
else if String.eqb name "sigmoid" then c <~ platt_scaling ;; Return (Some (Ext c))
else if String.eqb name "isotonic" then c <~ isotonic_regression p ;; Return (Some (Ext c))
else Return None.

(** [calibrator.fit(labels, scores, X)]: the attribute [fit] is looked up
first, then the arguments are evaluated from left to right. *)
Definition call_fit (c : option calibrator) (labels : outcome (list Z))
       (scores : outcome (list Qc)) (X : list Row) : outcome calibrator :=
match c with
| None => Throw (Exn AttributeError)
| Some c =>
  y <~ labels ;;
  s <~ scores ;;
  match c with
  | Ivap c => c' <~ lift (IVAP.fit c y s) ;; Return (Ivap c')
  | Cvap c =>
      c' <~ lift (snd (CVAP.fit stratified_kfold estimator_scores c y s X)) ;;
      Return (Cvap c')
  | Ext c => c' <~ other_fit c y s X ;; Return (Ext c')
  end
end.

(** [fit(X, y)]; the result is the instance when [fit] returns.  The flag
[multiclass] is set when the scores have more than two columns and is
never cleared. *)
Definition fit (self : t) (X : list Row) (y : list Z) : outcome t :=
calibration_scores <~ predict_proba (the_estimator self) X ;;
let multiclass :=
if (2 <? List.length calibration_scores)%nat then true else multiclass self in
if multiclass then
binary_labels <~ label_binarizer_T y ;;
let score_splits := calibration_scores in
calibrators <~
  foldM_outcome
    (fun calibrators (entry : nat * list Qc) =>
       let (idx, split) := entry in
       calibrator <~ create_calibrator self (method self) (method_params self) ;;
       calibrator <~ call_fit calibrator (lift (getitem binary_labels idx))
                               (Return split) X ;;
       Return (calibrators ++ [calibrator]))
    (enumerate score_splits) [] ;;
Return (mk (the_estimator self) (method_params self) (self_classes_ self) multiclass
           (method self) (Some calibrators))
else
encoded_y <~ label_encoder y ;;
calibrator <~ create_calibrator self (method self) (method_params self) ;;
calibrator <~ call_fit calibrator (Return encoded_y)
                        (lift (getitem calibration_scores 1)) X ;;
Return (mk (the_estimator self) (method_params self) (self_classes_ self) multiclass
           (method self) (Some [calibrator])).

End Fit.

End CalibratorFit.

(** ** The inductive predictor in float64 arithmetic

    [IVAP64] is [IVAP] again, statement by statement, with the binary64
    floats of the kernel ([PrimFloat]: IEEE 754, round to nearest even, as
    numpy's float64) in the place of the exact rationals.  Every sum,
    difference, product and quotient of the source is one rounded operation
    here, in the order in which the source evaluates them.  Scores are still
    canonical rationals: they are never computed with, only compared. *)

Definition float64 : Type := PrimFloat.float.

(** The float of an integer (exact below 2^53). *)
Definition float_of_Z (z : Z) : float64 :=
  if (z <? 0)%Z then PrimFloat.opp (PrimFloat.of_uint63 (Uint63.of_Z (- z)))
  else PrimFloat.of_uint63 (Uint63.of_Z z).

Definition float_of_nat (n : nat) : float64 := float_of_Z (Z.of_nat n).

(** [a >= b] and [a <= b] on floats. *)
Definition float_geb (a b : float64) : bool := PrimFloat.leb b a.

Definition float_leb (a b : float64) : bool := PrimFloat.leb a b.

(** [np.cumsum] of an array of integers. *)
Fixpoint int_cumsum_from (acc : nat) (l : list nat) : list nat :=
  match l with
  | [] => []
  | x :: l' => (acc + x)%nat :: int_cumsum_from (acc + x)%nat l'
  end.

Definition int_cumsum (l : list nat) : list nat := int_cumsum_from 0 l.

(** [np.cumsum] of an array of floats: the running sum, one rounded
    addition per element after the first. *)
Fixpoint float_cumsum_from (acc : float64) (l : list float64) : list float64 :=
  match l with
  | [] => []
  | x :: l' => PrimFloat.add acc x :: float_cumsum_from (PrimFloat.add acc x) l'
  end.

Definition float_cumsum (l : list float64) : list float64 :=
  match l with
  | [] => []
  | x :: l' => x :: float_cumsum_from x l'
  end.

Module IVAP64.

Definition point : Type := (float64 * float64)%type.

(** An instance of [_InductiveVennAbersCalibrator]. *)
Record t : Type := mk {
  fitted : bool;
  k_distinct : option nat;
  F1 : option (list float64);
  F0 : option (list float64);
  unique_elements : option (list Qc)
}.

(** [__init__]. *)
Definition init : t := mk false None None None None.

Definition point_addition (p1 p2 : point) : point :=
  (PrimFloat.add (fst p1) (fst p2), PrimFloat.add (snd p1) (snd p2)).

Definition point_subtraction (p1 p2 : point) : point :=
  (PrimFloat.sub (fst p1) (fst p2), PrimFloat.sub (snd p1) (snd p2)).

(** [np.cross] of two vectors of the plane: both products are rounded,
    then their difference. *)
Definition np_cross (a b : point) : float64 :=
  PrimFloat.sub (PrimFloat.mul (fst a) (snd b)) (PrimFloat.mul (snd a) (fst b)).

Definition slope (top next_to_top : point) : float64 :=
  PrimFloat.div (PrimFloat.sub (snd next_to_top) (snd top))
                (PrimFloat.sub (fst next_to_top) (fst top)).

Definition at_or_above (p : point) (cur_slope : float64) (top next_to_top : point) : bool :=
  let intersection_point :=
    (fst p, PrimFloat.add (snd top) (PrimFloat.mul cur_slope (PrimFloat.sub (fst p) (fst top)))) in
  float_geb (snd p) (snd intersection_point).

Definition non_left_angle_turn (next_to_top top p_i : point) : bool :=
  let res := np_cross (point_subtraction top next_to_top) (point_subtraction p_i top) in
  float_leb res PrimFloat.zero.

Definition non_right_angle_turn (next_to_top top p_i : point) : bool :=
  let res := np_cross (point_subtraction top next_to_top) (point_subtraction p_i top) in
  float_geb res PrimFloat.zero.

(** [stack[-1]] and [stack[-2]]. *)
Definition stack_top (stack : list point) : result point :=
  match stack with
  | top :: _ => Ok top
  | [] => Raise IndexError
  end.

Definition stack_next (stack : list point) : result point :=
  match stack with
  | _ :: next_to_top :: _ => Ok next_to_top
  | _ => Raise IndexError
  end.

(** [while len(stack) > 1 and turn(stack[-2], stack[-1]): stack.pop()]. *)
Fixpoint pop_while (turn : point -> point -> bool) (stack : list point) : list point :=
  match stack with
  | top :: ((next_to_top :: _) as rest) =>
      if turn next_to_top top then pop_while turn rest else stack
  | _ => stack
  end.

(** The label rate [y[j]] of the [j]-th distinct score: the quotient of
    two integers, rounded once. *)
Definition label_rate (un_el : list Qc) (w : dict nat) (ocs : list Qc) (ocl : list Z)
           (oucs : list Qc) (j : nat) : result float64 :=
  s_j <- getitem oucs j ;;
  let matching_labels :=
    map snd (filter (fun sl => Qc_eqb (fst sl) s_j) (combine ocs ocl)) in
  key <- getitem un_el j ;;
  w_j <- dict_get w key ;;
  Ok (PrimFloat.div (float_of_Z (Zsum matching_labels)) (float_of_nat w_j)).

Definition compute_csd (k_distinct : nat) (un_el : list Qc) (un_el_counts : list nat)
           (ocs : list Qc) (ocl : list Z) (oucs : list Qc) : result (list point) :=
  let w := dict_zip un_el un_el_counts in
  y <- mapM (label_rate un_el w ocs ocl oucs) (seq 0 k_distinct) ;;
  let xs := map float_of_nat (int_cumsum un_el_counts) in
  let ys := float_cumsum (map (fun yc => PrimFloat.mul (fst yc) (float_of_nat (snd yc)))
                              (combine y un_el_counts)) in
  Ok ((PrimFloat.zero, PrimFloat.zero) :: combine xs ys).

Definition initialize_f1_corners (csd : list point) : result (list point) :=
  p0 <- getitem csd 0 ;;
  p1 <- getitem csd 1 ;;
  Ok (fold_left
        (fun stack p_i =>
           p_i :: pop_while (fun next_to_top top => non_left_angle_turn next_to_top top p_i) stack)
        (skipn 2 csd) [p1; p0]).

Definition initialize_f0_corners (csd : list point) : result (list point) :=
  p0 <- last1 csd ;;
  p1 <- last2 csd ;;
  Ok (fold_left
        (fun stack p_i =>
           p_i :: pop_while (fun next_to_top top => non_right_angle_turn next_to_top top p_i) stack)
        (rev (firstn (length csd - 2) csd)) [p1; p0]).

Definition f_state : Type := (list float64 * list point * list point)%type.

(** One iteration of the loop of [compute_f1]. *)
Definition compute_f1_step (st : f_state) (i : nat) : result f_state :=
  let '(F1, csd, stack) := st in
  top <- stack_top stack ;;
  next_to_top <- stack_next stack ;;
  let cur := slope top next_to_top in
  F1 <- setitem F1 (i - 1) cur ;;
  a <- getitem csd (i - 2) ;;
  b <- getitem csd i ;;
  c <- getitem csd (i - 1) ;;
  let p_temp := point_subtraction (point_addition a b) c in
  csd <- setitem csd (i - 1) p_temp ;;
  if at_or_above p_temp cur top next_to_top
  then Ok (F1, csd, stack)
  else
    let stack := tl stack in
    let stack := pop_while (fun next_to_top top => non_left_angle_turn p_temp top next_to_top) stack in
    Ok (F1, csd, p_temp :: stack).

Definition compute_f1 (k_distinct : nat) (prev_stack : list point) (csd : list point)
  : result (list float64) :=
  let F1 := repeat PrimFloat.zero (k_distinct + 1) in
  let stack := rev prev_stack in
  '(F1, _, _) <- foldM compute_f1_step (seq 2 k_distinct) (F1, csd, stack) ;;
  Ok F1.

(** One iteration of the loop of [compute_f0]. *)
Definition compute_f0_step (st : f_state) (i : nat) : result f_state :=
  let '(F0, csd, stack) := st in
  top <- stack_top stack ;;
  next_to_top <- stack_next stack ;;
  let cur := slope top next_to_top in
  F0 <- setitem F0 i cur ;;
  a <- getitem csd (i - 1) ;;
  b <- getitem csd (i + 1) ;;
  c <- getitem csd i ;;
  let p_i := point_subtraction (point_addition a b) c in
  csd <- setitem csd i p_i ;;
  if at_or_above p_i cur top next_to_top
  then Ok (F0, csd, stack)
  else
    let stack := tl stack in
    let stack := pop_while (fun next_to_top top => non_right_angle_turn p_i top next_to_top) stack in
    Ok (F0, csd, p_i :: stack).

Definition compute_f0 (k_distinct : nat) (prev_stack : list point) (csd : list point)
  : result (list float64) :=
  let F0 := repeat PrimFloat.zero (k_distinct + 1) in
  let stack := rev prev_stack in
  '(F0, _, _) <- foldM compute_f0_step (rev (seq 1 k_distinct)) (F0, csd, stack) ;;
  Ok F0.

(** What [fit] does once the calibration set is sorted and its distinct
    scores are found, from [compute_csd] on. *)
Definition fit_sorted (unique_elements : list Qc) (unique_idx : list nat)
           (unique_element_counts : list nat)
           (ordered_calibration_scores : list Qc) (ordered_calibration_labels : list Z)
           (ordered_unique_calibration_scores : list Qc) : result t :=
  let k_distinct := length unique_idx in
  csd_1 <- compute_csd k_distinct unique_elements unique_element_counts
             ordered_calibration_scores ordered_calibration_labels
             ordered_unique_calibration_scores ;;
  let csd_0 := csd_1 in
  last <- last1 csd_0 ;;
  let csd_0 := csd_0 ++ [(PrimFloat.add (fst last) PrimFloat.one,
                          PrimFloat.add (snd last) PrimFloat.zero)] in
  let csd_1 := (PrimFloat.opp PrimFloat.one, PrimFloat.opp PrimFloat.one) :: csd_1 in
  f1_stack <- initialize_f1_corners csd_1 ;;
  f0_stack <- initialize_f0_corners csd_0 ;;
  F1 <- compute_f1 k_distinct f1_stack csd_1 ;;
  F0 <- compute_f0 k_distinct f0_stack csd_0 ;;
  Ok (mk true (Some k_distinct) (Some F1) (Some F0) (Some unique_elements)).

Definition fit (self : t) (y : list Z) (scores : list Qc) : result t :=
  let positive_label := 1%Z in
  if negb (n_unique_labels y <=? 2)%nat then Raise AssertionError else
  let y := IVAP.binarize positive_label y in
  order_idx <- np_lexsort y scores ;;
  ordered_calibration_scores <- take_idx scores order_idx ;;
  ordered_calibration_labels <- take_idx y order_idx ;;
  let '(unique_elements, unique_idx, unique_element_counts) :=
    np_unique ordered_calibration_scores in
  ordered_unique_calibration_scores <- take_idx ordered_calibration_scores unique_idx ;;
  _ <- take_idx ordered_calibration_labels unique_idx ;;
  fit_sorted unique_elements unique_idx unique_element_counts
             ordered_calibration_scores ordered_calibration_labels
             ordered_unique_calibration_scores.

(** The point estimate [p1 / (1 - p0 + p1)]: three rounded operations. *)
Definition merge (p0 p1 : float64) : float64 :=
  PrimFloat.div p1 (PrimFloat.add (PrimFloat.sub PrimFloat.one p0) p1).

Definition predict_proba (self : t) (scores : list Qc) : result (list float64) :=
  if negb (fitted self) then Raise NotFittedError else
  ue <- IVAP.getattr (unique_elements self) ;;
  let lower := map (searchsorted_left ue) scores in
  let upper := map (fun s => searchsorted_right (removelast ue) s + 1)%nat scores in
  F0 <- IVAP.getattr (F0 self) ;;
  p0 <- take_idx F0 lower ;;
  F1 <- IVAP.getattr (F1 self) ;;
  p1 <- take_idx F1 upper ;;
  Ok (map (fun p => merge (fst p) (snd p)) (combine p0 p1)).

Definition predict_intervall (self : t) (scores : list Qc)
  : result (list (float64 * float64)) :=
  ue <- IVAP.getattr (unique_elements self) ;;
  let lower := map (searchsorted_left ue) scores in
  let upper := map (fun s => searchsorted_right (removelast ue) s + 1)%nat scores in
  F0 <- IVAP.getattr (F0 self) ;;
  p0 <- take_idx F0 lower ;;
  F1 <- IVAP.getattr (F1 self) ;;
  p1 <- take_idx F1 upper ;;
  Ok (combine p0 p1).

End IVAP64.

Unset Implicit Arguments.

(** * Invariants, specification vocabulary and examples *)

Local Open Scope Q_scope.

(** The direction in which a stack is read from its top: [Fwd] when the
    abscissas increase (the stack of [compute_f1]), [Bwd] when they decrease
    (the stack of [compute_f0]). *)
Inductive dir : Type := Fwd | Bwd.

Definition sg (d : dir) : Q := match d with Fwd => 1 | Bwd => -1 end.

Definition cross3 (a b c : point) : Q :=
  (fst b - fst a) * (snd c - snd b) - (snd b - snd a) * (fst c - fst b).

Definition xlt (d : dir) (a b : point) : Prop := 0 < sg d * (fst b - fst a).

Definition turn_ok (d : dir) (a b c : point) : Prop := 0 < sg d * cross3 a b c.

(** A stack that is a strictly convex chain: abscissas strictly monotone and
    every three consecutive points turn the same, strict, way. *)
Fixpoint chain (d : dir) (l : list point) : Prop :=
  match l with
  | a :: ((b :: r) as t) =>
      xlt d a b /\ match r with c :: _ => turn_ok d a b c | [] => True end /\ chain d t
  | _ => True
  end.

(** [s] is on or above the line through [a] with slope [v]. *)
Definition above (a : point) (v : Q) (s : point) : Prop :=
  snd a + v * (fst s - fst a) <= snd s.

(** [v] is the slope from [a] to [b]. *)
Definition is_slope (a b : point) (v : Q) : Prop :=
  v * (fst b - fst a) == snd b - snd a.

Definition peq (p q : point) : Prop := fst p == fst q /\ snd p == snd q.

(** The four turn tests of the source, as violations of [turn_ok]. *)
Definition viol_spec (d : dir) (p : point) (f : point -> point -> bool) : Prop :=
  forall ntt top, f ntt top = true <-> ~ turn_ok d p top ntt.

Inductive se {A : Type} : list A -> list A -> Prop :=
| se_one x : se [x] [x]
| se_skip x l1 l2 : se l1 l2 -> se l1 (x :: l2)
| se_take x l1 l2 : se l1 l2 -> se (x :: l1) (x :: l2).

Definition opp (d : dir) : dir := match d with Fwd => Bwd | Bwd => Fwd end.

(** The point that replaces an original point of the diagram is that point
    moved by [shift]: by (-1, -1) in [compute_f1], by (+1, 0) in
    [compute_f0]. *)
Definition shift (d : dir) : point :=
  match d with Fwd => (-1, -1) | Bwd => (1, 0) end.

Definition padd (a b : point) : point := (fst a + fst b, snd a + snd b).

(** [b] comes after [a] in a cumulative sum diagram read in direction [d]:
    at least one more sample and between zero and that many more positive
    labels. *)
Definition step_ok (d : dir) (a b : point) : Prop :=
  1 <= sg d * (fst b - fst a) /\
  0 <= sg d * (snd b - snd a) /\ sg d * (snd b - snd a) <= sg d * (fst b - fst a).

Definition path (d : dir) (B : list point) : Prop := StronglySorted (step_ok d) B.

Definition bnd (d : dir) (top s : point) : Prop :=
  match d with
  | Fwd => 0 < snd s - snd top /\ snd s - snd top <= fst s - fst top
  | Bwd => 0 <= snd top - snd s /\ snd top - snd s < fst top - fst s
  end.

Definition val_bounds (d : dir) (v : Q) : Prop :=
  match d with
  | Fwd => 0 < v /\ v <= 1
  | Bwd => 0 <= v /\ v < 1
  end.

(** The line of slope [v] through a not yet replaced point supports all the
    replaced points. *)
Definition Phi (d : dir) (B : list point) (m : nat) (v : Q) : Prop :=
  exists s, In s (skipn m B) /\
            forall l, In l (firstn m B) -> above s v (padd l (shift d)).

Definition SInv (d : dir) (B : list point) (m : nat) (stack : list point) : Prop :=
  exists top tail,
    stack = top :: tail /\
    se tail (skipn m B) /\
    chain d (top :: tail) /\
    (forall s, In s (skipn m B) -> bnd d top s) /\
    (forall v s1, hd_error tail = Some s1 -> is_slope top s1 v ->
                  forall l, In l (firstn m B) -> above top v (padd l (shift d))).

Definition scan (f_of : point -> point -> point -> bool) (pts stack : list point) : list point :=
  fold_left (fun stack p_i => p_i :: IVAP.pop_while (f_of p_i) stack) pts stack.

Fixpoint nondec (l : list Q) : Prop :=
  match l with
  | a :: ((b :: _) as t) => a <= b /\ nondec t
  | _ => True
  end.

Definition vals_ok (Pr : nat -> Q -> Prop) (m0 : nat) (vs : list Q) : Prop :=
  forall j v, nth_error vs j = Some v -> Pr (m0 + j)%nat v.

Definition next_stack (f : point -> point -> bool) (p : point) (top s1 : point)
           (rest : list point) : list point :=
  if IVAP.at_or_above p (IVAP.slope top s1) top s1
  then top :: s1 :: rest
  else p :: IVAP.pop_while f (s1 :: rest).

(** The properties recorded for the value [F1[m]] and for the value
    [F0[m]] of the diagram [P] of [k + 1] points. *)
Definition Phi1 (P : list point) (m : nat) (v : Q) : Prop :=
  val_bounds Fwd v /\ Phi Fwd P m v.

Definition Phi0 (P : list point) (k : nat) (m : nat) (v : Q) : Prop :=
  val_bounds Bwd v /\ Phi Bwd (rev P) (S k - m) v.

(** The order of a boolean comparison. *)
Definition le_of (A : Type) (leb : A -> A -> bool) (a b : A) : Prop := leb a b = true.

(** The rows of the calibration set in the order of [np.lexsort]. *)
Definition sorted_rows (y : list Z) (scores : list Qc) : list (Qc * Z) :=
  map snd (isort entry_leb (enumerate (combine scores y))).

Definition unique_values (a : list Qc) : list Qc := dedup_sorted (isort Qc_leb a).

(** The number of positive labels at score [u]. *)
Definition positives (ocs : list Qc) (ocl : list Z) (u : Qc) : Z :=
  Zsum (map snd (filter (fun sl => Qc_eqb (fst sl) u) (combine ocs ocl))).

Definition rate (ocs : list Qc) (ocl : list Z) (u : Qc) : Q :=
  inject_Z (positives ocs ocl u) / Q_of_nat (count_of u ocs).

Definition weight (ocs : list Qc) (u : Qc) : Q := Q_of_nat (count_of u ocs).

Definition csd_of (ocs : list Qc) (ocl : list Z) (ue : list Qc) : list point :=
  (0, 0) :: combine (np_cumsum (map (weight ocs) ue))
                    (np_cumsum (map (fun u => rate ocs ocl u * weight ocs u) ue)).

(** What [fit] computes from the sorted scores and the sorted labels. *)
Definition fit_tail (ordered_calibration_scores : list Qc) (ordered_calibration_labels : list Z)
  : result IVAP.t :=
  let '(unique_elements, unique_idx, unique_element_counts) :=
    np_unique ordered_calibration_scores in
  ordered_unique_calibration_scores <- take_idx ordered_calibration_scores unique_idx ;;
  _ <- take_idx ordered_calibration_labels unique_idx ;;
  let k_distinct := length unique_idx in
  csd_1 <- IVAP.compute_csd k_distinct unique_elements unique_element_counts
             ordered_calibration_scores ordered_calibration_labels
             ordered_unique_calibration_scores ;;
  let csd_0 := csd_1 in
  last <- last1 csd_0 ;;
  let csd_0 := csd_0 ++ [(fst last + 1, snd last + 0)%Q] in
  let csd_1 := (-1, -1)%Q :: csd_1 in
  f1_stack <- IVAP.initialize_f1_corners csd_1 ;;
  f0_stack <- IVAP.initialize_f0_corners csd_0 ;;
  F1 <- IVAP.compute_f1 k_distinct f1_stack csd_1 ;;
  F0 <- IVAP.compute_f0 k_distinct f0_stack csd_0 ;;
  Ok (IVAP.mk true (Some k_distinct) (Some F1) (Some F0) (Some unique_elements)).

(** A fold is usable when both of its label splits have two distinct
    labels at least. *)
Definition usable (sy : list Z * list Z) : bool :=
  negb ((n_unique_labels (fst sy) <? 2)%nat || (n_unique_labels (snd sy) <? 2)%nat).

Definition usable_at (Row : Type) (sp : CVAP.splits Row) (i : nat) : bool :=
  match nth_error (snd sp) i with
  | Some sy => usable sy
  | None => false
  end.

Definition event_of (Row : Type) (sp : CVAP.splits Row) (i : nat) : CVAP.event :=
  if usable_at Row sp i then CVAP.TrainModel i else CVAP.SkipSplit i.

Record fitted_facts (ue : list Qc) (vs ws : list Q) : Prop := {
  ff_len1 : length vs = length ue;
  ff_len0 : length ws = length ue;
  ff_nd1 : nondec (0 :: vs);
  ff_nd0 : nondec (0 :: ws);
  ff_lt : forall j v w, nth_error vs j = Some v -> nth_error ws j = Some w -> w < v;
  ff_b1 : forall j v, nth_error vs j = Some v -> 0 < v /\ v <= 1;
  ff_b0 : forall j w, nth_error ws j = Some w -> 0 <= w /\ w < 1;
  ff_sorted : StronglySorted Qcle ue
}.

Definition nondecreasing (f : list Q) : Prop :=
  forall i j a b, (i <= j)%nat -> nth_error f i = Some a -> nth_error f j = Some b -> a <= b.

Definition pointwise_le (f g : list Q) : Prop :=
  forall i a b, nth_error f i = Some a -> nth_error g i = Some b -> a <= b.

Definition qc (n : Z) (d : positive) : Qc := Q2Qc (n # d).

Definition example_labels : list Z := [0; 0; 1; 1]%Z.
Definition example_scores : list Qc := [qc 1 10; qc 2 10; qc 2 10; qc 9 10].

(** The length of the longest prefix on which [f] holds: the first index at
    which it fails. *)
Fixpoint first_false (f : Qc -> bool) (a : list Qc) : nat :=
  match a with
  | [] => 0
  | x :: a' => if f x then S (first_false f a') else 0
  end.

Definition prefix_true (f : Qc -> bool) (a : list Qc) (r : nat) : Prop :=
  (r <= length a)%nat /\
  (forall i x, (i < r)%nat -> nth_error a i = Some x -> f x = true) /\
  (forall i x, (r <= i)%nat -> nth_error a i = Some x -> f x = false).

Definition monotone_on (f : Qc -> bool) (a : list Qc) : Prop :=
  forall i j x y, (i <= j)%nat -> nth_error a i = Some x -> nth_error a j = Some y ->
                  f y = true -> f x = true.

(** The leftmost insertion index: the first index whose score is [>= s]. *)
Fixpoint first_index_ge (a : list Qc) (s : Qc) : nat :=
  match a with
  | [] => 0
  | x :: a' => if Qc_leb s x then 0 else S (first_index_ge a' s)
  end.

(** The rightmost insertion index: the first index whose score is [> s]. *)
Fixpoint rightmost_insertion (a : list Qc) (s : Qc) : nat :=
  match a with
  | [] => 0
  | x :: a' => if Qc_ltb s x then 0 else S (rightmost_insertion a' s)
  end.

Definition lower_index (ue : list Qc) (s : Qc) : nat := first_index_ge ue s.

Definition upper_index (ue : list Qc) (s : Qc) : nat :=
  S (rightmost_insertion (removelast ue) s).

(** The pair [(F0[lower], F1[upper])] of a score. *)
Definition interval_of (ue : list Qc) (f0 f1 : list Q) (s : Qc) : Q * Q :=
  (nth (lower_index ue s) f0 0, nth (upper_index ue s) f1 0).

Definition example_ivap : IVAP.t :=
  Eval vm_compute in
    match IVAP.fit IVAP.init example_labels example_scores with
    | Ok m => m
    | Raise _ => IVAP.init
    end.

(** The IVAP that [fit] stores for the fold [i]: a fresh IVAP fitted on the
    calibration labels of the fold and on the scores that the estimator,
    trained on the training split, gives to the calibration rows. *)
Definition stored_for (Row : Type)
           (estimator_scores : list Row -> list Z -> list Row -> result (list Qc))
           (sp : CVAP.splits Row) (i : nat) (calibrator : IVAP.t) : Prop :=
  exists X_train X_cal y_train y_cal calibration_scores,
    nth_error (fst sp) i = Some (X_train, X_cal) /\
    nth_error (snd sp) i = Some (y_train, y_cal) /\
    estimator_scores X_train y_train X_cal = Ok calibration_scores /\
    IVAP.fit IVAP.init y_cal calibration_scores = Ok calibrator.

(** Nine labels 0 followed by one label 1, in five folds. *)
Definition rare_labels : list Z := repeat 0%Z 9 ++ [1%Z].

Definition rare_rows : list nat := seq 0 10.

(** What [StratifiedKFold(n_splits=5).split] yields for [rare_labels]: the
    calibration folds are the index pairs (0,1), (2,3), (4,5), (6,7), (8,9). *)
Definition rare_kfold (n_splits : nat) (X : list nat) (y : list Z)
  : result (list (list nat * list nat)) :=
  Ok (map (fun f => (filter (fun i => negb ((i / 2) =? f)%nat) (seq 0 10),
                     [(2 * f)%nat; (2 * f + 1)%nat]))
          (seq 0 5)).

Definition half_scores (X_train : list nat) (y_train : list Z) (X_cal : list nat)
  : result (list Qc) :=
  Ok (map (fun _ => qc 1 2) X_cal).

Definition rare_splits : CVAP.splits nat :=
  Eval vm_compute in
    match CVAP.create_n_splits rare_kfold rare_rows rare_labels 5 with
    | Ok sp => sp
    | Raise _ => ([], [])
    end.

(** Labels 0, 1, 0, 1 in two folds: [StratifiedKFold(n_splits=2).split]
    yields the calibration folds (0,1) and (2,3). *)
Definition balanced_labels : list Z := [0; 1; 0; 1]%Z.

Definition balanced_kfold (n_splits : nat) (X : list nat) (y : list Z)
  : result (list (list nat * list nat)) :=
  Ok [([2; 3]%nat, [0; 1]%nat); ([0; 1]%nat, [2; 3]%nat)].

Definition balanced_splits : CVAP.splits nat :=
  Eval vm_compute in
    match CVAP.create_n_splits balanced_kfold (seq 0 4) balanced_labels 2 with
    | Ok sp => sp
    | Raise _ => ([], [])
    end.

(** The claim as stated: [fit] fails if and only if no fold is usable. *)
Definition fit_fails_iff_no_usable_fold {T} (r : list CVAP.event * result T)
           (sp : CVAP.splits nat) (n_folds : nat) : Prop :=
  (exists e, snd r = Raise e) <-> (forall i, (i < n_folds)%nat -> usable_at nat sp i = false).

Definition well_fitted (c : IVAP.t) : Prop :=
  exists ue vs ws,
    c = IVAP.mk true (Some (length ue)) (Some (0 :: vs)) (Some (0 :: ws)) (Some ue) /\
    fitted_facts ue vs ws /\ ue <> [].

(** The pair that [predict_intervall] returns for one score. *)
Definition ivap_interval (c : IVAP.t) (s : Qc) : Q * Q :=
  match IVAP.unique_elements c, IVAP.F0 c, IVAP.F1 c with
  | Some ue, Some f0, Some f1 => interval_of ue f0 f1 s
  | _, _, _ => (0, 0)
  end.

(** [geomean(p1) / (geomean(1 - p0) + geomean(p1))] across the folds. *)
Definition fused (gmean : list Q -> Q) (l : list IVAP.t) (s : Qc) : Q :=
  let p1_gm := gmean (map (fun c => snd (ivap_interval c s)) l) in
  p1_gm / (gmean (map (fun c => 1 - fst (ivap_interval c s)) l) + p1_gm).

(** [scipy.stats.gmean] is not evaluated in the examples below; this
    function stands for it. *)
Definition any_gmean (a : list Q) : Q := 1.

(** The cross predictor that [fit] returns for [balanced_labels]; it retains
    both folds. *)
Definition balanced_cvap : CVAP.t :=
  Eval vm_compute in
    match CVAP.fit balanced_kfold half_scores (CVAP.init 2) balanced_labels [] (seq 0 4) with
    | (_, Ok m) => m
    | (_, Raise _) => CVAP.init 2
    end.

(** A row of floats sums to one within 1e-6. *)
Definition sums_to_one (row : list (option Q)) : Prop :=
  exists vals, row = map Some vals /\ Qabs (Calibrator.Qsum vals - 1) <= 1 # 1000000.

(** The column of the class [idx] before the normalisation: what the
    calibrator of the class predicts for the scores of the class, broadcast
    to [n_samples] entries. *)
Definition column_of (C : Type) (BC : Calibrator.BinaryCalibrator C) (calibrators : list C)
           (n_samples idx : nat) (split : list Qc) (col : list Q) : Prop :=
  exists calibrator v,
    nth_error calibrators idx = Some calibrator /\
    Calibrator.calibrator_predict_proba calibrator split = Ok v /\
    Calibrator.broadcast n_samples v = Ok col.

(** A row after the normalisation of the raw row [raw]: every entry over
    the sum of the row, of sum one; or, when that sum is zero, no finite
    entry at all. *)
Definition normalized (raw : list Q) (row : list (option Q)) : Prop :=
  (Calibrator.Qsum raw == 0 -> row = map (fun _ => None) raw) /\
  (~ Calibrator.Qsum raw == 0 ->
   row = map (fun x => Some (x / Calibrator.Qsum raw)) raw /\ sums_to_one row).

(** Three samples of three classes.  [StratifiedKFold(n_splits=2).split]
    on the labels of one class against the rest puts the sample of the
    class and the first sample of the rest in the calibration fold 0. *)
Definition lone_kfold (n_splits : nat) (X : list nat) (y : list Z)
  : result (list (list nat * list nat)) :=
  match y with
  | [0; 0; 1]%Z => Ok [([1], [0; 2]); ([0; 2], [1])]%nat
  | _ => Ok [([2], [0; 1]); ([0; 1], [2])]%nat
  end.

Definition one_vs_rest_labels : list (list Z) := [[1; 0; 0]; [0; 1; 0]; [0; 0; 1]]%Z.

(** The cross predictor of each of the three classes: no fold is retained. *)
Definition empty_cvap : CVAP.t := CVAP.mk true 2 (Some []).

Definition degenerate_calibrator : Calibrator.t CVAP.t :=
  Calibrator.mk true 3 [empty_cvap; empty_cvap; empty_cvap].

(** The columns of the scores of one sample. *)
Definition one_sample_scores : list (list Qc) := [[qc 1 3]; [qc 1 3]; [qc 1 3]].

(** [a <= b] on floats, and the two orders of C1 on float64 arrays. *)
Definition float_le (a b : float64) : Prop := PrimFloat.leb a b = true.

Definition nondecreasing64 (f : list float64) : Prop :=
  forall i j a b, (i <= j)%nat -> nth_error f i = Some a -> nth_error f j = Some b -> float_le a b.

Definition pointwise_le64 (f g : list float64) : Prop :=
  forall i a b, nth_error f i = Some a -> nth_error g i = Some b -> float_le a b.

(** The score 0.2 twenty-five times, fourteen of them with label 1, then
    the score 0.5 three times and the score 0.9 once, with label 0. *)
Definition skewed_labels : list Z := repeat 1%Z 14 ++ repeat 0%Z 11 ++ repeat 0%Z 3 ++ [0%Z].

Definition skewed_scores : list Qc := repeat (qc 2 10) 25 ++ repeat (qc 5 10) 3 ++ [qc 9 10].

(** What [fit] stores for it: [F1[2]] is the float next above one half and
    [F1[3]] is one half. *)
Definition skewed_ivap : IVAP64.t :=
  Eval vm_compute in
    match IVAP64.fit IVAP64.init skewed_labels skewed_scores with
    | Ok m => m
    | Raise _ => IVAP64.init
    end.

(** One half, as a float. *)
Definition float_half : float64 := PrimFloat.div PrimFloat.one PrimFloat.two.

(** 2^27 + 1 samples. *)
Definition many : nat := Z.to_nat 134217729.

(** What [fit] stores for [many] positive samples of one score:
    [F1[1]] is 1 and [F0[1]] is the float nearest to n / (n + 1). *)
Definition many_ivap : IVAP64.t :=
  IVAP64.mk true (Some 1%nat)
            (Some [PrimFloat.zero; PrimFloat.one])
            (Some [PrimFloat.zero;
                   PrimFloat.div (float_of_Z 134217729) (float_of_Z 134217730)])
            (Some [qc 1 2]).

(** The row at which fold [i] starts. *)
Definition fold_start (q r i : nat) : nat := (i * q + Nat.min i r)%nat.

Definition col_ok (n : nat) (col : list Q) : Prop :=
  length col = n /\ Forall (fun v => 0 <= v) col.

Definition first_positive (P : list (list Q)) : Prop :=
  exists c0, nth_error P 0 = Some c0 /\ Forall (fun v => 0 < v) c0.

(** A row of probabilities: finite, between 0 and 1, of sum 1. *)
Definition simplex_row (n_classes : nat) (row : list (option Q)) : Prop :=
  exists vals,
    row = map Some vals /\ length vals = n_classes /\
    Calibrator.Qsum vals == 1 /\ Forall (fun v => 0 <= v /\ v <= 1) vals.

Definition ivap_calibrator3 : Calibrator.t IVAP.t :=
  Calibrator.mk true 3 [example_ivap; example_ivap; example_ivap].

Definition ivap_calibrator3_output : list (list (option Q)) :=
  Eval vm_compute in
    match Calibrator.predict_proba (BC := Calibrator.ivap_calibrator) ivap_calibrator3 1 [[qc 1 10]; [qc 2 10]; [qc 1 1]] with
    | Ok M => M
    | Raise _ => []
    end.

Definition ivap_calibrator2 : Calibrator.t IVAP.t := Calibrator.mk false 2 [example_ivap].

Definition ivap_calibrator2_output : list (list (option Q)) :=
  Eval vm_compute in
    match Calibrator.predict_proba (BC := Calibrator.ivap_calibrator) ivap_calibrator2 2 [[qc 1 2; qc 1 2]; [qc 1 10; qc 1 1]] with
    | Ok M => M
    | Raise _ => []
    end.

(** [q] is on the inner side of the line of every edge of the stack: for
    all consecutive points [a], [b] of [l], [0 <= sg e * cross3 a b q]. *)
Definition supports (e : dir) (l : list point) (q : point) : Prop :=
  forall pre a b post, l = pre ++ a :: b :: post -> 0 <= sg e * cross3 a b q.

(** [l1] is a subsequence of [l2]. *)
Inductive subseq {A : Type} : list A -> list A -> Prop :=
| subseq_nil : subseq [] []
| subseq_skip x l1 l2 : subseq l1 l2 -> subseq l1 (x :: l2)
| subseq_take x l1 l2 : subseq l1 l2 -> subseq (x :: l1) (x :: l2).

(** The hull properties shared by the two initial stacks: [hull], read from
    left to right, is a subsequence of the diagram with the same first and
    last points, turns strictly left at every corner, and every point of the
    diagram is on or above the line of each of its edges. *)
Definition lower_hull (csd hull : list point) : Prop :=
  subseq hull csd /\ hd_error hull = hd_error csd /\ last1 hull = last1 csd /\
  (forall pre a b c post, hull = pre ++ a :: b :: c :: post -> 0 < cross3 a b c) /\
  (forall q pre a b post, In q csd -> hull = pre ++ a :: b :: post -> 0 <= cross3 a b q).

(** An inductive predictor fitted on some labels and on the column [col] of
    scores. *)
Definition fitted_ivap (Other : Type) (col : list Qc) (c : CalibratorFit.calibrator Other)
  : Prop :=
  exists c' labels,
    c = CalibratorFit.Ivap Other c' /\ length labels = length col /\
    IVAP.fit IVAP.init labels col = Ok c'.

(** The inductive predictors of a list of calibrators, when all of them
    are inductive predictors. *)
Fixpoint ivaps_of (Other : Type) (cs : list (CalibratorFit.calibrator Other))
  : option (list IVAP.t) :=
  match cs with
  | [] => Some []
  | CalibratorFit.Ivap _ c :: cs' => option_map (cons c) (ivaps_of Other cs')
  | _ => None
  end.

(** What [predict_proba] reads of a fitted instance whose calibrators are
    inductive predictors: [multiclass], [len(self.estimator.classes_)] and
    the calibrators. *)
Definition predict_state (Row Other : Type) (self : CalibratorFit.t Row Other)
  : option (Calibrator.t IVAP.t) :=
  match CalibratorFit.calibrators self,
        CalibratorFit.classes_ (CalibratorFit.the_estimator self) with
  | Some cs, Some classes =>
      option_map (Calibrator.mk (CalibratorFit.multiclass self) (length classes))
                 (ivaps_of Other cs)
  | _, _ => None
  end.

Section DispatchExamples.

Import String.

(** A binary estimator on four samples: column 1 of its scores is
    [example_scores]. *)
Definition example_estimator : CalibratorFit.estimator nat :=
  CalibratorFit.mk_estimator true (Some [0; 1]%Z) true
    (fun X => Return [[qc 9 10; qc 8 10; qc 8 10; qc 1 10]; example_scores]).

(** [LabelEncoder] on labels that are 0 and 1 already. *)
Definition example_encoder (y : list Z) : outcome (list Z) := Return y.

Definition example_binarizer (y : list Z) : outcome (list (list Z)) :=
  Return [map (fun l => if (l =? 0)%Z then 1%Z else 0%Z) y;
          map (fun l => if (l =? 1)%Z then 1%Z else 0%Z) y].

Definition example_other_fit (c : unit) (y : list Z) (s : list Qc) (X : list nat)
  : outcome unit := Return c.

Definition example_fit (self : CalibratorFit.t nat unit) (X : list nat) (y : list Z)
  : outcome (CalibratorFit.t nat unit) :=
  CalibratorFit.fit balanced_kfold half_scores example_binarizer example_encoder
                    (Return tt) (fun _ => Return tt) example_other_fit self X y.

Definition example_method : string := "ivap".

Definition example_calibrator : CalibratorFit.t nat unit :=
  CalibratorFit.mk example_estimator [] [0; 1]%Z false example_method None.

Definition example_fitted_calibrator : CalibratorFit.t nat unit :=
  Eval vm_compute in
    match example_fit example_calibrator (seq 0 4) example_labels with
    | Return self => self
    | Throw _ => example_calibrator
    end.

Definition example_calibrator_params : CalibratorFit.t nat unit :=
  CalibratorFit.mk example_estimator [("n_folds"%string, 3%nat)] [0; 1]%Z false example_method None.

(** The same estimator calibrated by a cross predictor of two folds. *)
Definition example_cvap_calibrator : CalibratorFit.t nat unit :=
  CalibratorFit.mk example_estimator [("n_folds"%string, 2%nat)] [0; 1]%Z false "cvap" None.

Definition example_fitted_cvap_calibrator : CalibratorFit.t nat unit :=
  Eval vm_compute in
    match example_fit example_cvap_calibrator (seq 0 4) balanced_labels with
    | Return self => self
    | Throw _ => example_cvap_calibrator
    end.

End DispatchExamples.

(** * Geometry of the convex-hull stacks *)

Lemma Q_leb_spec a b : Q_leb a b = true <-> a <= b.
Proof.
  unfold Q_leb. rewrite Qle_alt. destruct (a ?= b); split; intros H; try reflexivity;
    try discriminate; try congruence.
Qed.

Lemma Q_geb_spec a b : Q_geb a b = true <-> b <= a.
Proof.
  unfold Q_geb. rewrite Qle_alt. rewrite <- (Qcompare_antisym a b).
  destruct (a ?= b); simpl; split; intros H; try reflexivity; try discriminate; try congruence.
Qed.

Lemma slope_is_slope a b : ~ fst b - fst a == 0 -> is_slope a b (IVAP.slope a b).
Proof.
  intros H. unfold is_slope, IVAP.slope. field. exact H.
Qed.

Lemma cross3_np a b c :
  IVAP.np_cross (IVAP.point_subtraction b a) (IVAP.point_subtraction c b) = cross3 a b c.
Proof. reflexivity. Qed.

Lemma cross3_swap a b c : cross3 a b c == - cross3 c b a.
Proof. unfold cross3. ring. Qed.

Lemma viol_f1 p :
  viol_spec Fwd p (fun next_to_top top => IVAP.non_left_angle_turn p top next_to_top).
Proof.
  intros ntt top. unfold IVAP.non_left_angle_turn, turn_ok. rewrite cross3_np, Q_leb_spec.
  simpl. split; intros H; lra.
Qed.

Lemma viol_f0 p :
  viol_spec Bwd p (fun next_to_top top => IVAP.non_right_angle_turn p top next_to_top).
Proof.
  intros ntt top. unfold IVAP.non_right_angle_turn, turn_ok. rewrite cross3_np, Q_geb_spec.
  simpl. split; intros H; lra.
Qed.

Lemma viol_init_f1 p :
  viol_spec Bwd p (fun next_to_top top => IVAP.non_left_angle_turn next_to_top top p).
Proof.
  intros ntt top. unfold IVAP.non_left_angle_turn, turn_ok. rewrite cross3_np, Q_leb_spec.
  pose proof (cross3_swap ntt top p). simpl. split; intros; lra.
Qed.

Lemma viol_init_f0 p :
  viol_spec Fwd p (fun next_to_top top => IVAP.non_right_angle_turn next_to_top top p).
Proof.
  intros ntt top. unfold IVAP.non_right_angle_turn, turn_ok. rewrite cross3_np, Q_geb_spec.
  pose proof (cross3_swap ntt top p). simpl. split; intros; lra.
Qed.

(** ** Popping *)

Lemma pop_while_chain d p f stack :
  viol_spec d p f -> chain d stack -> (forall s, In s stack -> xlt d p s) ->
  chain d (p :: IVAP.pop_while f stack).
Proof.
  intros Hf. induction stack as [|a stack IH]; intros Hc Hx.
  - simpl. exact I.
  - destruct stack as [|b r].
    + simpl. split; [apply Hx; left; reflexivity | split; exact I].
    + change (IVAP.pop_while f (a :: b :: r))
        with (if f b a then IVAP.pop_while f (b :: r) else a :: b :: r).
      destruct (f b a) eqn:E.
      * apply IH.
        -- destruct Hc as (_ & _ & Hc). exact Hc.
        -- intros s Hs. apply Hx. right. exact Hs.
      * split; [apply Hx; left; reflexivity|]. split; [|exact Hc].
        unfold turn_ok. destruct (Qlt_le_dec 0 (sg d * cross3 p a b)) as [H|H]; [exact H|].
        exfalso. assert (f b a = true) as E' by (apply Hf; unfold turn_ok; lra).
        congruence.
Qed.

Lemma pop_while_suffix f stack :
  exists pre, stack = pre ++ IVAP.pop_while f stack.
Proof.
  induction stack as [|a stack IH].
  - exists []. reflexivity.
  - destruct stack as [|b r].
    + exists []. reflexivity.
    + change (IVAP.pop_while f (a :: b :: r))
        with (if f b a then IVAP.pop_while f (b :: r) else a :: b :: r).
      destruct (f b a).
      * destruct IH as [pre IH]. exists (a :: pre). simpl. f_equal. exact IH.
      * exists []. reflexivity.
Qed.

Lemma pop_while_nonempty f stack : stack <> [] -> IVAP.pop_while f stack <> [].
Proof.
  induction stack as [|a stack IH]; intros H; [congruence|].
  destruct stack as [|b r]; [simpl; congruence|].
  change (IVAP.pop_while f (a :: b :: r))
    with (if f b a then IVAP.pop_while f (b :: r) else a :: b :: r).
  destruct (f b a); [apply IH|]; congruence.
Qed.

(** ** Subsequences that keep the last element *)

Lemma se_In {A} (l1 l2 : list A) : se l1 l2 -> forall x, In x l1 -> In x l2.
Proof.
  induction 1; intros y Hy; simpl in *; intuition.
Qed.

Lemma se_nonempty {A} (l1 l2 : list A) : se l1 l2 -> l1 <> [] /\ l2 <> [].
Proof. induction 1; split; try congruence; tauto. Qed.

Lemma se_tail {A} (x y : A) l R : se (x :: y :: l) R -> se (y :: l) R.
Proof.
  intros H. remember (x :: y :: l) as L eqn:E. revert x y l E.
  induction H; intros a b l' E.
  - discriminate.
  - apply se_skip. eapply IHse. exact E.
  - injection E as -> ->. apply se_skip. exact H.
Qed.

Lemma se_pop_while f (l R : list point) : se l R -> se (IVAP.pop_while f l) R.
Proof.
  revert R. induction l as [|a l IH]; intros R H; [exact H|].
  destruct l as [|b r]; [exact H|].
  change (IVAP.pop_while f (a :: b :: r))
    with (if f b a then IVAP.pop_while f (b :: r) else a :: b :: r).
  destruct (f b a); [|exact H].
  apply IH. eapply se_tail. exact H.
Qed.

Lemma se_refl {A} (l : list A) : l <> [] -> se l l.
Proof.
  induction l as [|a l IH]; [congruence|]. intros _.
  destruct l; [constructor|]. apply se_take. apply IH. congruence.
Qed.

(** ** Convex chains *)

Lemma xlt_trans d a b c : xlt d a b -> xlt d b c -> xlt d a c.
Proof. unfold xlt. destruct d; simpl; lra. Qed.

Lemma chain_tail d a l : chain d (a :: l) -> chain d l.
Proof. destruct l as [|b r]; simpl; tauto. Qed.

Lemma chain_xlt d a l : chain d (a :: l) -> forall s, In s l -> xlt d a s.
Proof.
  revert a. induction l as [|b r IH]; intros a Hc s Hs; [contradiction|].
  destruct Hc as (Hab & _ & Hc). destruct Hs as [<-|Hs]; [exact Hab|].
  eapply xlt_trans; [exact Hab|]. apply IH; assumption.
Qed.

Lemma xlt_neq d a b : xlt d a b -> ~ fst b - fst a == 0.
Proof. unfold xlt. intros H E. rewrite E in H. destruct d; simpl in H; lra. Qed.

Lemma is_slope_unique a b v w : ~ fst b - fst a == 0 -> is_slope a b v -> is_slope a b w -> v == w.
Proof.
  unfold is_slope. intros Hn Hv Hw.
  assert ((v - w) * (fst b - fst a) == 0) as H by lra.
  apply Qmult_integral in H. destruct H; [lra | contradiction].
Qed.

(** Consecutive slopes of a chain are ordered. *)
Lemma turn_slopes d a b c v w :
  xlt d a b -> xlt d b c -> turn_ok d a b c -> is_slope a b v -> is_slope b c w ->
  0 < sg d * (w - v).
Proof.
  unfold xlt, turn_ok, is_slope, cross3. intros Hab Hbc Ht Hv Hw.
  rewrite <- Hv, <- Hw in Ht.
  assert (0 < sg d * ((fst b - fst a) * (fst c - fst b) * (w - v))) as Ht'.
  { eapply Qlt_le_trans; [exact Ht|]. apply Qle_lteq. right. ring. }
  clear Ht Hv Hw.
  set (X := fst b - fst a) in *. set (Y := fst c - fst b) in *. set (Z := w - v) in *.
  assert (0 < X * Y) as HXY by (destruct d; simpl in *; nra).
  assert (0 < sg d * ((X * Y) * Z)) as H by exact Ht'.
  clearbody X Y Z. set (W := X * Y) in *. clearbody W.
  destruct d; simpl in *; nra.
Qed.

Lemma above_next d a b v w s :
  xlt d a b -> (xlt d b s \/ fst s == fst b) -> is_slope a b v -> 0 <= sg d * (w - v) ->
  above b w s -> above a v s.
Proof.
  unfold xlt, is_slope, above. intros Hab Hbs Hv Hw Hs.
  destruct d; simpl in *; destruct Hbs as [Hbs|Hbs]; nra.
Qed.

(** Every later point of a chain lies on or above the line of its first
    edge. *)
Lemma chain_above d a b r v :
  chain d (a :: b :: r) -> is_slope a b v -> forall s, In s (b :: r) -> above a v s.
Proof.
  revert a b v. induction r as [|c r IH]; intros a b v Hc Hv s Hs.
  - destruct Hs as [<-|[]]. unfold above, is_slope in *. lra.
  - destruct Hs as [<-|Hs].
    + unfold above, is_slope in *. lra.
    + destruct Hc as (Hab & Ht & Hc).
      assert (xlt d b c) as Hbc by (destruct Hc as (H & _); exact H).
      pose proof (slope_is_slope b c (xlt_neq d b c Hbc)) as Hw.
      pose proof (turn_slopes d a b c v _ Hab Hbc Ht Hv Hw) as Hvw.
      apply (above_next d a b v (IVAP.slope b c)); try assumption.
      * left. apply (chain_xlt d b (c :: r) Hc). exact Hs.
      * lra.
      * apply (IH b c); assumption.
Qed.

Lemma chain_snoc d l y z :
  chain d (l ++ [y]) -> xlt d y z ->
  (forall x l', l = l' ++ [x] -> turn_ok d x y z) ->
  chain d (l ++ [y; z]).
Proof.
  induction l as [|x l IH]; intros Hc Hyz Ht.
  - simpl. tauto.
  - destruct l as [|x2 l].
    + simpl in *. destruct Hc as (Hxy & _ & _). repeat split; try assumption.
      apply (Ht x []). reflexivity.
    + change (chain d (x :: (x2 :: l) ++ [y; z])).
      assert (chain d ((x2 :: l) ++ [y; z])) as IH'.
      { apply IH.
        - apply (chain_tail d x). exact Hc.
        - exact Hyz.
        - intros x0 l' E. apply (Ht x0 (x :: l')). simpl. f_equal. exact E. }
      simpl in Hc |- *. destruct Hc as (Hx & Htn & _).
      split; [exact Hx|]. split; [|exact IH'].
      destruct l; simpl in *; exact Htn.
Qed.

Lemma chain_rev d l : chain d l -> chain (opp d) (rev l).
Proof.
  induction l as [|a l IH]; intros Hc; [exact I|].
  destruct l as [|b r]; [exact I|].
  change (rev (a :: b :: r)) with ((rev r ++ [b]) ++ [a]). rewrite <- app_assoc. simpl.
  apply chain_snoc.
  - apply IH. eapply chain_tail. exact Hc.
  - destruct Hc as (Hab & _). unfold xlt in *. destruct d; simpl in *; lra.
  - intros x l' E.
    assert (r = x :: rev l') as ->.
    { rewrite <- (rev_involutive r), E, rev_app_distr. reflexivity. }
    destruct Hc as (_ & Ht & _). unfold turn_ok in *.
    pose proof (cross3_swap x b a). destruct d; simpl in *; lra.
Qed.

(** ** One iteration of [compute_f1] / [compute_f0] on the stack *)

Lemma StronglySorted_app_inv {A} (R : A -> A -> Prop) l1 l2 :
  StronglySorted R (l1 ++ l2) ->
  StronglySorted R l1 /\ StronglySorted R l2 /\ forall a b, In a l1 -> In b l2 -> R a b.
Proof.
  induction l1 as [|x l1 IH]; simpl; intros H.
  - split; [|split]; [constructor | exact H | intros a b []].
  - apply StronglySorted_inv in H. destruct H as [H Hx].
    destruct (IH H) as (H1 & H2 & H12). rewrite Forall_forall in Hx.
    split; [|split].
    + constructor; [exact H1|]. rewrite Forall_forall. intros y Hy. apply Hx.
      apply in_or_app. left. exact Hy.
    + exact H2.
    + intros a b [<-|Ha] Hb; [apply Hx; apply in_or_app; right; exact Hb | apply H12; assumption].
Qed.

Lemma path_split d B m r0 R' :
  path d B -> skipn m B = r0 :: R' ->
  (forall s, In s R' -> step_ok d r0 s) /\
  (forall l, In l (firstn m B) -> step_ok d l r0) /\
  (forall l s, In l (firstn m B) -> In s R' -> step_ok d l s).
Proof.
  intros Hp Hs. unfold path in Hp. rewrite <- (firstn_skipn m B), Hs in Hp.
  apply StronglySorted_app_inv in Hp. destruct Hp as (_ & H2 & H12).
  apply StronglySorted_inv in H2. destruct H2 as [_ H2]. rewrite Forall_forall in H2.
  split; [|split].
  - exact H2.
  - intros l Hl. apply H12; [exact Hl | left; reflexivity].
  - intros l s Hl Hs'. apply H12; [exact Hl | right; exact Hs'].
Qed.

Lemma skipn_S_cons {A} m (B : list A) r0 R' :
  skipn m B = r0 :: R' -> skipn (S m) B = R' /\ firstn (S m) B = firstn m B ++ [r0].
Proof.
  revert B. induction m as [|m IH]; intros B H.
  - simpl in H. subst B. split; reflexivity.
  - destruct B as [|b B]; [discriminate|]. simpl in H. destruct (IH B H) as [H1 H2].
    split; [exact H1|]. change (firstn (S (S m)) (b :: B)) with (b :: firstn (S m) B).
    rewrite H2. reflexivity.
Qed.

Lemma at_or_above_spec p cur top ntt :
  IVAP.at_or_above p cur top ntt = true <-> above top cur p.
Proof. unfold IVAP.at_or_above, above. simpl. apply Q_geb_spec. Qed.

(** The value written by an iteration. *)
Lemma step_value d B m top s1 rest :
  SInv d B m (top :: s1 :: rest) ->
  is_slope top s1 (IVAP.slope top s1) /\
  val_bounds d (IVAP.slope top s1) /\ Phi d B m (IVAP.slope top s1).
Proof.
  intros (top' & tail & E & Hse & Hc & Hb & Hsup). injection E as <- <-.
  assert (xlt d top s1) as Hx by (destruct Hc as (H & _); exact H).
  pose proof (slope_is_slope top s1 (xlt_neq d top s1 Hx)) as Hv.
  assert (In s1 (skipn m B)) as Hin by (apply (se_In _ _ Hse); left; reflexivity).
  split; [exact Hv|]. split.
  - specialize (Hb s1 Hin). unfold is_slope in Hv. unfold xlt in Hx.
    set (v := IVAP.slope top s1) in *. clearbody v.
    destruct d; simpl in *; nra.
  - exists s1. split; [exact Hin|]. intros l Hl.
    specialize (Hsup _ s1 eq_refl Hv l Hl). unfold above, is_slope in *.
    set (v := IVAP.slope top s1) in *. clearbody v. nra.
Qed.

Ltac geom_unfold :=
  unfold peq, padd, shift, step_ok, bnd, xlt, turn_ok, cross3, above, is_slope, val_bounds in *;
  simpl fst in *; simpl snd in *.

Lemma shifted_before d r0 s p :
  peq p (padd r0 (shift d)) -> (s = r0 \/ step_ok d r0 s) -> xlt d p s.
Proof.
  intros Hp [->|Hs]; destruct d; geom_unfold; simpl in *; lra.
Qed.

Lemma shifted_bnd d r0 s p :
  peq p (padd r0 (shift d)) -> step_ok d r0 s -> bnd d p s.
Proof.
  intros Hp Hs; destruct d; geom_unfold; simpl in *; lra.
Qed.

(** The original point next to the replaced one cannot stay a corner. *)
Lemma neighbour_popped d r0 c p :
  peq p (padd r0 (shift d)) -> step_ok d r0 c -> ~ turn_ok d p r0 c.
Proof.
  intros Hp Hs; destruct d; geom_unfold; simpl in *; destruct Hp as [Hp1 Hp2].
  - assert (fst r0 - fst p == 1) as E1 by lra.
    assert (snd r0 - snd p == 1) as E2 by lra.
    rewrite E1, E2. intros H. lra.
  - assert (fst r0 - fst p == -1) as E1 by lra.
    assert (snd r0 - snd p == 0) as E2 by lra.
    rewrite E1, E2. intros H. lra.
Qed.

Lemma neighbour_not_corner d top r0 c p v :
  peq p (padd r0 (shift d)) -> step_ok d r0 c -> xlt d top r0 -> is_slope top r0 v ->
  turn_ok d top r0 c -> above top v p -> False.
Proof.
  intros Hp Hs Hx Hv Ht Ha.
  assert (peq p (fst r0 + fst (shift d), snd r0 + snd (shift d))) as Hp' by exact Hp.
  clear Hp. geom_unfold. destruct Hp' as [Hp1 Hp2].
  rewrite <- Hv in Ht.
  assert (0 < sg d * ((fst r0 - fst top) * ((snd c - snd r0) - v * (fst c - fst r0)))) as Ht'.
  { eapply Qlt_le_trans; [exact Ht|]. apply Qle_lteq. right. ring. }
  clear Ht. rewrite Hp1, Hp2 in Ha.
  destruct d; simpl in *.
  - assert (1 <= v) as Hv1 by nra.
    set (X := fst r0 - fst top) in *. set (Y := fst c - fst r0) in *.
    set (Z := snd c - snd r0) in *. clearbody X Y Z. clear Ha Hv.
    assert (Z - v * Y <= 0) as HT by nra.
    set (T := Z - v * Y) in *. clearbody T. nra.
  - assert (v <= 0) as Hv1 by nra.
    set (X := fst r0 - fst top) in *. set (Y := fst c - fst r0) in *.
    set (Z := snd c - snd r0) in *. clearbody X Y Z. clear Ha Hv.
    assert (Z - v * Y <= 0) as HT by nra.
    set (T := Z - v * Y) in *. clearbody T. nra.
Qed.

Lemma slope_grows d top p s v w :
  above top v s -> ~ above top v p -> xlt d p s -> is_slope p s w -> 0 <= sg d * (w - v).
Proof.
  intros Hs Hp Hx Hw. geom_unfold.
  assert (snd p < snd top + v * (fst p - fst top)) as Hp' by lra. clear Hp.
  assert (0 < (w - v) * (fst s - fst p)) as H by nra.
  set (X := fst s - fst p) in *. set (Z := w - v) in *. clearbody X Z.
  destruct d; simpl in *; nra.
Qed.

Lemma support_moves d top p l v w :
  above top v l -> ~ above top v p -> 0 <= sg d * (w - v) -> 0 <= sg d * (fst p - fst l) ->
  above p w l.
Proof.
  intros Hl Hp Hw Hx. geom_unfold.
  assert (snd p < snd top + v * (fst p - fst top)) as Hp' by lra. clear Hp.
  assert (0 <= (w - v) * (fst p - fst l)) as H.
  { set (X := fst p - fst l) in *. set (Z := w - v) in *. clearbody X Z.
    destruct d; simpl in *; nra. }
  nra.
Qed.

Lemma peq_above a v p q : peq p q -> above a v q -> above a v p.
Proof. unfold peq, above. intros [H1 H2] H. rewrite H1, H2. exact H. Qed.

Lemma above_self p q v : peq p q -> above p v q.
Proof. unfold peq, above. intros [H1 H2]. rewrite <- H1, <- H2. nra. Qed.

Lemma step_next d B m r0 R' top s1 rest p f :
  path d B -> skipn m B = r0 :: R' -> R' <> [] ->
  SInv d B m (top :: s1 :: rest) -> peq p (padd r0 (shift d)) -> viol_spec d p f ->
  let cur := IVAP.slope top s1 in
  let stack' := if IVAP.at_or_above p cur top s1
                then top :: s1 :: rest
                else p :: IVAP.pop_while f (s1 :: rest) in
  SInv d B (S m) stack' /\
  exists top' s1' rest',
    stack' = top' :: s1' :: rest' /\ 0 <= sg d * (IVAP.slope top' s1' - cur).
Proof.
  intros Hp Hs HR (top0 & tail & E & Hse & Hc & Hb & Hsup) Hpeq Hf.
  injection E as <- <-.
  destruct (path_split d B m r0 R' Hp Hs) as (HR0 & HL0 & HLR).
  destruct (skipn_S_cons m B r0 R' Hs) as (HS1 & HF1).
  assert (xlt d top s1) as Hx by (destruct Hc as (H & _); exact H).
  pose proof (slope_is_slope top s1 (xlt_neq d top s1 Hx)) as Hv.
  rewrite Hs in Hse, Hb.
  cbv zeta. destruct (IVAP.at_or_above p (IVAP.slope top s1) top s1) eqn:Eab.
  - (* the stack is kept *)
    apply at_or_above_spec in Eab.
    assert (se (s1 :: rest) R') as Hse'.
    { inversion Hse as [x E1 E2 | x l1 l2 H E1 E2 | x l1 l2 H E1 E2]; subst.
      - congruence.
      - exact H.
      - exfalso. destruct rest as [|c rest]; [apply se_nonempty in H; tauto|].
        apply (neighbour_not_corner d top r0 c p (IVAP.slope top r0)); try assumption.
        + apply HR0. apply (se_In _ _ H). left. reflexivity.
        + destruct Hc as (_ & Ht & _). exact Ht. }
    split.
    + exists top, (s1 :: rest). rewrite HS1, HF1.
      split; [reflexivity|]. split; [exact Hse'|]. split; [exact Hc|]. split.
      * intros s Hin. apply Hb. right. exact Hin.
      * intros v s1' E Hv' l Hl. injection E as <-.
        apply in_app_or in Hl. destruct Hl as [Hl|[<-|[]]].
        -- apply (Hsup v s1 eq_refl Hv' l Hl).
        -- apply (peq_above top v (padd r0 (shift d)) p).
           ++ unfold peq in *. destruct Hpeq as [H1 H2]. split; symmetry; assumption.
           ++ unfold above in *.
              rewrite (is_slope_unique top s1 v _ (xlt_neq d top s1 Hx) Hv' Hv). exact Eab.
    + exists top, s1, rest. split; [reflexivity|].
      destruct d; simpl; lra.
  - (* the replaced point becomes the corner on top *)
    assert (~ above top (IVAP.slope top s1) p) as Hbelow.
    { intros H. rewrite <- (at_or_above_spec p _ top s1) in H. congruence. }
    assert (se (IVAP.pop_while f (s1 :: rest)) R') as Hse'.
    { inversion Hse as [x E1 E2 | x l1 l2 H E1 E2 | x l1 l2 H E1 E2]; subst.
      - congruence.
      - apply se_pop_while. exact H.
      - destruct rest as [|c rest]; [apply se_nonempty in H; tauto|].
        change (IVAP.pop_while f (r0 :: c :: rest))
          with (if f c r0 then IVAP.pop_while f (c :: rest) else r0 :: c :: rest).
        assert (f c r0 = true) as ->.
        { apply Hf. apply neighbour_popped; [exact Hpeq|].
          apply HR0. apply (se_In _ _ H). left. reflexivity. }
        apply se_pop_while. exact H. }
    destruct (IVAP.pop_while f (s1 :: rest)) as [|s1' rest'] eqn:Epop;
      [apply se_nonempty in Hse'; tauto|].
    assert (In s1' (s1 :: rest)) as Hin'.
    { destruct (pop_while_suffix f (s1 :: rest)) as [pre Hpre]. rewrite Hpre, Epop.
      apply in_or_app. right. left. reflexivity. }
    assert (forall s, In s (s1 :: rest) -> xlt d p s) as Hbefore.
    { intros s Hin. apply (shifted_before d r0 s p Hpeq).
      destruct (se_In _ _ Hse s Hin) as [->|Hin2]; [left; reflexivity | right; apply HR0; exact Hin2]. }
    assert (chain d (p :: s1' :: rest')) as Hc'.
    { rewrite <- Epop. apply pop_while_chain; try assumption.
      apply (chain_tail d top). exact Hc. }
    pose proof (chain_above d top s1 rest _ Hc Hv s1' Hin') as Habove.
    pose proof (Hbefore s1' Hin') as Hx'.
    pose proof (slope_is_slope p s1' (xlt_neq d p s1' Hx')) as Hv'.
    pose proof (slope_grows d top p s1' _ _ Habove Hbelow Hx' Hv') as Hmono.
    split.
    + exists p, (s1' :: rest'). rewrite HS1, HF1.
      split; [reflexivity|]. split; [exact Hse'|]. split; [exact Hc'|]. split.
      * intros s Hin. apply (shifted_bnd d r0 s p Hpeq). apply HR0. exact Hin.
      * intros v s1'' E Hv'' l Hl. injection E as <-.
        assert (v == IVAP.slope p s1') as Ev
            by (apply (is_slope_unique p s1'); [apply (xlt_neq d); exact Hx' | exact Hv'' | exact Hv']).
        apply in_app_or in Hl. destruct Hl as [Hl|[<-|[]]].
        -- apply (support_moves d top p _ (IVAP.slope top s1) v).
           ++ apply (Hsup _ s1 eq_refl Hv l Hl).
           ++ exact Hbelow.
           ++ rewrite Ev. exact Hmono.
           ++ specialize (HL0 l Hl). clear - HL0 Hpeq. destruct d; geom_unfold; simpl in *; lra.
        -- apply above_self. exact Hpeq.
    + exists p, s1', rest'. split; [reflexivity | exact Hmono].
Qed.

(** ** The initial stacks ([initialize_f1_corners], [initialize_f0_corners]) *)

Lemma se_snoc {A} (l1 l2 Y : list A) p : se (l1 ++ l2) Y -> se (l1 ++ [p]) (Y ++ [p]).
Proof.
  intros H. remember (l1 ++ l2) as L eqn:E. revert l1 l2 E.
  induction H as [x | x k1 k2 H IH | x k1 k2 H IH]; intros l1 l2 E.
  - destruct l1 as [|y l1].
    + simpl. apply se_skip. apply se_one.
    + injection E as <- E. destruct l1; [|discriminate]. simpl. apply se_take. apply se_one.
  - simpl. apply se_skip. apply (IH l1 l2). exact E.
  - destruct l1 as [|y l1].
    + simpl. apply se_skip. apply (IH [] k1). reflexivity.
    + injection E as <- E. simpl. apply se_take. apply (IH l1 l2). exact E.
Qed.

Lemma turn_ok_opp d a b c : turn_ok (opp d) c b a <-> turn_ok d a b c.
Proof.
  unfold turn_ok. pose proof (cross3_swap a b c). destruct d; simpl; split; intros; lra.
Qed.

Lemma xlt_opp d a b : xlt (opp d) b a <-> xlt d a b.
Proof. unfold xlt. destruct d; simpl; split; intros; lra. Qed.

Lemma opp_opp d : opp (opp d) = d.
Proof. destruct d; reflexivity. Qed.

Lemma scan_spec e f_of pts :
  (forall p, viol_spec e p (f_of p)) ->
  forall U a Y,
    chain e (U ++ [a]) -> se (rev U) Y ->
    (forall p, In p pts -> xlt e p a) ->
    (forall p y, In p pts -> In y Y -> xlt e p y) ->
    StronglySorted (fun x y => xlt e y x) pts ->
    exists U', scan f_of pts (U ++ [a]) = U' ++ [a] /\ chain e (U' ++ [a]) /\
               se (rev U') (Y ++ pts).
Proof.
  intros Hf. induction pts as [|p pts IH]; intros U a Y Hc Hse Ha HY Hsort.
  - exists U. rewrite app_nil_r. auto.
  - simpl.
    destruct (pop_while_suffix (f_of p) (U ++ [a])) as [pre Hpre].
    assert (IVAP.pop_while (f_of p) (U ++ [a]) <> []) as Hne
        by (apply pop_while_nonempty; destruct U; discriminate).
    destruct (exists_last Hne) as (U2 & a' & Epop).
    rewrite Epop in Hpre. rewrite app_assoc in Hpre. apply app_inj_tail in Hpre.
    destruct Hpre as [EU <-].
    assert (chain e (p :: U2 ++ [a])) as Hc'.
    { rewrite <- Epop. apply pop_while_chain; [apply Hf | exact Hc |].
      intros s Hs. apply in_app_or in Hs. destruct Hs as [Hs|[<-|[]]].
      - apply HY; [left; reflexivity|]. apply (se_In _ _ Hse). apply in_rev in Hs. exact Hs.
      - apply Ha. left. reflexivity. }
    apply StronglySorted_inv in Hsort. destruct Hsort as [Hsort Hp].
    rewrite Forall_forall in Hp.
    rewrite Epop.
    destruct (IH (p :: U2) a (Y ++ [p])) as (U' & E' & Hc'' & Hse'').
    + exact Hc'.
    + simpl. apply (se_snoc (rev U2) (rev pre)). rewrite <- rev_app_distr, <- EU. exact Hse.
    + intros q Hq. apply Ha. right. exact Hq.
    + intros q y Hq Hy. apply in_app_or in Hy. destruct Hy as [Hy|[<-|[]]].
      * apply HY; [right; exact Hq | exact Hy].
      * apply Hp. exact Hq.
    + exact Hsort.
    + exists U'. split; [exact E'|]. split; [exact Hc''|].
      rewrite <- app_assoc in Hse''. exact Hse''.
Qed.

Lemma path_sorted_opp d B :
  path d B -> StronglySorted (fun x y => xlt (opp d) y x) B.
Proof.
  unfold path. induction 1 as [|a l Hl IH Ha]; constructor; [exact IH|].
  rewrite Forall_forall in *. intros x Hx. apply xlt_opp.
  specialize (Ha x Hx). clear - Ha. destruct d; geom_unfold; simpl in *; lra.
Qed.

Lemma init_generic d r1 c rest top0 f_of :
  path d (r1 :: c :: rest) -> peq top0 (padd r1 (shift d)) ->
  (forall p, viol_spec (opp d) p (f_of p)) ->
  SInv d (r1 :: c :: rest) 1 (rev (scan f_of (c :: rest) [r1; top0])).
Proof.
  intros Hp Hpeq Hf.
  destruct (path_split d (r1 :: c :: rest) 0 r1 (c :: rest) Hp eq_refl) as (HR0 & _ & _).
  assert (Hp' := Hp). apply StronglySorted_inv in Hp'. destruct Hp' as [Hp' _].
  assert (forall s, In s (c :: rest) -> xlt d top0 s) as Hbefore.
  { intros s Hs. apply (shifted_before d r1 s top0 Hpeq). right. apply HR0. exact Hs. }
  unfold scan. simpl fold_left.
  change (IVAP.pop_while (f_of c) [r1; top0])
    with (if f_of c top0 r1 then IVAP.pop_while (f_of c) [top0] else [r1; top0]).
  assert (f_of c top0 r1 = true) as ->.
  { apply Hf. rewrite turn_ok_opp. apply neighbour_popped; [exact Hpeq|].
    apply HR0. left. reflexivity. }
  simpl IVAP.pop_while.
  destruct (scan_spec (opp d) f_of rest Hf [c] top0 [c]) as (U' & E & Hc & Hse).
  - simpl. split; [|tauto]. apply xlt_opp. apply Hbefore. left. reflexivity.
  - simpl. apply se_one.
  - intros p Hin. apply xlt_opp. apply Hbefore. right. exact Hin.
  - intros p y Hin [<-|[]]. apply path_sorted_opp in Hp'.
    apply StronglySorted_inv in Hp'. destruct Hp' as [_ Hp']. rewrite Forall_forall in Hp'.
    apply Hp'. exact Hin.
  - apply path_sorted_opp in Hp'. apply StronglySorted_inv in Hp'. tauto.
  - unfold scan in E. change ([c; top0]) with ([c] ++ [top0]). rewrite E.
    rewrite rev_app_distr. simpl.
    exists top0, (rev U'). split; [reflexivity|]. split; [exact Hse|]. split.
    + apply chain_rev in Hc. rewrite opp_opp, rev_app_distr in Hc. exact Hc.
    + split.
      * intros s Hs. apply (shifted_bnd d r1 s top0 Hpeq). apply HR0. exact Hs.
      * intros v s1 _ _ l [<-|[]]. apply above_self. exact Hpeq.
Qed.

(** ** Arrays *)

Lemma getitem_app {A} (l1 : list A) x l2 n :
  n = length l1 -> getitem (l1 ++ x :: l2) n = Ok x.
Proof.
  intros ->. unfold getitem. rewrite nth_error_app2 by lia.
  rewrite Nat.sub_diag. reflexivity.
Qed.

Lemma update_app {A} (l1 : list A) x l2 v :
  update (l1 ++ x :: l2) (length l1) v = l1 ++ v :: l2.
Proof. induction l1 as [|a l1 IH]; simpl; [reflexivity | rewrite IH; reflexivity]. Qed.

Lemma setitem_app {A} (l1 : list A) x l2 n v :
  n = length l1 -> setitem (l1 ++ x :: l2) n v = Ok (l1 ++ v :: l2).
Proof.
  intros ->. unfold setitem. rewrite length_app. simpl.
  destruct (Nat.ltb_spec (length l1) (length l1 + S (length l2))); [|lia].
  rewrite update_app. reflexivity.
Qed.

(** ** Non-decreasing sequences and indexed properties *)

Lemma nondec_snoc l x : nondec l -> l <> [] -> last l 0 <= x -> nondec (l ++ [x]).
Proof.
  induction l as [|a l IH]; intros H Hne Hx; [congruence|].
  destruct l as [|b l].
  - simpl. split; [exact Hx | exact I].
  - destruct H as [Hab H]. change (a <= b /\ nondec ((b :: l) ++ [x])). split; [exact Hab|].
    apply IH; [exact H | discriminate | exact Hx].
Qed.

Lemma nondec_nth l : nondec l ->
  forall i j a b, (i <= j)%nat -> nth_error l i = Some a -> nth_error l j = Some b -> a <= b.
Proof.
  induction l as [|x l IH]; intros H i j a b Hij Ha Hb.
  - destruct i; discriminate.
  - assert (forall j b, nth_error (x :: l) j = Some b -> x <= b) as Hx.
    { clear - H IH. intros j. revert x H IH. induction j as [|j IHj]; intros x H IH b Hb.
      - injection Hb as <-. lra.
      - destruct l as [|y l]; [destruct j; discriminate|].
        destruct H as [Hxy H]. simpl in Hb.
        destruct j as [|j].
        + injection Hb as <-. exact Hxy.
        + apply Qle_trans with y; [exact Hxy|].
          apply (IH H 0%nat (S j) y b); [lia | reflexivity | exact Hb]. }
    destruct i as [|i].
    + injection Ha as <-. apply (Hx j). exact Hb.
    + destruct j as [|j]; [lia|]. simpl in Ha, Hb.
      apply (IH (match l as l0 return nondec (x :: l0) -> nondec l0 with
                 | [] => fun _ => I | _ :: _ => fun h => proj2 h end H) i j); [lia | exact Ha | exact Hb].
Qed.

Lemma vals_ok_snoc Pr m0 vs v :
  vals_ok Pr m0 vs -> Pr (m0 + length vs)%nat v -> vals_ok Pr m0 (vs ++ [v]).
Proof.
  intros H Hv j w Hj. destruct (Nat.lt_ge_cases j (length vs)) as [Hlt|Hge].
  - rewrite nth_error_app1 in Hj by exact Hlt. apply H. exact Hj.
  - rewrite nth_error_app2 in Hj by exact Hge.
    destruct (j - length vs)%nat as [|n] eqn:E.
    + injection Hj as <-. replace j with (length vs) by lia. exact Hv.
    + destruct n; discriminate.
Qed.

Lemma vals_ok_cons Pr m0 vs v :
  vals_ok Pr (S m0) vs -> Pr m0 v -> vals_ok Pr m0 (v :: vs).
Proof.
  intros H Hv [|j] w Hj.
  - injection Hj as <-. rewrite Nat.add_0_r. exact Hv.
  - simpl in Hj. replace (m0 + S j)%nat with (S m0 + j)%nat by lia. apply H. exact Hj.
Qed.

(** ** The loop of [compute_f1] *)

Lemma f1_step_eq m pre q x0 r0 R' vs z zs top s1 rest :
  (1 <= m)%nat -> length pre = (m - 1)%nat -> length vs = (m - 1)%nat ->
  let p := IVAP.point_subtraction (IVAP.point_addition q r0) x0 in
  IVAP.compute_f1_step ((0 :: vs) ++ z :: zs, pre ++ q :: x0 :: r0 :: R', top :: s1 :: rest) (S m)
  = Ok ((0 :: vs ++ [IVAP.slope top s1]) ++ zs,
        (pre ++ [q]) ++ p :: r0 :: R',
        next_stack (fun next_to_top top => IVAP.non_left_angle_turn p top next_to_top)
                   p top s1 rest).
Proof.
  intros Hm Hpre Hvs p. unfold IVAP.compute_f1_step. simpl IVAP.stack_top. simpl IVAP.stack_next.
  cbn [bind]. replace (S m - 1)%nat with m by lia. replace (S m - 2)%nat with (m - 1)%nat by lia.
  rewrite (setitem_app (0 :: vs) z zs) by (simpl; lia). cbn [bind].
  rewrite (getitem_app pre q) by lia. cbn [bind].
  replace (pre ++ q :: x0 :: r0 :: R') with ((pre ++ [q; x0]) ++ r0 :: R')
    by (rewrite <- app_assoc; reflexivity).
  rewrite (getitem_app (pre ++ [q; x0]) r0) by (rewrite length_app; simpl; lia). cbn [bind].
  replace ((pre ++ [q; x0]) ++ r0 :: R') with ((pre ++ [q]) ++ x0 :: r0 :: R')
    by (rewrite <- !app_assoc; reflexivity).
  rewrite (getitem_app (pre ++ [q]) x0) by (rewrite length_app; simpl; lia). cbn [bind].
  rewrite (setitem_app (pre ++ [q]) x0) by (rewrite length_app; simpl; lia). cbn [bind].
  fold p. unfold next_stack. simpl tl.
  destruct (IVAP.at_or_above p (IVAP.slope top s1) top s1); simpl;
    rewrite <- ?app_assoc; reflexivity.
Qed.

Lemma SInv_shape d B m stack :
  SInv d B m stack ->
  exists top s1 rest r0 R', stack = top :: s1 :: rest /\ skipn m B = r0 :: R'.
Proof.
  intros (top & tail & E & Hse & _). apply se_nonempty in Hse. destruct Hse as [H1 H2].
  destruct tail as [|s1 rest]; [congruence|].
  destruct (skipn m B) as [|r0 R']; [congruence|].
  exists top, s1, rest, r0, R'. split; [exact E | reflexivity].
Qed.

Lemma replaced_peq d q x0 r0 :
  peq q (padd x0 (shift d)) ->
  peq (IVAP.point_subtraction (IVAP.point_addition q r0) x0) (padd r0 (shift d)).
Proof.
  unfold peq, padd, IVAP.point_subtraction, IVAP.point_addition. simpl.
  intros [H1 H2]. rewrite H1, H2. split; ring.
Qed.

Lemma step_ok_opp d a b : step_ok (opp d) b a <-> step_ok d a b.
Proof. unfold step_ok. destruct d; simpl; split; intros; lra. Qed.

Lemma StronglySorted_snoc {A} (R : A -> A -> Prop) l a :
  StronglySorted R l -> (forall x, In x l -> R x a) -> StronglySorted R (l ++ [a]).
Proof.
  induction l as [|x l IH]; intros Hs Hx.
  - simpl. constructor; constructor.
  - apply StronglySorted_inv in Hs. destruct Hs as [Hs Hxs]. simpl. constructor.
    + apply IH; [exact Hs|]. intros y Hy. apply Hx. right. exact Hy.
    + rewrite Forall_forall in *. intros y Hy. apply in_app_or in Hy.
      destruct Hy as [Hy|[<-|[]]]; [apply Hxs; exact Hy | apply Hx; left; reflexivity].
Qed.

Lemma path_rev_gen d B : path d B -> path (opp d) (rev B).
Proof.
  unfold path. induction 1 as [|a l Hl IH Ha]; [constructor|].
  simpl. apply StronglySorted_snoc; [exact IH|]. rewrite Forall_forall in Ha.
  intros x Hx. apply step_ok_opp. apply Ha. apply in_rev. exact Hx.
Qed.

Section Loops.

Variable P : list point.
Variable k : nat.
Hypothesis HP : path Fwd P.
Hypothesis HL : length P = S k.

Lemma f1_loop n :
  forall m pre q x0 vs zs stack,
    (m + n = S k)%nat -> (1 <= m)%nat ->
    length pre = (m - 1)%nat -> peq q (padd x0 (shift Fwd)) ->
    skipn (m - 1) P = x0 :: skipn m P ->
    length vs = (m - 1)%nat -> length zs = n ->
    (n <> 0%nat -> SInv Fwd P m stack) ->
    vals_ok (Phi1 P) 1 vs -> nondec (0 :: vs) ->
    (forall top s1 rest, stack = top :: s1 :: rest -> n <> 0%nat ->
                         last (0 :: vs) 0 <= IVAP.slope top s1) ->
    exists vs' csd' stack',
      foldM IVAP.compute_f1_step (seq (S m) n)
            ((0 :: vs) ++ zs, pre ++ q :: x0 :: skipn m P, stack)
      = Ok (0 :: vs', csd', stack') /\
      length vs' = k /\ vals_ok (Phi1 P) 1 vs' /\ nondec (0 :: vs').
Proof.
  induction n as [|n IH]; intros m pre q x0 vs zs stack Hmn Hm Hpre Hq Hx0 Hvs Hzs HS Hok Hnd Hlast.
  - destruct zs; [|discriminate]. rewrite app_nil_r. simpl.
    exists vs, (pre ++ q :: x0 :: skipn m P), stack.
    split; [reflexivity|]. split; [lia|]. split; assumption.
  - destruct zs as [|z zs]; [discriminate|]. injection Hzs as Hzs.
    specialize (HS ltac:(discriminate)).
    destruct (SInv_shape _ _ _ _ HS) as (top & s1 & rest & r0 & R' & -> & ER).
    rewrite ER. simpl seq. cbn [foldM].
    rewrite (f1_step_eq m pre q x0 r0 R' vs z zs top s1 rest Hm Hpre Hvs). cbn [bind].
    destruct (skipn_S_cons m P r0 R' ER) as [ER' _].
    destruct (step_value Fwd P m top s1 rest HS) as (Hv & Hvb & HPhi).
    set (p := IVAP.point_subtraction (IVAP.point_addition q r0) x0) in *.
    set (cur := IVAP.slope top s1) in *.
    assert (peq p (padd r0 (shift Fwd))) as Hp by (apply replaced_peq; exact Hq).
    rewrite <- ER'.
    replace (0 :: vs ++ [cur]) with (0 :: (vs ++ [cur])) by reflexivity.
    apply (IH (S m) (pre ++ [q]) p r0 (vs ++ [cur]) zs).
    + lia.
    + lia.
    + rewrite length_app. simpl. lia.
    + exact Hp.
    + replace (S m - 1)%nat with m by lia. rewrite ER, ER'. reflexivity.
    + rewrite length_app. simpl. lia.
    + exact Hzs.
    + intros Hn.
      assert (R' <> []) as HR'.
      { intros E. rewrite E in ER'. apply (f_equal (@length _)) in ER'.
        rewrite length_skipn in ER'. simpl in ER'. lia. }
      apply (step_next Fwd P m r0 R' top s1 rest p _ HP ER HR' HS Hp (viol_f1 p)).
    + apply vals_ok_snoc; [exact Hok|]. replace (1 + length vs)%nat with m by lia.
      split; assumption.
    + change (nondec ((0 :: vs) ++ [cur])). apply nondec_snoc; [exact Hnd | discriminate |].
      apply (Hlast top s1 rest eq_refl). discriminate.
    + intros top' s1' rest' E Hn.
      assert (R' <> []) as HR'.
      { intros E'. rewrite E' in ER'. apply (f_equal (@length _)) in ER'.
        rewrite length_skipn in ER'. simpl in ER'. lia. }
      destruct (step_next Fwd P m r0 R' top s1 rest p _ HP ER HR' HS Hp (viol_f1 p))
        as (_ & top2 & s2 & rest2 & E2 & Hmono).
      unfold next_stack in E. fold cur in E, E2, Hmono. rewrite E2 in E.
      injection E as <- <- <-.
      change (0 :: vs ++ [cur]) with ((0 :: vs) ++ [cur]). rewrite last_last.
      simpl in Hmono. lra.
Qed.

(** *** The loop of [compute_f0] *)

Lemma f0_step_eq i pre r0 x0 q post zs z ws top s1 rest :
  length pre = (i - 1)%nat -> (1 <= i)%nat -> length zs = i ->
  let p := IVAP.point_subtraction (IVAP.point_addition r0 q) x0 in
  IVAP.compute_f0_step (zs ++ z :: ws, pre ++ r0 :: x0 :: q :: post, top :: s1 :: rest) i
  = Ok (zs ++ IVAP.slope top s1 :: ws,
        pre ++ r0 :: p :: q :: post,
        next_stack (fun next_to_top top => IVAP.non_right_angle_turn p top next_to_top)
                   p top s1 rest).
Proof.
  intros Hpre Hi Hzs p. unfold IVAP.compute_f0_step. simpl IVAP.stack_top. simpl IVAP.stack_next.
  cbn [bind].
  rewrite (setitem_app zs z ws) by lia. cbn [bind].
  rewrite (getitem_app pre r0) by lia. cbn [bind].
  replace (pre ++ r0 :: x0 :: q :: post) with ((pre ++ [r0; x0]) ++ q :: post)
    by (rewrite <- app_assoc; reflexivity).
  rewrite (getitem_app (pre ++ [r0; x0]) q) by (rewrite length_app; simpl; lia). cbn [bind].
  replace ((pre ++ [r0; x0]) ++ q :: post) with ((pre ++ [r0]) ++ x0 :: q :: post)
    by (rewrite <- !app_assoc; reflexivity).
  rewrite (getitem_app (pre ++ [r0]) x0) by (rewrite length_app; simpl; lia). cbn [bind].
  rewrite (setitem_app (pre ++ [r0]) x0) by (rewrite length_app; simpl; lia). cbn [bind].
  fold p. unfold next_stack. simpl tl.
  destruct (IVAP.at_or_above p (IVAP.slope top s1) top s1); simpl;
    rewrite <- ?app_assoc; reflexivity.
Qed.

Lemma path_rev : path Bwd (rev P).
Proof. apply (path_rev_gen Fwd). exact HP. Qed.

Lemma replaced_peq0 q x0 r0 :
  peq q (padd x0 (shift Bwd)) ->
  peq (IVAP.point_subtraction (IVAP.point_addition r0 q) x0) (padd r0 (shift Bwd)).
Proof.
  unfold peq, padd, IVAP.point_subtraction, IVAP.point_addition. simpl.
  intros [H1 H2]. rewrite H1, H2. split; ring.
Qed.

Lemma skipn_rev_P i : (i <= S k)%nat -> skipn (S k - i) (rev P) = rev (firstn i P).
Proof.
  intros Hi. rewrite skipn_rev, HL. f_equal. f_equal. lia.
Qed.

Lemma firstn_S_P j : (j <= k)%nat -> exists y, firstn (S j) P = firstn j P ++ [y].
Proof.
  intros Hj. destruct (skipn j P) as [|y R] eqn:E.
  - apply (f_equal (@length _)) in E. rewrite length_skipn in E. simpl in E. lia.
  - exists y. apply (skipn_S_cons j P y R E).
Qed.

Lemma f0_loop i :
  forall x0 q post ws stack,
    (i <= k)%nat -> firstn (S i) P = firstn i P ++ [x0] ->
    peq q (padd x0 (shift Bwd)) -> length ws = (k - i)%nat ->
    (i <> 0%nat -> SInv Bwd (rev P) (S k - i) stack) ->
    vals_ok (Phi0 P k) (S i) ws -> nondec ws ->
    (forall top s1 rest w, stack = top :: s1 :: rest -> i <> 0%nat ->
                           hd_error ws = Some w -> IVAP.slope top s1 <= w) ->
    exists ws' csd' stack',
      foldM IVAP.compute_f0_step (rev (seq 1 i))
            (repeat 0 (S i) ++ ws, firstn i P ++ x0 :: q :: post, stack)
      = Ok (0 :: ws', csd', stack') /\
      length ws' = k /\ vals_ok (Phi0 P k) 1 ws' /\ nondec (0 :: ws').
Proof.
  induction i as [|j IH]; intros x0 q post ws stack Hi Hx0 Hq Hws HS Hok Hnd Hhd.
  - simpl. exists ws, (x0 :: q :: post), stack.
    split; [reflexivity|]. split; [lia|]. split; [exact Hok|].
    destruct ws as [|w ws]; [exact I|]. split; [|exact Hnd].
    destruct (Hok 0%nat w eq_refl) as [Hb _]. simpl in Hb. tauto.
  - specialize (HS ltac:(discriminate)).
    destruct (SInv_shape _ _ _ _ HS) as (top & s1 & rest & r0 & R' & -> & ER).
    assert (ER0 := ER). rewrite skipn_rev_P in ER0 by lia.
    destruct (firstn_S_P j ltac:(lia)) as [y Ey].
    rewrite Ey, rev_app_distr in ER0. simpl in ER0. injection ER0 as -> ER0.
    rewrite Ey. rewrite <- app_assoc.
    change ([r0] ++ x0 :: q :: post) with (r0 :: x0 :: q :: post).
    rewrite seq_S, rev_app_distr.
    change (rev [(1 + j)%nat] ++ rev (seq 1 j)) with (S j :: rev (seq 1 j)). cbn [foldM].
    replace (repeat 0 (S (S j)) ++ ws) with (repeat 0 (S j) ++ 0 :: ws)
      by (change (repeat 0 (S (S j))) with (0 :: repeat 0 (S j));
          rewrite (repeat_cons (S j)), <- app_assoc; reflexivity).
    rewrite (f0_step_eq (S j) (firstn j P) r0 x0 q post (repeat 0 (S j)) 0 ws top s1 rest);
      [| rewrite length_firstn; lia | lia | apply repeat_length].
    cbn [bind].
    destruct (step_value Bwd (rev P) (S k - S j) top s1 rest HS) as (Hv & Hvb & HPhi).
    set (p := IVAP.point_subtraction (IVAP.point_addition r0 q) x0) in *.
    set (cur := IVAP.slope top s1) in *.
    assert (peq p (padd r0 (shift Bwd))) as Hp by (apply replaced_peq0; exact Hq).
    assert (j <> 0%nat -> R' <> []) as HR'.
    { intros Hj E. rewrite <- ER0 in E. apply (f_equal (@length _)) in E.
      rewrite length_rev, length_firstn in E. simpl in E. lia. }
    apply (IH r0 p (q :: post) (cur :: ws)).
    + lia.
    + exact Ey.
    + exact Hp.
    + simpl. lia.
    + intros Hj. replace (S k - j)%nat with (S (S k - S j)) by lia.
      apply (step_next Bwd (rev P) (S k - S j) r0 R' top s1 rest p _ path_rev ER (HR' Hj) HS Hp
                       (viol_f0 p)).
    + apply vals_ok_cons; [exact Hok|]. split; assumption.
    + destruct ws as [|w ws]; [exact I|]. split; [|exact Hnd].
      apply (Hhd top s1 rest w eq_refl); [discriminate | reflexivity].
    + intros top' s1' rest' w E Hj Ew. injection Ew as <-.
      destruct (step_next Bwd (rev P) (S k - S j) r0 R' top s1 rest p _ path_rev ER (HR' Hj) HS Hp
                          (viol_f0 p)) as (_ & top2 & s2 & rest2 & E2 & Hmono).
      unfold next_stack in E. fold cur in E, E2, Hmono. rewrite E2 in E.
      injection E as <- <- <-. simpl in Hmono. lra.
Qed.

End Loops.

(** ** [F1] and [F0] of a cumulative sum diagram *)

Lemma last1_snoc {A} (l : list A) x : last1 (l ++ [x]) = Ok x.
Proof. unfold last1. rewrite rev_app_distr. reflexivity. Qed.

Lemma last2_snoc {A} (l : list A) x y : last2 (l ++ [x; y]) = Ok x.
Proof. unfold last2. rewrite rev_app_distr. reflexivity. Qed.

Lemma compare_F P k m v1 v0 :
  path Fwd P -> length P = S k -> (m <= S k)%nat ->
  Phi1 P m v1 -> Phi0 P k m v0 -> v0 < v1.
Proof.
  intros HP HL Hm [_ (s & Hs & H1)] [_ (s' & Hs' & H0)].
  rewrite skipn_rev, HL in Hs'. replace (S k - (S k - m))%nat with m in Hs' by lia.
  apply in_rev in Hs'.
  assert (forall r, In r (skipn m P) -> above s' v0 (padd r (shift Bwd))) as H0'.
  { intros r Hr. apply H0. rewrite firstn_rev, HL.
    replace (S k - (S k - m))%nat with m by lia. apply in_rev in Hr. exact Hr. }
  specialize (H1 s' Hs'). specialize (H0' s Hs).
  assert (step_ok Fwd s' s) as Hstep.
  { unfold path in HP. rewrite <- (firstn_skipn m P) in HP.
    apply StronglySorted_app_inv in HP. destruct HP as (_ & _ & H). apply H; assumption. }
  clear - H1 H0' Hstep. geom_unfold. simpl in *. nra.
Qed.

Lemma compute_f1_spec P1 k :
  path Fwd ((0, 0) :: P1) -> length P1 = k ->
  exists S1 vs,
    IVAP.initialize_f1_corners ((-1, -1) :: (0, 0) :: P1) = Ok S1 /\
    IVAP.compute_f1 k S1 ((-1, -1) :: (0, 0) :: P1) = Ok (0 :: vs) /\
    length vs = k /\ vals_ok (Phi1 ((0, 0) :: P1)) 1 vs /\ nondec (0 :: vs).
Proof.
  intros HP HL. unfold IVAP.initialize_f1_corners. simpl getitem. cbn [bind]. simpl skipn.
  destruct P1 as [|c rest].
  - eexists. exists []. simpl in HL. subst k. split; [reflexivity|]. split; [reflexivity|].
    split; [reflexivity|]. split; [|exact I]. intros [|j] v Hj; discriminate.
  - pose proof (init_generic Fwd (0, 0) c rest (-1, -1)
                  (fun p next_to_top top => IVAP.non_left_angle_turn next_to_top top p)
                  HP (conj (Qeq_refl _) (Qeq_refl _)) viol_init_f1) as HS.
    unfold scan in HS.
    assert (length ((0, 0) :: c :: rest) = S k) as HL' by (simpl in *; lia).
    assert (1 + k = S k)%nat as Hk by lia.
    assert (peq (-1, -1) (padd (0, 0) (shift Fwd))) as Hq by (split; reflexivity).
    assert (vals_ok (Phi1 ((0, 0) :: c :: rest)) 1 []) as Hok0
        by (intros [|j] v Hj; discriminate).
    assert (forall top s1 rest', rev (fold_left
          (fun (stack : list point) (p_i : point) =>
           p_i :: IVAP.pop_while
                (fun next_to_top top : point => IVAP.non_left_angle_turn next_to_top top p_i)
                stack) (c :: rest) [(0, 0); (-1, -1)]) = top :: s1 :: rest' ->
              k <> 0%nat -> last [0] 0 <= IVAP.slope top s1) as Hlast.
    { intros top s1 rest' E _.
      assert (SInv Fwd ((0, 0) :: c :: rest) 1 (top :: s1 :: rest')) as HS2
          by (rewrite <- E; exact HS).
      destruct (step_value Fwd _ _ _ _ _ HS2) as (_ & [Hb _] & _).
      change (0 <= IVAP.slope top s1). apply Qlt_le_weak. exact Hb. }
    eexists.
    destruct (f1_loop ((0, 0) :: c :: rest) k HP HL' k
                      1%nat [] (-1, -1) (0, 0) [] (repeat 0 k) _
                      Hk (Nat.le_refl 1) eq_refl Hq eq_refl eq_refl
                      (repeat_length _ _) (fun _ => HS) Hok0 I Hlast)
      as (vs & csd' & stack' & E & Hlen & Hok & Hnd).
    exists vs. split; [reflexivity|]. unfold IVAP.compute_f1.
    replace (k + 1)%nat with (S k) by lia. cbv zeta.
    split; [|auto].
    match goal with
    | |- bind ?X _ = _ => replace X with (Ok (0 :: vs, csd', stack')) by (symmetry; exact E)
    end.
    reflexivity.
Qed.

Lemma compute_f0_spec P k lastP :
  path Fwd P -> length P = S k -> last1 P = Ok lastP ->
  exists S0 ws,
    IVAP.initialize_f0_corners (P ++ [(fst lastP + 1, snd lastP + 0)]) = Ok S0 /\
    IVAP.compute_f0 k S0 (P ++ [(fst lastP + 1, snd lastP + 0)]) = Ok (0 :: ws) /\
    length ws = k /\ vals_ok (Phi0 P k) 1 ws /\ nondec (0 :: ws).
Proof.
  intros HP HL Hlast.
  assert (P = firstn k P ++ [lastP]) as EP.
  { unfold last1 in Hlast. destruct (rev P) as [|x r] eqn:E; [discriminate|].
    injection Hlast as ->. apply (f_equal (@rev _)) in E. rewrite rev_involutive in E.
    simpl in E. rewrite E at 1. f_equal. rewrite E, firstn_app.
    assert (length (rev r) = k) as Hr by (rewrite E, length_app in HL; simpl in HL; lia).
    rewrite Hr, Nat.sub_diag, firstn_all2 by lia. simpl. rewrite app_nil_r. reflexivity. }
  set (e := (fst lastP + 1, snd lastP + 0)).
  unfold IVAP.initialize_f0_corners.
  rewrite last1_snoc. cbn [bind].
  assert (last2 (P ++ [e]) = Ok lastP) as ->.
  { rewrite EP, <- app_assoc. apply last2_snoc. }
  cbn [bind].
  assert (length (P ++ [e]) - 2 = k)%nat as -> by (rewrite length_app; simpl; lia).
  assert (firstn k (P ++ [e]) = firstn k P) as ->.
  { rewrite firstn_app. replace (k - length P)%nat with 0%nat by lia.
    simpl. apply app_nil_r. }
  destruct (rev (firstn k P)) as [|c rest] eqn:Erev.
  - assert (k = 0%nat) as ->.
    { apply (f_equal (@length _)) in Erev. rewrite length_rev, length_firstn in Erev.
      simpl in Erev. lia. }
    eexists. exists []. split; [reflexivity|]. split; [reflexivity|].
    split; [reflexivity|]. split; [|exact I]. intros [|j] v Hj; discriminate.
  - assert (rev P = lastP :: c :: rest) as ErevP.
    { rewrite EP, rev_app_distr, Erev. reflexivity. }
    pose proof (path_rev_gen Fwd P HP) as HPr. simpl opp in HPr. rewrite ErevP in HPr.
    pose proof (init_generic Bwd lastP c rest e
                  (fun p next_to_top top => IVAP.non_right_angle_turn next_to_top top p)
                  HPr (conj (Qeq_refl _) (Qeq_refl _)) viol_init_f0) as HS.
    unfold scan in HS. rewrite <- ErevP in HS.
    assert (firstn (S k) P = firstn k P ++ [lastP]) as HfS
        by (rewrite <- EP; apply firstn_all2; lia).
    assert (peq e (padd lastP (shift Bwd))) as Hq by (split; reflexivity).
    assert (@length Q [] = (k - k)%nat) as Hws by (simpl; lia).
    replace 1%nat with (S k - k)%nat in HS by lia.
    assert (vals_ok (Phi0 P k) (S k) []) as Hok0 by (intros [|j] v Hj; discriminate).
    eexists.
    destruct (f0_loop P k HP HL k lastP e [] [] _
                      (Nat.le_refl k) HfS Hq Hws (fun _ => HS) Hok0 I
                      (fun top s1 rest' w _ _ (Hw : hd_error [] = Some w) =>
                         False_ind _ (eq_ind None (fun o => match o with None => True | Some _ => False end) I _ Hw)))
      as (ws & csd' & stack' & E & Hlen & Hok & Hnd).
    exists ws. split; [reflexivity|]. unfold IVAP.compute_f0.
    replace (k + 1)%nat with (S k) by lia. unfold np_zeros.
    rewrite EP at 1. rewrite <- app_assoc. simpl app at 2.
    rewrite app_nil_r in E. cbv zeta.
    split; [|auto].
    match goal with
    | |- bind ?X _ = _ => replace X with (Ok (0 :: ws, csd', stack')) by (symmetry; exact E)
    end.
    reflexivity.
Qed.

Local Close Scope Q_scope.

(** * Preprocessing of the calibration set *)

(** ** The result monad *)

Lemma mapM_ok {A B} (f : A -> result B) (g : A -> B) l :
  (forall x, In x l -> f x = Ok (g x)) -> mapM f l = Ok (map g l).
Proof.
  induction l as [|a l IH]; intros H; [reflexivity|].
  simpl. rewrite (H a) by (left; reflexivity). cbn [bind].
  rewrite IH by (intros x Hx; apply H; right; exact Hx). reflexivity.
Qed.

Lemma mapM_length {A B} (f : A -> result B) l r : mapM f l = Ok r -> length r = length l.
Proof.
  revert r. induction l as [|a l IH]; intros r H.
  - injection H as <-. reflexivity.
  - simpl in H. destruct (f a); [|discriminate]. cbn [bind] in H.
    destruct (mapM f l) eqn:E; [|discriminate]. cbn [bind] in H. injection H as <-.
    simpl. f_equal. apply IH. reflexivity.
Qed.

Lemma mapM_seq_getitem {A B} (g : A -> result B) (l : list A) :
  mapM (fun j => x <- getitem l j ;; g x) (seq 0 (length l)) = mapM g l.
Proof.
  assert (forall pre, mapM (fun j => x <- getitem (pre ++ l) j ;; g x) (seq (length pre) (length l))
                      = mapM g l) as H.
  { induction l as [|a l IH]; intros pre; [reflexivity|].
    simpl. rewrite getitem_app by reflexivity. cbn [bind].
    destruct (g a); [|reflexivity]. cbn [bind].
    replace (pre ++ a :: l) with ((pre ++ [a]) ++ l) by (rewrite <- app_assoc; reflexivity).
    replace (S (length pre)) with (length (pre ++ [a])) by (rewrite length_app; simpl; lia).
    rewrite IH. reflexivity. }
  apply (H []).
Qed.

Lemma getitem_In {A} (l : list A) i x : nth_error l i = Some x -> getitem l i = Ok x.
Proof. unfold getitem. intros ->. reflexivity. Qed.

(** ** Comparisons of scores *)

Lemma Qc_eqb_eq a b : Qc_eqb a b = true <-> a = b.
Proof.
  unfold Qc_eqb. pose proof (Qceq_alt a b) as H.
  destruct (a ?= b)%Qc; split; intros E; try discriminate; try reflexivity.
  - apply H. reflexivity.
  - apply H in E. discriminate.
  - apply H in E. discriminate.
Qed.

Lemma Qc_eqb_refl a : Qc_eqb a a = true.
Proof. apply Qc_eqb_eq. reflexivity. Qed.

Lemma Qc_eqb_sym a b : Qc_eqb a b = Qc_eqb b a.
Proof.
  destruct (Qc_eqb a b) eqn:E1, (Qc_eqb b a) eqn:E2; try reflexivity.
  - apply Qc_eqb_eq in E1. subst. rewrite Qc_eqb_refl in E2. discriminate.
  - apply Qc_eqb_eq in E2. subst. rewrite Qc_eqb_refl in E1. discriminate.
Qed.

Lemma Qc_ltb_lt a b : Qc_ltb a b = true <-> (a < b)%Qc.
Proof.
  unfold Qc_ltb. pose proof (Qclt_alt a b) as H.
  destruct (a ?= b)%Qc; split; intros E; try discriminate; try reflexivity.
  - apply H in E. discriminate.
  - apply H. reflexivity.
  - apply H in E. discriminate.
Qed.

Lemma Qc_leb_le a b : Qc_leb a b = true <-> (a <= b)%Qc.
Proof.
  unfold Qc_leb. pose proof (Qcle_alt a b) as H.
  destruct (a ?= b)%Qc; split; intros E; try discriminate; try reflexivity.
  - apply H. discriminate.
  - apply H. discriminate.
  - exfalso. apply H in E. apply E. reflexivity.
Qed.

(** ** Insertion sort *)

Section IsortFacts.
Variable A : Type.
Variable leb : A -> A -> bool.
Hypothesis leb_total : forall a b, leb a b = true \/ leb b a = true.
Hypothesis leb_trans : forall a b c, leb a b = true -> leb b c = true -> leb a c = true.

Lemma insert_perm x l : Permutation (insert leb x l) (x :: l).
Proof.
  induction l as [|y l IH]; simpl; [reflexivity|].
  destruct (leb x y); [reflexivity|].
  rewrite IH. apply perm_swap.
Qed.

Lemma isort_perm l : Permutation (isort leb l) l.
Proof.
  induction l as [|x l IH]; simpl; [reflexivity|].
  rewrite insert_perm. constructor. exact IH.
Qed.

Lemma insert_sorted x l : StronglySorted (le_of A leb) l -> StronglySorted (le_of A leb) (insert leb x l).
Proof.
  induction 1 as [|y l Hl IH Hy]; simpl.
  - constructor; constructor.
  - destruct (leb x y) eqn:E.
    + constructor; [constructor; assumption|].
      constructor; [exact E|]. rewrite Forall_forall in *. intros z Hz.
      apply (leb_trans x y z); [exact E | apply Hy; exact Hz].
    + constructor; [exact IH|]. rewrite Forall_forall in *. intros z Hz.
      apply (Permutation_in _ (insert_perm x l)) in Hz. destruct Hz as [<-|Hz].
      * destruct (leb_total x y) as [H|H]; [congruence | exact H].
      * apply Hy. exact Hz.
Qed.

Lemma isort_sorted l : StronglySorted (le_of A leb) (isort leb l).
Proof.
  induction l as [|x l IH]; simpl; [constructor | apply insert_sorted; exact IH].
Qed.

Hypothesis leb_antisym : forall a b, leb a b = true -> leb b a = true -> a = b.

Lemma sorted_perm_unique l1 l2 :
  StronglySorted (le_of A leb) l1 -> StronglySorted (le_of A leb) l2 -> Permutation l1 l2 -> l1 = l2.
Proof.
  revert l2. induction l1 as [|a l1 IH]; intros l2 H1 H2 Hp.
  - apply Permutation_nil in Hp. subst. reflexivity.
  - destruct l2 as [|b l2]; [apply Permutation_sym, Permutation_nil in Hp; discriminate|].
    apply StronglySorted_inv in H1. destruct H1 as [H1 Ha].
    apply StronglySorted_inv in H2. destruct H2 as [H2 Hb].
    rewrite Forall_forall in Ha, Hb.
    assert (a = b) as ->.
    { assert (In a (b :: l2)) as Ia by (apply (Permutation_in _ Hp); left; reflexivity).
      assert (In b (a :: l1)) as Ib
          by (apply (Permutation_in _ (Permutation_sym Hp)); left; reflexivity).
      destruct Ia as [->|Ia]; [reflexivity|]. destruct Ib as [->|Ib]; [reflexivity|].
      apply leb_antisym; [apply Ha; exact Ib | apply Hb; exact Ia]. }
    f_equal. apply IH; try assumption. apply Permutation_cons_inv in Hp. exact Hp.
Qed.

Lemma isort_perm_eq l1 l2 : Permutation l1 l2 -> isort leb l1 = isort leb l2.
Proof.
  intros Hp. apply sorted_perm_unique; try apply isort_sorted.
  rewrite !isort_perm. exact Hp.
Qed.

End IsortFacts.

(** ** [np.lexsort] and the two gathers *)

Lemma key_leb_spec a b :
  key_leb a b = true <->
  ((fst a < fst b)%Qc \/ (fst a = fst b /\ (snd a <= snd b)%Z)).
Proof.
  unfold key_leb. rewrite orb_true_iff, andb_true_iff, Qc_ltb_lt, Qc_eqb_eq, Z.leb_le.
  reflexivity.
Qed.

Lemma key_leb_total a b : key_leb a b = true \/ key_leb b a = true.
Proof.
  rewrite !key_leb_spec. destruct (Qc_dec (fst a) (fst b)) as [[H|H]|H]; auto.
  destruct (Z.le_ge_cases (snd a) (snd b)); [left | right]; right; split; auto.
Qed.

Lemma key_leb_trans a b c : key_leb a b = true -> key_leb b c = true -> key_leb a c = true.
Proof.
  rewrite !key_leb_spec. intros [H1|[H1 H1']] [H2|[H2 H2']].
  - left. eapply Qclt_trans; eassumption.
  - left. rewrite <- H2. exact H1.
  - left. rewrite H1. exact H2.
  - right. split; [congruence | lia].
Qed.

Lemma key_leb_antisym a b : key_leb a b = true -> key_leb b a = true -> a = b.
Proof.
  rewrite !key_leb_spec. destruct a as [s1 l1], b as [s2 l2]. simpl.
  intros [H1|[H1 H1']] [H2|[H2 H2']].
  - exfalso. apply (Qclt_not_le _ _ H1). apply Qclt_le_weak. exact H2.
  - exfalso. subst. apply (Qclt_not_le _ _ H1). apply Qcle_refl.
  - exfalso. subst. apply (Qclt_not_le _ _ H2). apply Qcle_refl.
  - f_equal; [exact H1 | lia].
Qed.

Lemma enumerate_snd {A} (l : list A) : map snd (enumerate l) = l.
Proof.
  unfold enumerate. generalize 0%nat. induction l as [|a l IH]; intros n; [reflexivity|].
  simpl. f_equal. apply IH.
Qed.

Lemma enumerate_nth {A} (l : list A) i a : In (i, a) (enumerate l) -> nth_error l i = Some a.
Proof.
  unfold enumerate.
  assert (forall n, In (i, a) (combine (seq n (length l)) l) ->
                    (n <= i)%nat /\ nth_error l (i - n) = Some a) as H.
  { induction l as [|x l IH]; intros n Hin; [destruct Hin|].
    simpl in Hin. destruct Hin as [E|Hin].
    - injection E as -> ->. rewrite Nat.sub_diag. split; [lia | reflexivity].
    - apply IH in Hin. destruct Hin as [Hn Hin]. split; [lia|].
      replace (i - n)%nat with (S (i - S n)) by lia. exact Hin. }
  intros Hin. apply H in Hin. rewrite Nat.sub_0_r in Hin. tauto.
Qed.

Lemma nth_error_combine {A B} (l1 : list A) (l2 : list B) i a b :
  nth_error (combine l1 l2) i = Some (a, b) ->
  nth_error l1 i = Some a /\ nth_error l2 i = Some b.
Proof.
  revert l2 i. induction l1 as [|x l1 IH]; intros [|y l2] [|i] H; try discriminate.
  - injection H as -> ->. split; reflexivity.
  - simpl in H |- *. apply IH. exact H.
Qed.

Lemma mapM_map {A B C} (f : B -> result C) (h : A -> B) l :
  mapM f (map h l) = mapM (fun x => f (h x)) l.
Proof.
  induction l as [|a l IH]; [reflexivity|]. simpl. rewrite IH. reflexivity.
Qed.

Lemma lexsort_gather y scores :
  length y = length scores ->
  exists order_idx,
    np_lexsort y scores = Ok order_idx /\
    take_idx scores order_idx = Ok (map fst (sorted_rows y scores)) /\
    take_idx y order_idx = Ok (map snd (sorted_rows y scores)).
Proof.
  intros HL. unfold np_lexsort. rewrite HL, Nat.eqb_refl. eexists. split; [reflexivity|].
  unfold take_idx, sorted_rows. rewrite !mapM_map, !map_map.
  split; apply mapM_ok; intros [i [s l]] Hin; simpl;
    apply (Permutation_in _ (isort_perm _ entry_leb _)) in Hin;
    apply enumerate_nth, nth_error_combine in Hin; destruct Hin as [H1 H2];
    apply getitem_In; assumption.
Qed.

Lemma sorted_rows_perm y scores : Permutation (sorted_rows y scores) (combine scores y).
Proof.
  unfold sorted_rows. rewrite (isort_perm _ entry_leb). rewrite enumerate_snd. reflexivity.
Qed.

Lemma sorted_rows_sorted y scores : StronglySorted (le_of _ key_leb) (sorted_rows y scores).
Proof.
  unfold sorted_rows.
  pose proof (isort_sorted _ entry_leb
                (fun a b => key_leb_total (snd a) (snd b))
                (fun a b c => key_leb_trans (snd a) (snd b) (snd c))
                (enumerate (combine scores y))) as H.
  induction H as [|e l Hl IH He]; simpl; constructor; [exact IH|].
  rewrite Forall_forall in *. intros x Hx. apply in_map_iff in Hx.
  destruct Hx as (e' & <- & He'). apply He. exact He'.
Qed.

Lemma sorted_rows_perm_eq y scores y' scores' :
  Permutation (combine scores y) (combine scores' y') ->
  sorted_rows y scores = sorted_rows y' scores'.
Proof.
  intros Hp. apply (sorted_perm_unique _ key_leb key_leb_antisym); try apply sorted_rows_sorted.
  rewrite !sorted_rows_perm. exact Hp.
Qed.

(** ** [np.unique] *)

Lemma dedup_sorted_In v l : In v (dedup_sorted l) -> In v l.
Proof.
  induction l as [|x l IH]; intros H; [exact H|].
  destruct l as [|y l]; [exact H|].
  change (dedup_sorted (x :: y :: l))
    with (if Qc_eqb x y then dedup_sorted (y :: l) else x :: dedup_sorted (y :: l)) in H.
  destruct (Qc_eqb x y).
  - right. apply IH. exact H.
  - destruct H as [<-|H]; [left; reflexivity | right; apply IH; exact H].
Qed.

Lemma dedup_sorted_nonempty l : l <> [] -> dedup_sorted l <> [].
Proof.
  induction l as [|x l IH]; intros H; [congruence|].
  destruct l as [|y l]; [discriminate|].
  change (dedup_sorted (x :: y :: l))
    with (if Qc_eqb x y then dedup_sorted (y :: l) else x :: dedup_sorted (y :: l)).
  destruct (Qc_eqb x y); [apply IH|]; discriminate.
Qed.

Lemma dedup_sorted_sorted {R : Qc -> Qc -> Prop} l :
  StronglySorted R l -> StronglySorted R (dedup_sorted l).
Proof.
  induction 1 as [|x l Hl IH Hx]; [constructor|].
  destruct l as [|y l]; [constructor; constructor|].
  change (dedup_sorted (x :: y :: l))
    with (if Qc_eqb x y then dedup_sorted (y :: l) else x :: dedup_sorted (y :: l)).
  destruct (Qc_eqb x y); [exact IH|].
  constructor; [exact IH|]. rewrite Forall_forall in *. intros z Hz.
  apply Hx. apply dedup_sorted_In. exact Hz.
Qed.

Lemma index_of_nth v l : In v l -> nth_error l (index_of v l) = Some v.
Proof.
  induction l as [|x l IH]; intros H; [destruct H|].
  simpl. destruct (Qc_eqb x v) eqn:E.
  - apply Qc_eqb_eq in E. subst. reflexivity.
  - destruct H as [->|H]; [rewrite Qc_eqb_refl in E; discriminate|].
    simpl. apply IH. exact H.
Qed.

Lemma count_of_pos v l : In v l -> (1 <= count_of v l)%nat.
Proof.
  unfold count_of. induction l as [|x l IH]; intros H; [destruct H|].
  simpl. destruct (Qc_eqb v x) eqn:E; [simpl; lia|].
  destruct H as [->|H]; [rewrite Qc_eqb_refl in E; discriminate | apply IH; exact H].
Qed.

Lemma unique_values_In v a : In v (unique_values a) -> In v a.
Proof.
  intros H. apply dedup_sorted_In in H.
  apply (Permutation_in _ (isort_perm _ Qc_leb a)). exact H.
Qed.

Lemma Qc_leb_total a b : Qc_leb a b = true \/ Qc_leb b a = true.
Proof.
  rewrite !Qc_leb_le. destruct (Qclt_le_dec a b) as [H|H]; [left; apply Qclt_le_weak|right]; exact H.
Qed.

Lemma Qc_leb_trans a b c : Qc_leb a b = true -> Qc_leb b c = true -> Qc_leb a c = true.
Proof. rewrite !Qc_leb_le. apply Qcle_trans. Qed.

Lemma unique_values_sorted a : StronglySorted Qcle (unique_values a).
Proof.
  unfold unique_values. apply dedup_sorted_sorted.
  pose proof (isort_sorted _ Qc_leb Qc_leb_total Qc_leb_trans a) as H.
  induction H as [|x l Hl IH Hx]; constructor; [exact IH|].
  rewrite Forall_forall in *. intros y Hy. apply Qc_leb_le. apply Hx. exact Hy.
Qed.

Lemma unique_values_nonempty a : a <> [] -> unique_values a <> [].
Proof.
  intros H. apply dedup_sorted_nonempty. intros E.
  pose proof (isort_perm _ Qc_leb a) as Hp. rewrite E in Hp.
  apply Permutation_nil in Hp. congruence.
Qed.

(** ** [compute_csd] *)

Local Open Scope Q_scope.

Lemma dict_zip_In {V} (keys : list Qc) (vals : list V) k v :
  In (k, v) (dict_zip keys vals) <-> In (k, v) (combine keys vals).
Proof.
  unfold dict_zip.
  assert (forall l acc, In (k, v) (fold_left (fun d kv => dict_set d (fst kv) (snd kv)) l acc)
                        <-> In (k, v) l \/ In (k, v) acc) as H.
  { induction l as [|[k' v'] l IH]; intros acc; simpl.
    - tauto.
    - rewrite IH. unfold dict_set. simpl. tauto. }
  rewrite H. simpl. tauto.
Qed.

Lemma dict_get_fun {V} (f : Qc -> V) (d : dict V) k :
  (forall k' v, In (k', v) d -> v = f k') -> (exists v, In (k, v) d) ->
  dict_get d k = Ok (f k).
Proof.
  induction d as [|[k' v] d IH]; intros Hf [v0 Hin]; [destruct Hin|].
  simpl. destruct (Qc_eqb k' k) eqn:E.
  - apply Qc_eqb_eq in E. subst. f_equal. apply Hf. left. reflexivity.
  - apply IH.
    + intros k2 v2 H2. apply Hf. right. exact H2.
    + destruct Hin as [Hin|Hin]; [|exists v0; exact Hin].
      injection Hin as -> ->. rewrite Qc_eqb_refl in E. discriminate.
Qed.

Lemma combine_map_same {A B C} (f : A -> B) (g : A -> C) l :
  combine (map f l) (map g l) = map (fun x => (f x, g x)) l.
Proof. induction l as [|a l IH]; simpl; [reflexivity | rewrite IH; reflexivity]. Qed.

Lemma label_rate_eq ue ocs ocl j :
  IVAP.label_rate ue (dict_zip ue (map (fun v => count_of v ocs) ue)) ocs ocl ue j
  = (u <- getitem ue j ;; Ok (rate ocs ocl u)).
Proof.
  unfold IVAP.label_rate. unfold getitem. destruct (nth_error ue j) as [u|] eqn:E; [|reflexivity].
  cbn [bind].
  rewrite (dict_get_fun (fun v => count_of v ocs)).
  - reflexivity.
  - intros k' v Hin. apply dict_zip_In in Hin.
    rewrite <- (map_id ue) in Hin at 1. rewrite combine_map_same in Hin.
    apply in_map_iff in Hin. destruct Hin as (x & Ex & _). injection Ex as <- <-. reflexivity.
  - exists (count_of u ocs). apply dict_zip_In.
    rewrite <- (map_id ue) at 1. rewrite combine_map_same.
    apply in_map_iff. exists u. split; [reflexivity|]. apply (nth_error_In _ _ E).
Qed.

Lemma mapM_ext {A B} (f g : A -> result B) l :
  (forall x, f x = g x) -> mapM f l = mapM g l.
Proof.
  intros H. induction l as [|a l IH]; [reflexivity|]. simpl. rewrite H, IH. reflexivity.
Qed.

Lemma compute_csd_eq ocs ocl ue :
  IVAP.compute_csd (length ue) ue (map (fun v => count_of v ocs) ue) ocs ocl ue
  = Ok (csd_of ocs ocl ue).
Proof.
  unfold IVAP.compute_csd.
  rewrite (mapM_ext _ _ _ (label_rate_eq ue ocs ocl)).
  rewrite (mapM_seq_getitem (fun u => Ok (rate ocs ocl u))).
  rewrite (mapM_ok _ (rate ocs ocl)) by reflexivity. cbn [bind].
  unfold csd_of, weight. rewrite !map_map. rewrite combine_map_same, map_map. reflexivity.
Qed.

Lemma positives_bounds ocs ocl u :
  length ocs = length ocl -> (forall l, In l ocl -> l = 0%Z \/ l = 1%Z) ->
  (0 <= positives ocs ocl u <= Z.of_nat (count_of u ocs))%Z.
Proof.
  unfold positives, count_of. revert ocl.
  induction ocs as [|x ocs IH]; intros [|l ocl] HL Hl; try discriminate; simpl.
  - lia.
  - injection HL as HL.
    assert (0 <= l <= 1)%Z as Hl0 by (destruct (Hl l (or_introl eq_refl)); lia).
    specialize (IH ocl HL (fun l' H' => Hl l' (or_intror H'))).
    rewrite (Qc_eqb_sym x u). destruct (Qc_eqb u x); simpl; [|exact IH].
    unfold Zsum in *. simpl. lia.
Qed.

Lemma weight_pos ocs u : In u ocs -> 1 <= weight ocs u.
Proof.
  intros H. apply count_of_pos in H. unfold weight, Q_of_nat.
  change 1 with (inject_Z 1). rewrite <- Zle_Qle. lia.
Qed.

Lemma rate_weight ocs ocl u :
  In u ocs -> rate ocs ocl u * weight ocs u == inject_Z (positives ocs ocl u).
Proof.
  intros H. apply weight_pos in H. unfold rate. fold (weight ocs u). field. lra.
Qed.

Lemma csd_sorted (W T : Qc -> Q) ue a b :
  (forall u, In u ue -> 1 <= W u /\ 0 <= T u /\ T u <= W u) ->
  Sorted (step_ok Fwd) ((a, b) :: combine (cumsum_from a (map W ue)) (cumsum_from b (map T ue))).
Proof.
  revert a b. induction ue as [|u ue IH]; intros a b H; simpl.
  - constructor; constructor.
  - constructor.
    + apply IH. intros v Hv. apply H. right. exact Hv.
    + constructor. specialize (H u (or_introl eq_refl)).
      unfold step_ok. simpl. lra.
Qed.

Lemma step_ok_trans d : Relations_1.Transitive (step_ok d).
Proof. intros a b c. unfold step_ok. destruct d; simpl; lra. Qed.

Lemma csd_of_path ocs ocl ue :
  length ocs = length ocl -> (forall l, In l ocl -> l = 0%Z \/ l = 1%Z) ->
  (forall u, In u ue -> In u ocs) ->
  path Fwd (csd_of ocs ocl ue).
Proof.
  intros HL Hl Hin. unfold path, csd_of, np_cumsum.
  apply Sorted_StronglySorted; [apply step_ok_trans|].
  apply csd_sorted. intros u Hu. specialize (Hin u Hu).
  pose proof (weight_pos ocs u Hin) as Hw.
  pose proof (rate_weight ocs ocl u Hin) as Hr.
  pose proof (positives_bounds ocs ocl u HL Hl) as [Hp0 Hp1].
  rewrite Hr. split; [exact Hw|]. unfold weight, Q_of_nat. rewrite <- !Zle_Qle.
  change 0 with (inject_Z 0). rewrite <- Zle_Qle. lia.
Qed.

Lemma cumsum_from_length a l : length (cumsum_from a l) = length l.
Proof. revert a. induction l as [|x l IH]; intros a; simpl; [reflexivity | rewrite IH; reflexivity]. Qed.

Lemma csd_of_length ocs ocl ue : length (csd_of ocs ocl ue) = S (length ue).
Proof.
  unfold csd_of, np_cumsum, point. cbn [length].
  rewrite length_combine, !cumsum_from_length, !length_map.
  rewrite Nat.min_id. reflexivity.
Qed.

(** ** [fit] *)

Lemma binarize_length p y : length (IVAP.binarize p y) = length y.
Proof. apply length_map. Qed.

Lemma binarize_01 p y l : In l (IVAP.binarize p y) -> l = 0%Z \/ l = 1%Z.
Proof.
  unfold IVAP.binarize. intros H. apply in_map_iff in H. destruct H as (x & <- & _).
  destruct (x =? p)%Z; auto.
Qed.

Lemma fit_eq self y scores :
  length y = length scores -> (n_unique_labels y <= 2)%nat ->
  IVAP.fit self y scores
  = fit_tail (map fst (sorted_rows (IVAP.binarize 1 y) scores))
             (map snd (sorted_rows (IVAP.binarize 1 y) scores)).
Proof.
  intros HL Hn. unfold IVAP.fit.
  destruct (Nat.leb_spec (n_unique_labels y) 2) as [_|H]; [|lia]. simpl negb. cbv iota.
  destruct (lexsort_gather (IVAP.binarize 1 y) scores) as (idx & E1 & E2 & E3).
  { rewrite binarize_length. exact HL. }
  cbv zeta. rewrite E1. cbn [bind]. rewrite E2. cbn [bind]. rewrite E3. cbn [bind].
  reflexivity.
Qed.

Lemma fit_assert self y scores :
  (2 < n_unique_labels y)%nat -> IVAP.fit self y scores = Raise AssertionError.
Proof.
  intros H. unfold IVAP.fit.
  destruct (Nat.leb_spec (n_unique_labels y) 2) as [H'|_]; [lia|]. reflexivity.
Qed.

Lemma last1_nonempty {A} (l : list A) : l <> [] -> exists x, last1 l = Ok x.
Proof.
  intros H. destruct (exists_last H) as (l' & x & ->). exists x. apply last1_snoc.
Qed.

Lemma fit_tail_spec ocs ocl :
  length ocs = length ocl -> (forall l, In l ocl -> l = 0%Z \/ l = 1%Z) ->
  let ue := unique_values ocs in
  let k := length ue in
  let P := csd_of ocs ocl ue in
  exists vs ws,
    fit_tail ocs ocl = Ok (IVAP.mk true (Some k) (Some (0 :: vs)) (Some (0 :: ws)) (Some ue)) /\
    length vs = k /\ length ws = k /\
    vals_ok (Phi1 P) 1 vs /\ vals_ok (Phi0 P k) 1 ws /\
    nondec (0 :: vs) /\ nondec (0 :: ws) /\
    path Fwd P /\ length P = S k.
Proof.
  intros HL Hl ue k P.
  assert (path Fwd P) as HP
      by (apply csd_of_path; [exact HL | exact Hl | intros u Hu; apply unique_values_In; exact Hu]).
  assert (length P = S k) as HLP by apply csd_of_length.
  unfold fit_tail, np_unique. fold (unique_values ocs). fold ue.
  assert (take_idx ocs (map (fun v => index_of v ocs) ue) = Ok ue) as ->.
  { unfold take_idx. rewrite mapM_map. rewrite <- (map_id ue) at 2. apply mapM_ok.
    intros x Hx. apply getitem_In. apply index_of_nth. apply unique_values_In. exact Hx. }
  cbn [bind].
  assert (exists r, take_idx ocl (map (fun v => index_of v ocs) ue) = Ok r) as [r ->].
  { exists (map (fun v => nth (index_of v ocs) ocl 0%Z) ue).
    unfold take_idx. rewrite mapM_map. apply mapM_ok.
    intros x Hx. apply getitem_In. apply nth_error_nth'. rewrite <- HL.
    apply nth_error_Some. rewrite index_of_nth; [discriminate|].
    apply unique_values_In. exact Hx. }
  cbn [bind]. cbv zeta. rewrite length_map. fold k.
  unfold k at 1. rewrite compute_csd_eq. fold P. cbn [bind].
  destruct (last1_nonempty P) as [lastP ElastP].
  { intros E. rewrite E in HLP. discriminate. }
  rewrite ElastP. cbn [bind].
  assert (exists P1 : list point, P = (0, 0)%Q :: P1) as [P1 EP1] by (eexists; reflexivity).
  destruct (compute_f1_spec P1 k) as (S1 & vs & E1 & E2 & Hvs & Hok1 & Hnd1).
  { rewrite <- EP1. exact HP. }
  { rewrite EP1 in HLP. simpl in HLP. injection HLP as HLP. exact HLP. }
  destruct (compute_f0_spec P k lastP HP HLP ElastP) as (S0 & ws & E3 & E4 & Hws & Hok0 & Hnd0).
  rewrite <- EP1 in E1, E2, Hok1.
  rewrite E1. cbn [bind]. rewrite E3. cbn [bind]. rewrite E2. cbn [bind]. rewrite E4. cbn [bind].
  exists vs, ws. repeat (split; [first [reflexivity | assumption]|]). exact HLP.
Qed.

Local Close Scope Q_scope.

(** * What a fitted IVAP stores *)

Local Open Scope Q_scope.

Lemma fit_facts self y scores :
  length y = length scores -> (n_unique_labels y <= 2)%nat ->
  exists ue vs ws,
    IVAP.fit self y scores
    = Ok (IVAP.mk true (Some (length ue)) (Some (0 :: vs)) (Some (0 :: ws)) (Some ue)) /\
    fitted_facts ue vs ws /\ (y <> [] -> ue <> []).
Proof.
  intros HL Hn. rewrite (fit_eq self y scores HL Hn).
  set (rows := sorted_rows (IVAP.binarize 1 y) scores).
  assert (Permutation rows (combine scores (IVAP.binarize 1 y))) as Hperm
      by apply sorted_rows_perm.
  destruct (fit_tail_spec (map fst rows) (map snd rows)) as
      (vs & ws & E & Hvs & Hws & Hok1 & Hok0 & Hnd1 & Hnd0 & HP & HLP).
  { rewrite !length_map. reflexivity. }
  { intros l Hl. apply in_map_iff in Hl. destruct Hl as ([s l'] & <- & Hin).
    apply (Permutation_in _ Hperm) in Hin. apply in_combine_r in Hin.
    apply (binarize_01 1 y). exact Hin. }
  exists (unique_values (map fst rows)), vs, ws. split; [exact E|]. split.
  - constructor; try assumption.
    + intros j v w Hv Hw.
      apply (compare_F _ _ (1 + j) v w HP HLP).
      * assert (j < length vs)%nat by (apply nth_error_Some; congruence). lia.
      * apply Hok1. exact Hv.
      * apply Hok0. exact Hw.
    + intros j v Hv. destruct (Hok1 j v Hv) as [Hb _]. exact Hb.
    + intros j w Hw. destruct (Hok0 j w Hw) as [Hb _]. exact Hb.
    + apply unique_values_sorted.
  - intros Hy. apply unique_values_nonempty. intros E0.
    apply (f_equal (@length _)) in E0. rewrite length_map in E0.
    apply Permutation_length in Hperm. rewrite length_combine, binarize_length in Hperm.
    destruct y; [congruence|]. simpl in *. lia.
Qed.

(** * C1: monotonicity of [F0] and [F1] *)

Lemma facts_pointwise ue vs ws : fitted_facts ue vs ws -> pointwise_le (0 :: ws) (0 :: vs).
Proof.
  intros H [|i] a b Ha Hb.
  - injection Ha as <-. injection Hb as <-. lra.
  - simpl in Ha, Hb. apply Qlt_le_weak. apply (ff_lt _ _ _ H i); assumption.
Qed.

(** C1 (amended). In exact arithmetic, for every calibration set with at
    most two distinct labels, [fit] succeeds and the arrays [F0] and [F1] it
    stores have the same length, are non-decreasing, and satisfy
    [F0[i] <= F1[i]] at every index. *)
Theorem ivap_F_monotone (self : IVAP.t) (y : list Z) (scores : list Qc) :
  length y = length scores -> (n_unique_labels y <= 2)%nat ->
  exists m f0 f1,
    IVAP.fit self y scores = Ok m /\
    IVAP.F0 m = Some f0 /\ IVAP.F1 m = Some f1 /\
    length f0 = length f1 /\
    nondecreasing f0 /\ nondecreasing f1 /\ pointwise_le f0 f1.
Proof.
  intros HL Hn. destruct (fit_facts self y scores HL Hn) as (ue & vs & ws & E & H & _).
  eexists. exists (0 :: ws), (0 :: vs). split; [exact E|].
  split; [reflexivity|]. split; [reflexivity|]. split.
  - simpl. rewrite (ff_len1 _ _ _ H), (ff_len0 _ _ _ H). reflexivity.
  - split; [|split].
    + intros i j a b. apply nondec_nth. apply (ff_nd0 _ _ _ H).
    + intros i j a b. apply nondec_nth. apply (ff_nd1 _ _ _ H).
    + apply (facts_pointwise ue). exact H.
Qed.

Lemma ivap_F_monotone_witness :
  length example_labels = length example_scores /\
  (n_unique_labels example_labels <= 2)%nat /\
  exists m f0 f1,
    IVAP.fit IVAP.init example_labels example_scores = Ok m /\
    IVAP.F0 m = Some f0 /\ IVAP.F1 m = Some f1 /\
    length f0 = length f1 /\
    nondecreasing f0 /\ nondecreasing f1 /\ pointwise_le f0 f1.
Proof.
  assert (length example_labels = length example_scores) as H1 by reflexivity.
  assert (n_unique_labels example_labels <= 2)%nat as H2 by (vm_compute; lia).
  split; [exact H1|]. split; [exact H2|].
  exact (ivap_F_monotone IVAP.init example_labels example_scores H1 H2).
Defined.

(** * [np.searchsorted] on a sorted array *)

Lemma prefix_true_unique f a r r' : prefix_true f a r -> prefix_true f a r' -> r = r'.
Proof.
  intros (H1 & H2 & H3) (H1' & H2' & H3').
  destruct (Nat.lt_trichotomy r r') as [H|[H|H]]; [|exact H|]; exfalso.
  - destruct (nth_error a r) as [x|] eqn:E.
    + pose proof (H3 r x (Nat.le_refl r) E). pose proof (H2' r x H E). congruence.
    + apply nth_error_None in E. lia.
  - destruct (nth_error a r') as [x|] eqn:E.
    + pose proof (H3' r' x (Nat.le_refl r') E). pose proof (H2 r' x H E). congruence.
    + apply nth_error_None in E. lia.
Qed.

Lemma first_false_prefix f a : monotone_on f a -> prefix_true f a (first_false f a).
Proof.
  induction a as [|x a IH]; intros Hm.
  - split; [simpl; lia|]. split; intros [|i] y Hi E; discriminate.
  - simpl. destruct (f x) eqn:Ex.
    + destruct IH as (H1 & H2 & H3).
      { intros i j u v Hij Hu Hv. apply (Hm (S i) (S j) u v); [lia | exact Hu | exact Hv]. }
      split; [simpl; lia|]. split.
      * intros [|i] y Hi E; [injection E as <-; exact Ex|]. apply (H2 i); [lia | exact E].
      * intros [|i] y Hi E; [lia|]. apply (H3 i); [lia | exact E].
    + split; [simpl; lia|]. split; [intros i y Hi; lia|].
      intros i y _ E. destruct (f y) eqn:Ey; [|reflexivity].
      rewrite <- Ex. symmetry. apply (Hm 0%nat i x y); [lia | reflexivity | exact E | exact Ey].
Qed.

Lemma binsearch_S lt a key fuel lo hi :
  binsearch lt a key (S fuel) lo hi =
  if (lo <? hi)%nat then
    match nth_error a (lo + (hi - lo) / 2) with
    | Some x =>
        if lt x key
        then binsearch lt a key fuel (S (lo + (hi - lo) / 2)) hi
        else binsearch lt a key fuel lo (lo + (hi - lo) / 2)
    | None => lo
    end
  else lo.
Proof. reflexivity. Qed.

Lemma binsearch_prefix lt a key :
  monotone_on (fun x => lt x key) a ->
  forall fuel lo hi,
    (lo <= hi)%nat -> (hi <= length a)%nat -> (hi - lo <= fuel)%nat ->
    (forall i x, (i < lo)%nat -> nth_error a i = Some x -> lt x key = true) ->
    (forall i x, (hi <= i)%nat -> nth_error a i = Some x -> lt x key = false) ->
    prefix_true (fun x => lt x key) a (binsearch lt a key fuel lo hi).
Proof.
  intros Hm. induction fuel as [|fuel IH]; intros lo hi Hlo Hhi Hf Hlt Hge.
  - simpl. assert (lo = hi) as -> by lia. split; [exact Hhi|]. split; assumption.
  - rewrite binsearch_S. destruct (Nat.ltb_spec lo hi) as [Hlh|Hlh].
    + assert ((hi - lo) / 2 < hi - lo)%nat as Hd by (apply Nat.div_lt; lia).
      set (mid := (lo + (hi - lo) / 2)%nat) in *.
      assert (lo <= mid < hi)%nat as Hmid by (unfold mid; lia).
      clearbody mid.
      destruct (nth_error a mid) as [x|] eqn:Ex.
      * destruct (lt x key) eqn:Elt.
        -- apply (IH (S mid) hi); try lia; [|exact Hge].
           intros i y Hi Ey. apply (Hm i mid y x); [lia | exact Ey | exact Ex | exact Elt].
        -- apply (IH lo mid); try lia; [exact Hlt|].
           intros i y Hi Ey. destruct (lt y key) eqn:Ey'; [|reflexivity].
           rewrite <- Elt. symmetry.
           apply (Hm mid i x y); [lia | exact Ex | exact Ey | exact Ey'].
      * apply nth_error_None in Ex. lia.
    + assert (lo = hi) as -> by lia. split; [exact Hhi|]. split; assumption.
Qed.

Lemma searchsorted_first_false lt a key :
  monotone_on (fun x => lt x key) a ->
  binsearch lt a key (length a) 0 (length a) = first_false (fun x => lt x key) a.
Proof.
  intros Hm. apply (prefix_true_unique (fun x => lt x key) a).
  - apply binsearch_prefix; try lia; try exact Hm.
    intros i x Hi E. assert (i < length a)%nat by (apply nth_error_Some; congruence).
    exfalso. lia.
  - apply first_false_prefix. exact Hm.
Qed.

Lemma sorted_nth a : StronglySorted Qcle a ->
  forall i j x y, (i <= j)%nat -> nth_error a i = Some x -> nth_error a j = Some y -> (x <= y)%Qc.
Proof.
  induction 1 as [|u a Ha IH Hu]; intros i j x y Hij Hx Hy.
  - destruct i; discriminate.
  - rewrite Forall_forall in Hu. destruct i as [|i], j as [|j]; simpl in *.
    + injection Hx as <-. injection Hy as <-. apply Qcle_refl.
    + injection Hx as <-. apply Hu. apply (nth_error_In _ _ Hy).
    + lia.
    + apply (IH i j); [lia | exact Hx | exact Hy].
Qed.

Lemma monotone_ltb a s : StronglySorted Qcle a -> monotone_on (fun x => Qc_ltb x s) a.
Proof.
  intros Ha i j x y Hij Hx Hy H. apply Qc_ltb_lt in H. apply Qc_ltb_lt.
  eapply Qcle_lt_trans; [apply (sorted_nth a Ha i j); eassumption | exact H].
Qed.

Lemma monotone_leb a s : StronglySorted Qcle a -> monotone_on (fun x => Qc_leb x s) a.
Proof.
  intros Ha i j x y Hij Hx Hy H. apply Qc_leb_le in H. apply Qc_leb_le.
  eapply Qcle_trans; [apply (sorted_nth a Ha i j); eassumption | exact H].
Qed.

Lemma removelast_sorted a : StronglySorted Qcle a -> StronglySorted Qcle (removelast a).
Proof.
  induction 1 as [|u a Ha IH Hu]; [constructor|].
  destruct a as [|v a]; [constructor|].
  change (removelast (u :: v :: a)) with (u :: removelast (v :: a)).
  constructor; [exact IH|]. rewrite Forall_forall in *. intros z Hz. apply Hu.
  clear - Hz. revert Hz. generalize (v :: a). intros l. induction l as [|w l IHl]; [intros []|].
  destruct l; [intros []|]. intros [->|H]; [left; reflexivity | right; apply IHl; exact H].
Qed.

(** * C2: the point estimate *)

Lemma Qc_ltb_negb x s : Qc_ltb x s = negb (Qc_leb s x).
Proof.
  destruct (Qc_ltb x s) eqn:E1, (Qc_leb s x) eqn:E2; try reflexivity.
  - apply Qc_ltb_lt in E1. apply Qc_leb_le in E2. exfalso. apply (Qclt_not_le _ _ E1 E2).
  - exfalso. destruct (Qclt_le_dec x s) as [H|H].
    + apply Qc_ltb_lt in H. congruence.
    + apply Qc_leb_le in H. congruence.
Qed.

Lemma first_index_ge_eq a s : first_index_ge a s = first_false (fun x => Qc_ltb x s) a.
Proof.
  induction a as [|x a IH]; [reflexivity|]. simpl. rewrite Qc_ltb_negb, IH.
  destruct (Qc_leb s x); reflexivity.
Qed.

Lemma rightmost_insertion_eq a s :
  rightmost_insertion a s = first_false (fun x => Qc_leb x s) a.
Proof.
  induction a as [|x a IH]; [reflexivity|]. simpl. rewrite IH.
  assert (Qc_leb x s = negb (Qc_ltb s x)) as ->.
  { rewrite Qc_ltb_negb, negb_involutive. reflexivity. }
  destruct (Qc_ltb s x); reflexivity.
Qed.

Lemma searchsorted_left_spec a s :
  StronglySorted Qcle a -> searchsorted_left a s = first_index_ge a s.
Proof.
  intros Ha. unfold searchsorted_left. rewrite first_index_ge_eq.
  apply searchsorted_first_false. apply monotone_ltb. exact Ha.
Qed.

Lemma searchsorted_right_spec a s :
  StronglySorted Qcle a -> searchsorted_right a s = rightmost_insertion a s.
Proof.
  intros Ha. unfold searchsorted_right. rewrite rightmost_insertion_eq.
  apply searchsorted_first_false. apply monotone_leb. exact Ha.
Qed.

Lemma first_false_le f a : (first_false f a <= length a)%nat.
Proof. induction a as [|x a IH]; simpl; [lia|]. destruct (f x); simpl; lia. Qed.

Lemma first_false_mono f g a :
  (forall x, f x = true -> g x = true) -> (first_false f a <= first_false g a)%nat.
Proof.
  intros H. induction a as [|x a IH]; simpl; [lia|].
  destruct (f x) eqn:E; [rewrite (H x E); lia | lia].
Qed.

Lemma first_false_removelast g a : (first_false g a <= S (first_false g (removelast a)))%nat.
Proof.
  induction a as [|x a IH]; [simpl; lia|].
  destruct a as [|y a]; [simpl; destruct (g x); lia|].
  change (removelast (x :: y :: a)) with (x :: removelast (y :: a)).
  simpl first_false at 1. simpl first_false at 2.
  destruct (g x); [|lia]. apply le_n_S. exact IH.
Qed.

Lemma removelast_length {A} (a : list A) : length (removelast a) = (length a - 1)%nat.
Proof.
  induction a as [|x a IH]; [reflexivity|]. destruct a as [|y a]; [reflexivity|].
  change (removelast (x :: y :: a)) with (x :: removelast (y :: a)).
  cbn [length] in *. rewrite IH. lia.
Qed.

Lemma index_bounds ue s :
  ue <> [] ->
  (lower_index ue s <= upper_index ue s)%nat /\
  (lower_index ue s <= length ue)%nat /\
  (1 <= upper_index ue s <= length ue)%nat.
Proof.
  intros Hne. unfold lower_index, upper_index.
  rewrite first_index_ge_eq, rightmost_insertion_eq.
  pose proof (first_false_le (fun x => Qc_ltb x s) ue).
  pose proof (first_false_le (fun x => Qc_leb x s) (removelast ue)) as H1.
  rewrite removelast_length in H1.
  pose proof (first_false_removelast (fun x => Qc_leb x s) ue).
  pose proof (first_false_mono (fun x => Qc_ltb x s) (fun x => Qc_leb x s) ue) as H2.
  assert (length ue <> 0)%nat by (destruct ue; simpl; congruence).
  split; [|lia]. etransitivity; [apply H2|apply first_false_removelast].
  intros x Hx. apply Qc_ltb_lt in Hx. apply Qc_leb_le. apply Qclt_le_weak. exact Hx.
Qed.

Lemma getitem_nth (f : list Q) i : (i < length f)%nat -> getitem f i = Ok (nth i f 0).
Proof. intros H. apply getitem_In. apply nth_error_nth'. exact H. Qed.

Section Fitted.

Variables (ue : list Qc) (vs ws : list Q).
Hypothesis Hf : fitted_facts ue vs ws.
Hypothesis Hne : ue <> [].

Let m := IVAP.mk true (Some (length ue)) (Some (0 :: vs)) (Some (0 :: ws)) (Some ue).

Lemma gather_F0 tests :
  take_idx (0 :: ws) (map (searchsorted_left ue) tests)
  = Ok (map (fun s => nth (lower_index ue s) (0 :: ws) 0) tests).
Proof.
  unfold take_idx. rewrite mapM_map. apply mapM_ok. intros s _.
  rewrite (searchsorted_left_spec ue s (ff_sorted _ _ _ Hf)).
  apply getitem_nth. destruct (index_bounds ue s Hne) as (_ & H & _).
  change (first_index_ge ue s) with (lower_index ue s).
  simpl length. rewrite (ff_len0 _ _ _ Hf). lia.
Qed.

Lemma gather_F1 tests :
  take_idx (0 :: vs) (map (fun s => searchsorted_right (removelast ue) s + 1)%nat tests)
  = Ok (map (fun s => nth (upper_index ue s) (0 :: vs) 0) tests).
Proof.
  unfold take_idx. rewrite mapM_map. apply mapM_ok. intros s _.
  rewrite (searchsorted_right_spec _ s (removelast_sorted _ (ff_sorted _ _ _ Hf))).
  rewrite Nat.add_1_r. change (S (rightmost_insertion (removelast ue) s)) with (upper_index ue s).
  apply getitem_nth. destruct (index_bounds ue s Hne) as (_ & _ & H).
  simpl length. rewrite (ff_len1 _ _ _ Hf). lia.
Qed.

Lemma predict_intervall_eq tests :
  IVAP.predict_intervall m tests = Ok (map (interval_of ue (0 :: ws) (0 :: vs)) tests).
Proof.
  unfold IVAP.predict_intervall. simpl IVAP.getattr. cbn [bind].
  rewrite gather_F0. cbn [bind]. rewrite gather_F1. cbn [bind].
  rewrite combine_map_same. reflexivity.
Qed.

Lemma predict_proba_eq tests :
  IVAP.predict_proba m tests
  = Ok (map (fun s => IVAP.merge (fst (interval_of ue (0 :: ws) (0 :: vs) s))
                                 (snd (interval_of ue (0 :: ws) (0 :: vs) s))) tests).
Proof.
  unfold IVAP.predict_proba. simpl negb. cbv iota. simpl IVAP.getattr. cbn [bind].
  rewrite gather_F0. cbn [bind]. rewrite gather_F1. cbn [bind].
  rewrite combine_map_same, map_map. reflexivity.
Qed.

Lemma interval_bounds s :
  let iv := interval_of ue (0 :: ws) (0 :: vs) s in
  0 <= fst iv /\ fst iv < 1 /\ fst iv <= snd iv /\ 0 < snd iv /\ snd iv <= 1.
Proof.
  cbv zeta. unfold interval_of. cbn [fst snd].
  destruct (index_bounds ue s Hne) as (Hlu & Hl & Hu1 & Hu2).
  set (lo := lower_index ue s) in *. set (up := upper_index ue s) in *. clearbody lo up.
  destruct up as [|u]; [lia|]. simpl (nth (S u) (0 :: vs) 0).
  assert (nth_error vs u = Some (nth u vs 0)) as Eu
      by (apply nth_error_nth'; rewrite (ff_len1 _ _ _ Hf); lia).
  destruct (ff_b1 _ _ _ Hf u _ Eu) as [Hp1 Hp1'].
  assert (nth lo (0 :: ws) 0 <= nth u vs 0) as Hle.
  { assert (nth_error (0 :: ws) lo = Some (nth lo (0 :: ws) 0)) as E0
        by (apply nth_error_nth'; simpl; rewrite (ff_len0 _ _ _ Hf); lia).
    assert (nth_error (0 :: vs) lo = Some (nth lo (0 :: vs) 0)) as E1
        by (apply nth_error_nth'; simpl; rewrite (ff_len1 _ _ _ Hf); lia).
    apply Qle_trans with (nth lo (0 :: vs) 0).
    - apply (facts_pointwise ue vs ws Hf lo); assumption.
    - apply (nondec_nth (0 :: vs) (ff_nd1 _ _ _ Hf) lo (S u)); [lia | exact E1 | exact Eu]. }
  assert (0 <= nth lo (0 :: ws) 0 /\ nth lo (0 :: ws) 0 < 1) as [H0 H1].
  { destruct lo as [|l]; [simpl; lra|]. simpl.
    apply (ff_b0 _ _ _ Hf l). apply nth_error_nth'. rewrite (ff_len0 _ _ _ Hf). lia. }
  repeat split; assumption.
Qed.

End Fitted.

Lemma merge_bounds p0 p1 :
  0 <= p0 -> p0 <= 1 -> p0 <= p1 ->
  0 < 1 - p0 + p1 /\ p0 <= IVAP.merge p0 p1 /\ IVAP.merge p0 p1 <= p1.
Proof.
  intros H0 H1 H01. assert (0 < 1 - p0 + p1) as HD by lra.
  split; [exact HD|]. unfold IVAP.merge. split.
  - apply Qle_shift_div_l; [exact HD|]. nra.
  - apply Qle_shift_div_r; [exact HD|]. nra.
Qed.

Lemma fit_Ok_inv self y scores m :
  IVAP.fit self y scores = Ok m ->
  length y = length scores /\ (n_unique_labels y <= 2)%nat.
Proof.
  intros E. destruct (Nat.le_gt_cases (n_unique_labels y) 2) as [Hn|Hn].
  - split; [|exact Hn]. destruct (Nat.eq_dec (length y) (length scores)) as [H|H]; [exact H|].
    exfalso. unfold IVAP.fit in E.
    destruct (Nat.leb_spec (n_unique_labels y) 2) as [_|H']; [|lia]. simpl negb in E.
    cbv iota zeta in E. unfold np_lexsort in E. rewrite binarize_length in E.
    destruct (Nat.eqb_spec (length y) (length scores)); [contradiction|]. discriminate.
  - rewrite (fit_assert self y scores Hn) in E. discriminate.
Qed.

Lemma fit_Ok_facts self y scores m :
  IVAP.fit self y scores = Ok m -> y <> [] ->
  exists ue vs ws,
    m = IVAP.mk true (Some (length ue)) (Some (0 :: vs)) (Some (0 :: ws)) (Some ue) /\
    fitted_facts ue vs ws /\ ue <> [].
Proof.
  intros E Hy. destruct (fit_Ok_inv self y scores m E) as [HL Hn].
  destruct (fit_facts self y scores HL Hn) as (ue & vs & ws & E' & Hf & Hne).
  exists ue, vs, ws. rewrite E' in E. injection E as <-. auto.
Qed.

(** C2. On an IVAP fitted on a non-empty calibration set, [predict_proba]
    returns, for every test score [s], [F1[upper] / (1 - F0[lower] + F1[upper])]
    where [lower] is the first index whose unique score is [>= s] and [upper]
    is one plus the rightmost insertion index of [s] into the unique scores
    without the last one; both indices are valid and the divisor is
    positive. *)
Theorem ivap_predict_proba_formula (self : IVAP.t) (y : list Z) (scores : list Qc)
        (m : IVAP.t) (tests : list Qc) :
  IVAP.fit self y scores = Ok m -> y <> [] ->
  exists ue f0 f1,
    IVAP.unique_elements m = Some ue /\ IVAP.F0 m = Some f0 /\ IVAP.F1 m = Some f1 /\
    IVAP.predict_proba m tests
    = Ok (map (fun s => let p0 := nth (lower_index ue s) f0 0 in
                        let p1 := nth (upper_index ue s) f1 0 in
                        p1 / (1 - p0 + p1)) tests) /\
    forall s, (lower_index ue s < length f0)%nat /\ (upper_index ue s < length f1)%nat /\
              0 < 1 - nth (lower_index ue s) f0 0 + nth (upper_index ue s) f1 0.
Proof.
  intros E Hy. destruct (fit_Ok_facts self y scores m E Hy) as (ue & vs & ws & -> & Hf & Hne).
  exists ue, (0 :: ws), (0 :: vs).
  split; [reflexivity|]. split; [reflexivity|]. split; [reflexivity|]. split.
  - rewrite (predict_proba_eq ue vs ws Hf Hne). reflexivity.
  - intros s. destruct (index_bounds ue s Hne) as (_ & Hl & Hu).
    split; [simpl; rewrite (ff_len0 _ _ _ Hf); lia|].
    split; [simpl; rewrite (ff_len1 _ _ _ Hf); lia|].
    destruct (interval_bounds ue vs ws Hf Hne s) as (H0 & H1 & H01 & _).
    unfold interval_of in *. cbn [fst snd] in *. lra.
Qed.

Lemma example_ivap_fit : IVAP.fit IVAP.init example_labels example_scores = Ok example_ivap.
Proof. vm_compute. reflexivity. Qed.

Lemma ivap_predict_proba_formula_witness :
  exists ue f0 f1,
    IVAP.unique_elements example_ivap = Some ue /\
    IVAP.F0 example_ivap = Some f0 /\ IVAP.F1 example_ivap = Some f1 /\
    IVAP.predict_proba example_ivap [qc 2 10]
    = Ok (map (fun s => let p0 := nth (lower_index ue s) f0 0 in
                        let p1 := nth (upper_index ue s) f1 0 in
                        p1 / (1 - p0 + p1)) [qc 2 10]) /\
    forall s, (lower_index ue s < length f0)%nat /\ (upper_index ue s < length f1)%nat /\
              0 < 1 - nth (lower_index ue s) f0 0 + nth (upper_index ue s) f1 0.
Proof.
  apply (ivap_predict_proba_formula IVAP.init example_labels example_scores).
  - exact example_ivap_fit.
  - discriminate.
Defined.

(** * C3: the point estimate lies in the interval *)

(** C3 (amended). In exact arithmetic, on an IVAP fitted on a non-empty
    calibration set, [predict_proba] and [predict_intervall] both return,
    and the probability of every test score lies between the [p0] and the
    [p1] returned for that score. *)
Theorem ivap_interval_contains (self : IVAP.t) (y : list Z) (scores : list Qc)
        (m : IVAP.t) (tests : list Qc) :
  IVAP.fit self y scores = Ok m -> y <> [] ->
  exists ps ivs,
    IVAP.predict_proba m tests = Ok ps /\
    IVAP.predict_intervall m tests = Ok ivs /\
    length ps = length tests /\
    Forall2 (fun p iv => fst iv <= p /\ p <= snd iv) ps ivs.
Proof.
  intros E Hy. destruct (fit_Ok_facts self y scores m E Hy) as (ue & vs & ws & -> & Hf & Hne).
  eexists. eexists.
  split; [apply (predict_proba_eq ue vs ws Hf Hne)|].
  split; [apply (predict_intervall_eq ue vs ws Hf Hne)|].
  split; [apply length_map|].
  induction tests as [|s tests IH]; simpl; constructor; [|exact IH].
  destruct (interval_bounds ue vs ws Hf Hne s) as (H0 & H1 & H01 & _).
  destruct (merge_bounds _ _ H0 (Qlt_le_weak _ _ H1) H01) as (_ & Ha & Hb).
  split; assumption.
Qed.

Lemma ivap_interval_contains_witness :
  exists ps ivs,
    IVAP.predict_proba example_ivap [qc 5 100; qc 2 10; qc 1 1] = Ok ps /\
    IVAP.predict_intervall example_ivap [qc 5 100; qc 2 10; qc 1 1] = Ok ivs /\
    length ps = 3%nat /\
    Forall2 (fun p iv => fst iv <= p /\ p <= snd iv) ps ivs.
Proof.
  apply (ivap_interval_contains IVAP.init example_labels example_scores).
  - exact example_ivap_fit.
  - discriminate.
Defined.

(** * C4: order independence *)

Lemma map_snd_combine {A B} (a : list A) (b : list B) :
  length a = length b -> map snd (combine a b) = b.
Proof.
  revert b. induction a as [|x a IH]; intros [|y b] H; try discriminate; [reflexivity|].
  simpl. f_equal. apply IH. injection H as H. exact H.
Qed.

Lemma n_unique_labels_perm y y' : Permutation y y' -> n_unique_labels y = n_unique_labels y'.
Proof.
  intros Hp. unfold n_unique_labels. apply Permutation_length.
  apply NoDup_Permutation; try apply NoDup_nodup.
  intros x. rewrite !nodup_In. split; apply Permutation_in; [exact Hp | symmetry; exact Hp].
Qed.

Lemma combine_binarize scores y :
  combine scores (IVAP.binarize 1 y)
  = map (fun r : Qc * Z => (fst r, if (snd r =? 1)%Z then 1%Z else 0%Z)) (combine scores y).
Proof.
  revert y. induction scores as [|s scores IH]; intros [|l y]; try reflexivity.
  simpl. f_equal. apply IH.
Qed.

(** C4. Fitting on a permutation of the (score, label) pairs gives the same
    result: the same [F0], [F1] and unique scores, or the same failure. *)
Theorem ivap_fit_order_independent (self : IVAP.t) (y y' : list Z) (scores scores' : list Qc) :
  length y = length scores -> length y' = length scores' ->
  Permutation (combine scores y) (combine scores' y') ->
  IVAP.fit self y scores = IVAP.fit self y' scores'.
Proof.
  intros HL HL' Hp.
  assert (Permutation y y') as Hy.
  { rewrite <- (map_snd_combine scores y), <- (map_snd_combine scores' y') by congruence.
    apply Permutation_map. exact Hp. }
  pose proof (n_unique_labels_perm y y' Hy) as Hn.
  destruct (Nat.le_gt_cases (n_unique_labels y) 2) as [H|H].
  - rewrite (fit_eq self y scores HL H), (fit_eq self y' scores' HL') by lia.
    rewrite (sorted_rows_perm_eq (IVAP.binarize 1 y) scores (IVAP.binarize 1 y') scores').
    + reflexivity.
    + rewrite !combine_binarize. apply Permutation_map. exact Hp.
  - rewrite !fit_assert by lia. reflexivity.
Qed.

Lemma ivap_fit_order_independent_witness :
  IVAP.fit IVAP.init [0; 0; 1; 1]%Z [qc 1 10; qc 2 10; qc 2 10; qc 9 10]
  = IVAP.fit IVAP.init [1; 0; 1; 0]%Z [qc 9 10; qc 2 10; qc 2 10; qc 1 10].
Proof.
  apply ivap_fit_order_independent; [reflexivity | reflexivity |].
  simpl. apply Permutation_sym.
  apply Permutation_trans with
    ([(qc 2 10, 0%Z); (qc 2 10, 1%Z); (qc 1 10, 0%Z)] ++ [(qc 9 10, 1%Z)]).
  - apply (Permutation_cons_append [(qc 2 10, 0%Z); (qc 2 10, 1%Z); (qc 1 10, 0%Z)]).
  - simpl. apply Permutation_sym.
    apply Permutation_trans with ((qc 1 10, 0%Z) :: [(qc 2 10, 0%Z); (qc 2 10, 1%Z)] ++ [(qc 9 10, 1%Z)]).
    + reflexivity.
    + apply (Permutation_middle [(qc 2 10, 0%Z); (qc 2 10, 1%Z)] [(qc 9 10, 1%Z)]).
Defined.

(** * C8: validation of the labels *)



(** * The cross Venn-Abers predictor *)

Lemma take_idx_incl {A} (a : list A) idx r : take_idx a idx = Ok r -> incl r a.
Proof.
  unfold take_idx. revert r. induction idx as [|i idx IH]; intros r H.
  - injection H as <-. intros x [].
  - simpl in H. unfold getitem in H at 1. destruct (nth_error a i) as [x|] eqn:E; [|discriminate].
    cbn [bind] in H. destruct (mapM (getitem a) idx) as [r'|] eqn:E'; [|discriminate].
    cbn [bind] in H. injection H as <-. intros z [<-|Hz].
    + apply (nth_error_In _ _ E).
    + apply (IH r' eq_refl). exact Hz.
Qed.

Lemma n_unique_labels_incl y y' : incl y y' -> (n_unique_labels y <= n_unique_labels y')%nat.
Proof.
  intros H. unfold n_unique_labels. apply NoDup_incl_length; [apply NoDup_nodup|].
  intros x Hx. apply nodup_In. apply H. apply nodup_In in Hx. exact Hx.
Qed.

Lemma mapM_In {A B} (f : A -> result B) l r b :
  mapM f l = Ok r -> In b r -> exists a, In a l /\ f a = Ok b.
Proof.
  revert r. induction l as [|a l IH]; intros r H Hb.
  - injection H as <-. destruct Hb.
  - simpl in H. destruct (f a) as [b0|] eqn:E; [|discriminate]. cbn [bind] in H.
    destruct (mapM f l) as [r'|] eqn:E'; [|discriminate]. cbn [bind] in H.
    injection H as <-. destruct Hb as [<-|Hb].
    + exists a. split; [left; reflexivity | exact E].
    + destruct (IH r' eq_refl Hb) as (a' & Ha & Ea). exists a'. split; [right; exact Ha | exact Ea].
Qed.

Section CVAPFacts.

Variable Row : Type.
Variable stratified_kfold : nat -> list Row -> list Z -> result (list (list nat * list nat)).
Variable estimator_scores : list Row -> list Z -> list Row -> result (list Qc).

Lemma create_n_splits_labels X y n sp :
  CVAP.create_n_splits stratified_kfold X y n = Ok sp ->
  length (snd sp) = length (fst sp) /\
  forall sy, In sy (snd sp) -> incl (fst sy) y /\ incl (snd sy) y.
Proof.
  unfold CVAP.create_n_splits. intros H.
  destruct (stratified_kfold n X y) as [idx|]; [|discriminate]. cbn [bind] in H.
  match type of H with bind (mapM ?f idx) _ = _ => destruct (mapM f idx) as [l|] eqn:E end;
    [|discriminate].
  cbn [bind] in H. injection H as <-. simpl. split; [rewrite !length_map; reflexivity|].
  intros sy Hsy. apply in_map_iff in Hsy. destruct Hsy as ([sx sy'] & <- & Hin).
  destruct (mapM_In _ _ _ _ E Hin) as ([tr cal] & _ & Ef).
  destruct (take_idx X tr); [|discriminate]. cbn [bind] in Ef.
  destruct (take_idx X cal); [|discriminate]. cbn [bind] in Ef.
  destruct (take_idx y tr) as [ytr|] eqn:E1; [|discriminate]. cbn [bind] in Ef.
  destruct (take_idx y cal) as [ycal|] eqn:E2; [|discriminate]. cbn [bind] in Ef.
  injection Ef as <- <-. simpl.
  split; eapply take_idx_incl; eassumption.
Qed.

Variable sp : CVAP.splits Row.
Hypothesis Hlen : length (snd sp) = length (fst sp).
Hypothesis Hlabels : forall sy, In sy (snd sp) -> (n_unique_labels (snd sy) <= 2)%nat.
Hypothesis Hest :
  forall i sx sy, nth_error (fst sp) i = Some sx -> nth_error (snd sp) i = Some sy ->
                  usable sy = true ->
                  exists cs, estimator_scores (fst sx) (fst sy) (snd sx) = Ok cs /\
                             length cs = length (snd sy).

Lemma fit_loop_spec range :
  forall log acc,
    (forall i, In i range -> (i < length (fst sp))%nat) ->
    exists ivs,
      CVAP.fit_loop estimator_scores sp range log acc
      = (log ++ map (event_of Row sp) range, Ok (acc ++ ivs)) /\
      length ivs = length (filter (usable_at Row sp) range).
Proof.
  induction range as [|i range IH]; intros log acc Hr.
  - exists []. simpl. rewrite !app_nil_r. auto.
  - assert (i < length (fst sp))%nat as Hi by (apply Hr; left; reflexivity).
    destruct (nth_error (fst sp) i) as [[X_train X_cal]|] eqn:Ex;
      [|apply nth_error_None in Ex; lia].
    destruct (nth_error (snd sp) i) as [[y_train y_cal]|] eqn:Ey;
      [|apply nth_error_None in Ey; lia].
    simpl CVAP.fit_loop. unfold getitem. rewrite Ex, Ey. cbn [bind].
    assert (usable_at Row sp i
            = negb ((n_unique_labels y_train <? 2)%nat || (n_unique_labels y_cal <? 2)%nat))
      as Hu by (unfold usable_at; rewrite Ey; reflexivity).
    simpl map. simpl filter. unfold event_of at 1. rewrite Hu.
    destruct ((n_unique_labels y_train <? 2)%nat || (n_unique_labels y_cal <? 2)%nat) eqn:Eu.
    + simpl negb. cbv iota.
      destruct (IH (log ++ [CVAP.SkipSplit i]) acc) as (ivs & E & Hl).
      { intros j Hj. apply Hr. right. exact Hj. }
      exists ivs. rewrite E. rewrite <- app_assoc. auto.
    + simpl negb. cbv iota.
      destruct (Hest i _ _ Ex Ey) as (cs & Ecs & Hcs).
      { unfold usable. simpl. rewrite Eu. reflexivity. }
      simpl in Ecs, Hcs. rewrite Ecs. cbn [bind].
      destruct (fit_facts IVAP.init y_cal cs) as (ue & vs & ws & Efit & _).
      { symmetry. exact Hcs. }
      { apply (Hlabels (y_train, y_cal)). apply (nth_error_In _ _ Ey). }
      rewrite Efit.
      destruct (IH (log ++ [CVAP.TrainModel i])
                   (acc ++ [IVAP.mk true (Some (length ue)) (Some (0 :: vs))
                                    (Some (0 :: ws)) (Some ue)]))
        as (ivs & E & Hl).
      { intros j Hj. apply Hr. right. exact Hj. }
      eexists (_ :: ivs). rewrite E. rewrite <- !app_assoc. simpl.
      split; [reflexivity|]. rewrite Hl. reflexivity.
Qed.

Lemma fit_loop_stored range :
  forall log acc,
    (forall i, In i range -> (i < length (fst sp))%nat) ->
    exists ivs,
      CVAP.fit_loop estimator_scores sp range log acc
      = (log ++ map (event_of Row sp) range, Ok (acc ++ ivs)) /\
      Forall2 (stored_for Row estimator_scores sp) (filter (usable_at Row sp) range) ivs.
Proof.
  induction range as [|i range IH]; intros log acc Hr.
  - exists []. simpl. rewrite !app_nil_r. split; [reflexivity | constructor].
  - assert (i < length (fst sp))%nat as Hi by (apply Hr; left; reflexivity).
    destruct (nth_error (fst sp) i) as [[X_train X_cal]|] eqn:Ex;
      [|apply nth_error_None in Ex; lia].
    destruct (nth_error (snd sp) i) as [[y_train y_cal]|] eqn:Ey;
      [|apply nth_error_None in Ey; lia].
    simpl CVAP.fit_loop. unfold getitem. rewrite Ex, Ey. cbn [bind].
    assert (usable_at Row sp i
            = negb ((n_unique_labels y_train <? 2)%nat || (n_unique_labels y_cal <? 2)%nat))
      as Hu by (unfold usable_at; rewrite Ey; reflexivity).
    simpl map. simpl filter. unfold event_of at 1. rewrite Hu.
    destruct ((n_unique_labels y_train <? 2)%nat || (n_unique_labels y_cal <? 2)%nat) eqn:Eu.
    + simpl negb. cbv iota.
      destruct (IH (log ++ [CVAP.SkipSplit i]) acc) as (ivs & E & Hl).
      { intros j Hj. apply Hr. right. exact Hj. }
      exists ivs. rewrite E. rewrite <- app_assoc. auto.
    + simpl negb. cbv iota.
      destruct (Hest i _ _ Ex Ey) as (cs & Ecs & Hcs).
      { unfold usable. simpl. rewrite Eu. reflexivity. }
      simpl in Ecs, Hcs. rewrite Ecs. cbn [bind].
      destruct (fit_facts IVAP.init y_cal cs) as (ue & vs & ws & Efit & _).
      { symmetry. exact Hcs. }
      { apply (Hlabels (y_train, y_cal)). apply (nth_error_In _ _ Ey). }
      rewrite Efit.
      destruct (IH (log ++ [CVAP.TrainModel i])
                   (acc ++ [IVAP.mk true (Some (length ue)) (Some (0 :: vs))
                                    (Some (0 :: ws)) (Some ue)]))
        as (ivs & E & Hl).
      { intros j Hj. apply Hr. right. exact Hj. }
      eexists (_ :: ivs). rewrite E. rewrite <- !app_assoc. simpl.
      split; [reflexivity|]. constructor; [|exact Hl].
      exists X_train, X_cal, y_train, y_cal, cs. auto.
Qed.

End CVAPFacts.

(** * C6: skipped folds *)

(** C6 (amended). When the labels have exactly two distinct values, the
    splitter yields [n_folds] splits and the estimator scores every row of
    a usable calibration split, [fit] skips every fold whose training or
    calibration labels have fewer than two distinct values and, for every
    other fold, fits an IVAP on the calibration labels and scores of that
    fold and stores it; the stored IVAPs are those of the usable folds, in
    fold order, and [fit] completes, also when no fold is usable. *)
Theorem cvap_fit_skips_unusable_folds (Row : Type)
        (stratified_kfold : nat -> list Row -> list Z -> result (list (list nat * list nat)))
        (estimator_scores : list Row -> list Z -> list Row -> result (list Qc))
        (self : CVAP.t) (y : list Z) (scores : list Qc) (X : list Row) (sp : CVAP.splits Row) :
  n_unique_labels y = 2%nat ->
  CVAP.create_n_splits stratified_kfold X y (CVAP.n_folds self) = Ok sp ->
  length (fst sp) = CVAP.n_folds self ->
  (forall i sx sy, nth_error (fst sp) i = Some sx -> nth_error (snd sp) i = Some sy ->
                   usable sy = true ->
                   exists cs, estimator_scores (fst sx) (fst sy) (snd sx) = Ok cs /\
                              length cs = length (snd sy)) ->
  exists ivs,
    CVAP.fit stratified_kfold estimator_scores self y scores X
    = (CVAP.CreateSplits :: map (event_of Row sp) (seq 0 (CVAP.n_folds self)),
       Ok (CVAP.mk true (CVAP.n_folds self) (Some ivs))) /\
    Forall2 (stored_for Row estimator_scores sp)
            (filter (usable_at Row sp) (seq 0 (CVAP.n_folds self))) ivs /\
    length ivs = length (filter (usable_at Row sp) (seq 0 (CVAP.n_folds self))).
Proof.
  intros Hn Hsp Hlen Hest. unfold CVAP.fit. rewrite Hn. simpl negb. cbv iota. rewrite Hsp.
  destruct (create_n_splits_labels Row stratified_kfold X y _ sp Hsp) as [Hl Hincl].
  destruct (fit_loop_stored Row estimator_scores sp Hl) with
      (range := seq 0 (CVAP.n_folds self)) (log := [CVAP.CreateSplits]) (acc := @nil IVAP.t)
    as (ivs & E & Hivs).
  - intros sy Hsy. rewrite <- Hn. apply n_unique_labels_incl. apply (Hincl sy Hsy).
  - exact Hest.
  - intros i Hi. apply in_seq in Hi. lia.
  - exists ivs. rewrite E. simpl. split; [reflexivity|]. split; [exact Hivs|].
    symmetry. apply (Forall2_length Hivs).
Qed.

Lemma rare_splits_unusable i : usable_at nat rare_splits i = false.
Proof.
  do 5 (destruct i as [|i]; [reflexivity|]). unfold usable_at. simpl.
  destruct i; reflexivity.
Qed.

Lemma cvap_fit_skips_unusable_folds_witness :
  exists ivs,
    CVAP.fit balanced_kfold half_scores (CVAP.init 2) balanced_labels [] (seq 0 4)
    = (CVAP.CreateSplits :: map (event_of nat balanced_splits) (seq 0 2),
       Ok (CVAP.mk true 2 (Some ivs))) /\
    Forall2 (stored_for nat half_scores balanced_splits)
            (filter (usable_at nat balanced_splits) (seq 0 2)) ivs /\
    length ivs = length (filter (usable_at nat balanced_splits) (seq 0 2)).
Proof.
  apply (cvap_fit_skips_unusable_folds nat balanced_kfold half_scores (CVAP.init 2)
           balanced_labels [] (seq 0 4) balanced_splits).
  - vm_compute. reflexivity.
  - vm_compute. reflexivity.
  - reflexivity.
  - intros i sx sy Hx Hy _. unfold half_scores. eexists. split; [reflexivity|].
    rewrite length_map.
    destruct i as [|[|i]]; simpl in Hx, Hy.
    + injection Hx as <-. injection Hy as <-. reflexivity.
    + injection Hx as <-. injection Hy as <-. reflexivity.
    + destruct i; discriminate.
Defined.

(** C6 as stated fails: no fold of [rare_labels] is usable and [fit]
    completes. *)
Lemma cvap_fit_zero_folds_completes :
  ~ fit_fails_iff_no_usable_fold
      (CVAP.fit rare_kfold half_scores (CVAP.init 5) rare_labels [] rare_rows)
      rare_splits 5.
Proof.
  intros [_ H]. destruct H as [e He].
  - intros i _. apply rare_splits_unusable.
  - vm_compute in He. discriminate.
Qed.

(** * C10: the label assertion of the cross predictor *)

(** C10. [CVAP.fit] fails on its assertion, before [create_n_splits] is
    called (the log is empty), whenever the labels do not have exactly two
    distinct values; [IVAP.fit] succeeds on labels with one distinct
    value. *)
Theorem cvap_fit_requires_two_labels (Row : Type)
        (stratified_kfold : nat -> list Row -> list Z -> result (list (list nat * list nat)))
        (estimator_scores : list Row -> list Z -> list Row -> result (list Qc))
        (self : CVAP.t) (ivap : IVAP.t) (y : list Z) (scores : list Qc) (X : list Row) :
  (n_unique_labels y <> 2%nat ->
   CVAP.fit stratified_kfold estimator_scores self y scores X = ([], Raise AssertionError)) /\
  (n_unique_labels y = 1%nat -> length y = length scores ->
   exists m, IVAP.fit ivap y scores = Ok m).
Proof.
  split.
  - intros H. unfold CVAP.fit. destruct (Nat.eqb_spec (n_unique_labels y) 2); [contradiction|].
    reflexivity.
  - intros H HL. destruct (fit_facts ivap y scores HL) as (ue & vs & ws & E & _); [lia|].
    eexists. exact E.
Qed.

Lemma cvap_fit_requires_two_labels_witness :
  CVAP.fit rare_kfold half_scores (CVAP.init 5) [1; 1; 1]%Z [] [0; 1; 2]%nat
  = ([], Raise AssertionError) /\
  exists m, IVAP.fit IVAP.init [1; 1; 1]%Z [qc 1 10; qc 2 10; qc 3 10] = Ok m.
Proof.
  split.
  - apply (cvap_fit_requires_two_labels nat rare_kfold half_scores (CVAP.init 5) IVAP.init
             [1; 1; 1]%Z [] [0; 1; 2]%nat).
    vm_compute. discriminate.
  - apply (cvap_fit_requires_two_labels nat rare_kfold half_scores (CVAP.init 5) IVAP.init
             [1; 1; 1]%Z [qc 1 10; qc 2 10; qc 3 10] [0; 1; 2]%nat).
    + vm_compute. reflexivity.
    + reflexivity.
Defined.

(** * C7: calls before [fit] *)

Lemma ivap_predict_proba_unfitted self tests :
  IVAP.fitted self = false -> IVAP.predict_proba self tests = Raise NotFittedError.
Proof. intros H. unfold IVAP.predict_proba. rewrite H. reflexivity. Qed.

Lemma cvap_predict_proba_unfitted gmean self tests :
  CVAP.fitted self = false -> CVAP.predict_proba gmean self tests = Raise NotFittedError.
Proof. intros H. unfold CVAP.predict_proba. rewrite H. reflexivity. Qed.

(** C7 holds for [predict_proba] of both calibrators and fails for
    [predict_intervall]: on an instance that was never fitted it raises
    AttributeError, not NotFittedError. *)
Theorem ivap_predict_intervall_unfitted (tests : list Qc) :
  IVAP.predict_intervall IVAP.init tests = Raise AttributeError /\
  IVAP.predict_proba IVAP.init tests = Raise NotFittedError /\
  forall (gmean : list Q -> Q) (n_folds : nat),
    CVAP.predict_proba gmean (CVAP.init n_folds) tests = Raise NotFittedError.
Proof. split; [|split]; reflexivity. Qed.

(** * C5: fusion of the folds *)

Lemma well_fitted_intervall c tests :
  well_fitted c -> IVAP.predict_intervall c tests = Ok (map (ivap_interval c) tests).
Proof.
  intros (ue & vs & ws & -> & Hf & Hne). apply (predict_intervall_eq ue vs ws Hf Hne).
Qed.

Lemma map_seq_nth {A B} (H : A -> B) (l : list A) (d : A) :
  map (fun j => H (nth j l d)) (seq 0 (length l)) = map H l.
Proof.
  assert (forall pre, map (fun j => H (nth j (pre ++ l) d)) (seq (length pre) (length l))
                      = map H l) as G.
  { induction l as [|a l IH]; intros pre; [reflexivity|].
    simpl. rewrite app_nth2, Nat.sub_diag by lia. simpl. f_equal.
    replace (pre ++ a :: l) with ((pre ++ [a]) ++ l) by (rewrite <- app_assoc; reflexivity).
    replace (S (length pre)) with (length (pre ++ [a])) by (rewrite length_app; simpl; lia).
    apply IH. }
  apply (G []).
Qed.

Lemma nth_map_in {A} (g : A -> Q) (l : list A) (d : A) j :
  (j < length l)%nat -> nth j (map g l) 0 = g (nth j l d).
Proof.
  intros H. rewrite (nth_indep _ 0 (g d)) by (rewrite length_map; exact H). apply map_nth.
Qed.

Lemma gmean_axis0_cols {A} gmean (g : A -> Qc -> Q) (l : list A) (tests : list Qc) :
  l <> [] ->
  CVAP.gmean_axis0 gmean (map (fun c => map (g c) tests) l)
  = map (fun s => gmean (map (fun c => g c s) l)) tests.
Proof.
  intros Hl. unfold CVAP.gmean_axis0.
  assert (length (hd [] (map (fun c => map (g c) tests) l)) = length tests) as ->
      by (destruct l; [congruence | simpl; apply length_map]).
  destruct tests as [|d tests']; [reflexivity|]. set (tests := d :: tests').
  rewrite <- (map_seq_nth (fun s => gmean (map (fun c => g c s) l)) tests d).
  apply map_ext_in. intros j Hj. apply in_seq in Hj. f_equal.
  rewrite map_map. apply map_ext. intros c. apply nth_map_in. lia.
Qed.

Lemma axis2_ok {A} (c : Q * Q -> A) (res : list (list (Q * Q))) :
  (forall row, In row res -> row <> []) -> CVAP.axis2 c res = Ok (map (map c) res).
Proof.
  intros H. unfold CVAP.axis2.
  destruct (existsb (fun row => (length row =? 0)%nat) res) eqn:E; [|reflexivity].
  apply existsb_exists in E. destruct E as (row & Hin & Hrow).
  apply Nat.eqb_eq in Hrow. apply length_zero_iff_nil in Hrow. exfalso. apply (H row Hin Hrow).
Qed.

(** The first half of C5, for a non-empty vector of test scores. *)
Lemma cvap_predict_proba_fused gmean self l tests :
  CVAP.fitted self = true -> CVAP.ivaps self = Some l -> Forall well_fitted l ->
  l <> [] -> tests <> [] ->
  CVAP.predict_proba gmean self tests = Ok (map (fused gmean l) tests).
Proof.
  intros Hfit Hiv Hwf Hl Ht. unfold CVAP.predict_proba. rewrite Hfit, Hiv. simpl negb.
  cbv iota. simpl IVAP.getattr. cbn [bind].
  rewrite (mapM_ok _ (fun c => map (ivap_interval c) tests)).
  2:{ intros c Hc. apply well_fitted_intervall. rewrite Forall_forall in Hwf. apply Hwf. exact Hc. }
  cbn [bind]. rewrite length_map.
  destruct (Nat.eqb_spec (length l) 0) as [E|_]; [apply length_zero_iff_nil in E; contradiction|].
  assert (forall row, In row (map (fun c => map (ivap_interval c) tests) l) -> row <> []) as Hrows.
  { intros row Hrow. apply in_map_iff in Hrow. destruct Hrow as (c & <- & _).
    destruct tests; [congruence | discriminate]. }
  rewrite !axis2_ok by exact Hrows. cbn [bind].
  rewrite !map_map.
  rewrite (map_ext (fun c => map snd (map (ivap_interval c) tests))
                   (fun c => map (fun s => snd (ivap_interval c s)) tests))
    by (intros c; apply map_map).
  rewrite (map_ext (fun c => map (fun p => 1 - p) (map fst (map (ivap_interval c) tests)))
                   (fun c => map (fun s => 1 - fst (ivap_interval c s)) tests))
    by (intros c; rewrite !map_map; reflexivity).
  rewrite (gmean_axis0_cols gmean (fun c s => snd (ivap_interval c s)) l tests Hl).
  rewrite (gmean_axis0_cols gmean (fun c s => 1 - fst (ivap_interval c s)) l tests Hl).
  rewrite combine_map_same, map_map. reflexivity.
Qed.

(** The second half of C5: without any retained fold the result is a vector
    of zeros of the length of the input. *)
Lemma cvap_predict_proba_no_fold gmean n tests :
  CVAP.predict_proba gmean (CVAP.mk true n (Some [])) tests = Ok (repeat 0 (length tests)).
Proof. reflexivity. Qed.

Section CVAPFitted.

Variable Row : Type.
Variable estimator_scores : list Row -> list Z -> list Row -> result (list Qc).

Lemma fit_loop_well_fitted sp range :
  forall log acc log' l,
    Forall well_fitted acc ->
    CVAP.fit_loop estimator_scores sp range log acc = (log', Ok l) ->
    Forall well_fitted l.
Proof.
  induction range as [|i range IH]; intros log acc log' l Hacc H.
  - simpl in H. injection H as _ <-. exact Hacc.
  - simpl in H.
    destruct (getitem (fst sp) i) as [[X_train X_cal]|]; [|discriminate]. cbn [bind] in H.
    destruct (getitem (snd sp) i) as [[y_train y_cal]|]; [|discriminate]. cbn [bind] in H.
    destruct (n_unique_labels y_train <? 2)%nat eqn:E1; [apply (IH _ _ _ _ Hacc H)|].
    destruct (n_unique_labels y_cal <? 2)%nat eqn:E2; [apply (IH _ _ _ _ Hacc H)|].
    simpl orb in H. cbv iota in H.
    destruct (estimator_scores X_train y_train X_cal) as [cs|]; [|discriminate].
    cbn [bind] in H.
    destruct (IVAP.fit IVAP.init y_cal cs) as [c|] eqn:Efit; [|discriminate].
    refine (IH _ _ _ _ _ H).
    apply Forall_app. split; [exact Hacc|]. constructor; [|constructor].
    apply (fit_Ok_facts IVAP.init y_cal cs c Efit).
    intros ->. apply Nat.ltb_ge in E2. vm_compute in E2. lia.
Qed.

Lemma cvap_fit_well_fitted kfold self y scores X log m :
  CVAP.fit kfold estimator_scores self y scores X = (log, Ok m) ->
  CVAP.fitted m = true /\ exists l, CVAP.ivaps m = Some l /\ Forall well_fitted l.
Proof.
  unfold CVAP.fit. intros H.
  destruct (negb (n_unique_labels y =? 2)%nat); [discriminate|].
  destruct (CVAP.create_n_splits kfold X y (CVAP.n_folds self)) as [sp|]; [|discriminate].
  destruct (CVAP.fit_loop estimator_scores sp (seq 0 (CVAP.n_folds self)) [CVAP.CreateSplits] [])
    as [log0 [l|]] eqn:E; [|discriminate].
  injection H as _ <-. split; [reflexivity|]. exists l. split; [reflexivity|].
  apply (fit_loop_well_fitted sp _ _ _ _ _ (Forall_nil _) E).
Qed.

End CVAPFitted.

Lemma cvap_predict_proba_no_score gmean self l :
  CVAP.fitted self = true -> CVAP.ivaps self = Some l -> Forall well_fitted l -> l <> [] ->
  CVAP.predict_proba gmean self [] = Raise IndexError.
Proof.
  intros Hfit Hiv Hwf Hl. unfold CVAP.predict_proba. rewrite Hfit, Hiv. simpl negb.
  cbv iota. simpl IVAP.getattr. cbn [bind].
  rewrite (mapM_ok _ (fun c => map (ivap_interval c) [])).
  2:{ intros c Hc. apply well_fitted_intervall. rewrite Forall_forall in Hwf. apply Hwf. exact Hc. }
  cbn [bind]. rewrite length_map.
  destruct l as [|c l]; [congruence|]. reflexivity.
Qed.

(** C5. On a cross predictor returned by [fit], [predict_proba] returns the
    vector of zeros of the length of the input when no fold was retained and
    the fusion by geometric means of the intervals of the retained folds
    when the input has a score at least; with a retained fold and no score
    it raises IndexError instead of returning the empty vector. *)
Theorem cvap_predict_proba_empty_scores (Row : Type)
        (stratified_kfold : nat -> list Row -> list Z -> result (list (list nat * list nat)))
        (estimator_scores : list Row -> list Z -> list Row -> result (list Qc))
        (gmean : list Q -> Q)
        (self : CVAP.t) (y : list Z) (scores : list Qc) (X : list Row)
        (log : list CVAP.event) (m : CVAP.t) (tests : list Qc) :
  CVAP.fit stratified_kfold estimator_scores self y scores X = (log, Ok m) ->
  exists l,
    CVAP.ivaps m = Some l /\
    (l = [] -> CVAP.predict_proba gmean m tests = Ok (repeat 0 (length tests))) /\
    (l <> [] -> tests <> [] -> CVAP.predict_proba gmean m tests = Ok (map (fused gmean l) tests)) /\
    (l <> [] -> tests = [] -> CVAP.predict_proba gmean m tests = Raise IndexError).
Proof.
  intros E.
  destruct (cvap_fit_well_fitted Row estimator_scores stratified_kfold self y scores X log m E)
    as (Hfit & l & Hiv & Hwf).
  exists l. split; [exact Hiv|]. split; [|split].
  - intros ->. destruct m as [f n iv]. simpl in Hfit, Hiv. subst. reflexivity.
  - intros Hl Ht. apply (cvap_predict_proba_fused gmean m l tests Hfit Hiv Hwf Hl Ht).
  - intros Hl ->. apply (cvap_predict_proba_no_score gmean m l Hfit Hiv Hwf Hl).
Qed.

Lemma cvap_predict_proba_empty_scores_witness :
  exists l,
    CVAP.ivaps balanced_cvap = Some l /\
    (l = [] -> CVAP.predict_proba any_gmean balanced_cvap [] = Ok (repeat 0 (length (@nil Qc)))) /\
    (l <> [] -> @nil Qc <> [] ->
     CVAP.predict_proba any_gmean balanced_cvap [] = Ok (map (fused any_gmean l) [])) /\
    (l <> [] -> @nil Qc = [] -> CVAP.predict_proba any_gmean balanced_cvap [] = Raise IndexError).
Proof.
  apply (cvap_predict_proba_empty_scores nat balanced_kfold half_scores any_gmean (CVAP.init 2)
           balanced_labels [] (seq 0 4)
           [CVAP.CreateSplits; CVAP.TrainModel 0; CVAP.TrainModel 1]).
  vm_compute. reflexivity.
Defined.

(** * C9: rows of the multiclass output *)

Lemma Qsum_div l S : Calibrator.Qsum (map (fun x => x / S) l) == Calibrator.Qsum l / S.
Proof.
  unfold Calibrator.Qsum. induction l as [|x l IH]; simpl.
  - unfold Qdiv. ring.
  - rewrite IH. unfold Qdiv. ring.
Qed.

Lemma exact_sums_to_one vals : Calibrator.Qsum vals == 1 -> sums_to_one (map Some vals).
Proof.
  intros H. exists vals. split; [reflexivity|]. rewrite H.
  setoid_replace (1 - 1) with 0 by ring. simpl. discriminate.
Qed.

Lemma broadcast_length n v col : Calibrator.broadcast n v = Ok col -> length col = n.
Proof.
  unfold Calibrator.broadcast. destruct (Nat.eqb_spec (length v) n) as [H|_].
  - intros E. injection E as <-. exact H.
  - destruct (length v =? 1)%nat; [|discriminate]. intros E. injection E as <-.
    apply repeat_length.
Qed.

Lemma normalized_divide raw :
  normalized raw (map (fun x => Calibrator.np_divide x (Calibrator.Qsum raw)) raw).
Proof.
  unfold normalized, Calibrator.np_divide.
  destruct (Qeq_bool (Calibrator.Qsum raw) 0) eqn:E.
  - apply Qeq_bool_iff in E. split; [reflexivity | intros H; contradiction].
  - assert (~ Calibrator.Qsum raw == 0) as Hne
        by (intros H; apply Qeq_bool_iff in H; congruence).
    split; [intros H; contradiction|]. intros _. split; [reflexivity|].
    rewrite <- (map_map (fun x => x / Calibrator.Qsum raw) Some).
    apply exact_sums_to_one. rewrite Qsum_div. field. exact Hne.
Qed.

Lemma nth_error_update_same {A} (a : list A) i v :
  (i < length a)%nat -> nth_error (update a i v) i = Some v.
Proof.
  revert i. induction a as [|x a IH]; intros [|i] H; simpl in *; try lia; [reflexivity|].
  apply IH. lia.
Qed.

Lemma nth_error_update_other {A} (a : list A) i j v :
  i <> j -> nth_error (update a i v) j = nth_error a j.
Proof.
  revert i j. induction a as [|x a IH]; intros [|i] [|j] H; simpl; try reflexivity; try congruence.
  apply IH. congruence.
Qed.

Lemma update_length {A} (a : list A) i v : length (update a i v) = length a.
Proof.
  revert i. induction a as [|x a IH]; intros [|i]; simpl; try reflexivity. rewrite IH. reflexivity.
Qed.

Section MulticlassColumns.

Variable C : Type.
Context {BC : Calibrator.BinaryCalibrator C}.
Variable cs : list C.
Variable n : nat.

(** The loop of the multiclass branch, started at the class [t]: it
    assigns the column of every class that has scores and leaves the
    other columns as they are. *)
Lemma multiclass_columns splits :
  forall t P P',
    foldM (fun probabilities (entry : nat * list Qc) =>
             let (idx, split) := entry in
             calibrator <- getitem cs idx ;;
             v <- Calibrator.calibrator_predict_proba calibrator split ;;
             Calibrator.set_column n probabilities idx v)
          (combine (seq t (length splits)) splits) P = Ok P' ->
    length P' = length P /\
    (forall j split, nth_error splits j = Some split ->
                     exists col, nth_error P' (t + j) = Some col /\
                                 column_of C BC cs n (t + j) split col) /\
    (forall idx, (idx < t \/ t + length splits <= idx)%nat ->
                 nth_error P' idx = nth_error P idx).
Proof.
  induction splits as [|split splits IH]; intros t P P' H.
  - simpl in H. injection H as <-. split; [reflexivity|]. split; [|reflexivity].
    intros [|j] sp Hj; discriminate.
  - simpl in H.
    unfold getitem in H at 1. destruct (nth_error cs t) as [c|] eqn:Ec; [|discriminate].
    cbn [bind] in H.
    destruct (Calibrator.calibrator_predict_proba c split) as [v|] eqn:Ev; [|discriminate].
    cbn [bind] in H. unfold Calibrator.set_column in H at 1.
    destruct (Nat.ltb_spec t (length P)) as [Hlt|]; [|discriminate].
    destruct (Calibrator.broadcast n v) as [col|] eqn:Ecol; [|discriminate]. cbn [bind] in H.
    destruct (IH (S t) (update P t col) P' H) as (H1 & H2 & H3).
    rewrite update_length in H1. split; [exact H1|]. split.
    + intros [|j] sp Hj.
      * injection Hj as <-. rewrite Nat.add_0_r. exists col. split.
        -- rewrite H3 by lia. apply nth_error_update_same. exact Hlt.
        -- exists c, v. auto.
      * simpl in Hj. destruct (H2 j sp Hj) as (col' & E & Hc).
        replace (t + S j)%nat with (S t + j)%nat by lia. exists col'. auto.
    + intros idx Hidx. simpl in Hidx. rewrite H3 by lia.
      apply nth_error_update_other. lia.
Qed.

End MulticlassColumns.

Lemma Forall2_map_self {A B} (R : A -> B -> Prop) (f : A -> B) l :
  (forall x, R x (f x)) -> Forall2 R l (map f l).
Proof. intros H. induction l as [|x l IH]; simpl; constructor; auto. Qed.

(** C9. [predict_proba] returns [n_samples] rows.  In binary mode every row
    sums to one.  In multiclass mode the column of every class that has
    scores is the prediction of the calibrator of the class, the other
    columns are zero, and every row is the raw row of these columns divided
    by its sum: of sum one when that sum is not zero, and without a finite
    entry when it is zero, for want of a guard. *)
Theorem calibrator_predict_proba_rows (C : Type) (BC : Calibrator.BinaryCalibrator C)
        (self : Calibrator.t C) (n_samples : nat) (test_scores : list (list Qc))
        (M : list (list (option Q))) :
  Calibrator.predict_proba self n_samples test_scores = Ok M ->
  length M = n_samples /\
  (Calibrator.multiclass self = false -> forall row, In row M -> sums_to_one row) /\
  (Calibrator.multiclass self = true ->
   exists probabilities,
     length probabilities = Calibrator.n_classes self /\
     (forall idx split, nth_error test_scores idx = Some split ->
        exists col, nth_error probabilities idx = Some col /\
                    column_of C BC (Calibrator.calibrators self) n_samples idx split col) /\
     (forall idx col, (length test_scores <= idx)%nat ->
                      nth_error probabilities idx = Some col -> col = repeat 0 n_samples) /\
     Forall2 normalized (Calibrator.rows n_samples probabilities) M).
Proof.
  unfold Calibrator.predict_proba. destruct (Calibrator.multiclass self).
  - match goal with |- bind ?c _ = _ -> _ => destruct c as [P|] eqn:EP end; [|discriminate].
    cbn [bind]. intros E. injection E as <-. split; [|split; [discriminate|]].
    + rewrite length_map. unfold Calibrator.rows. rewrite length_map. apply length_seq.
    + intros _. unfold enumerate in EP.
      destruct (multiclass_columns C (Calibrator.calibrators self) n_samples test_scores 0%nat
                  _ P EP) as (H1 & H2 & H3).
      exists P. rewrite repeat_length in H1. split; [exact H1|]. split; [|split].
      * intros idx split Hs. apply (H2 idx split Hs).
      * intros idx col Hidx Hcol. rewrite H3 in Hcol by (right; simpl; exact Hidx).
        apply nth_error_In in Hcol. apply repeat_spec in Hcol. exact Hcol.
      * apply Forall2_map_self. exact normalized_divide.
  - destruct (getitem (Calibrator.calibrators self) 0) as [c|]; [|discriminate]. cbn [bind].
    destruct (getitem test_scores 1) as [split|]; [|discriminate]. cbn [bind].
    destruct (Calibrator.calibrator_predict_proba c split) as [v|]; [|discriminate]. cbn [bind].
    change (repeat (repeat 0 n_samples) 2) with [repeat 0 n_samples; repeat 0 n_samples].
    unfold Calibrator.set_column at 1. cbn [length].
    change (1 <? 2)%nat with true. cbv iota.
    destruct (Calibrator.broadcast n_samples v) as [col|] eqn:Ecol; [|discriminate].
    cbn [bind update]. unfold getitem at 1. cbn [nth_error bind].
    unfold Calibrator.set_column. cbn [length]. change (0 <? 2)%nat with true. cbv iota.
    pose proof (broadcast_length _ _ _ Ecol) as Hcol.
    unfold Calibrator.broadcast. rewrite length_map, Hcol, Nat.eqb_refl. cbn [bind].
    simpl update. intros E. injection E as <-. split; [|split; [|discriminate]].
    + rewrite length_map. unfold Calibrator.rows. rewrite length_map. apply length_seq.
    + intros _ row Hrow. apply in_map_iff in Hrow. destruct Hrow as (raw & <- & Hraw).
      apply exact_sums_to_one. unfold Calibrator.rows in Hraw. apply in_map_iff in Hraw.
      destruct Hraw as (r & <- & Hr). apply in_seq in Hr. simpl.
      rewrite (nth_map_in (fun p => 1 - p) col 0 r) by lia. ring.
Qed.

Lemma empty_cvap_fit y :
  In y one_vs_rest_labels ->
  snd (CVAP.fit lone_kfold half_scores (CVAP.init 2) y [] (seq 0 3)) = Ok empty_cvap.
Proof.
  intros [<- | [<- | [<- | []]]]; vm_compute; reflexivity.
Qed.

(** The failing input of C9: the cross predictors fitted on three samples
    of three classes retain no fold, each predicts zero, and the only row
    of the output for one sample is 0/0 in every entry. *)
Lemma calibrator_predict_proba_rows_witness :
  (forall y, In y one_vs_rest_labels ->
             snd (CVAP.fit lone_kfold half_scores (CVAP.init 2) y [] (seq 0 3)) = Ok empty_cvap) /\
  Calibrator.predict_proba (BC := Calibrator.cvap_calibrator any_gmean)
                           degenerate_calibrator 1 one_sample_scores
  = Ok [[None; None; None]] /\
  ~ sums_to_one [None; None; None] /\
  length [[@None Q; None; None]] = 1%nat /\
  (Calibrator.multiclass degenerate_calibrator = false ->
   forall row, In row [[@None Q; None; None]] -> sums_to_one row) /\
  (Calibrator.multiclass degenerate_calibrator = true ->
   exists probabilities,
     length probabilities = Calibrator.n_classes degenerate_calibrator /\
     (forall idx split, nth_error one_sample_scores idx = Some split ->
        exists col, nth_error probabilities idx = Some col /\
                    column_of CVAP.t (Calibrator.cvap_calibrator any_gmean)
                              (Calibrator.calibrators degenerate_calibrator) 1 idx split col) /\
     (forall idx col, (length one_sample_scores <= idx)%nat ->
                      nth_error probabilities idx = Some col -> col = repeat 0 1) /\
     Forall2 normalized (Calibrator.rows 1 probabilities) [[None; None; None]]).
Proof.
  split; [exact empty_cvap_fit|]. split; [reflexivity|]. split.
  - intros (vals & E & _). destruct vals; discriminate.
  - apply (calibrator_predict_proba_rows CVAP.t (Calibrator.cvap_calibrator any_gmean)
             degenerate_calibrator 1 one_sample_scores).
    reflexivity.
Defined.

Local Close Scope Q_scope.

(** * The claims C1 and C3 on the float64 code *)

(** ** [fit] on the sorted calibration set *)

Lemma fit64_eq self y scores :
  length y = length scores -> (n_unique_labels y <= 2)%nat ->
  IVAP64.fit self y scores
  = (let ocs := map fst (sorted_rows (IVAP.binarize 1 y) scores) in
     let ocl := map snd (sorted_rows (IVAP.binarize 1 y) scores) in
     let '(unique_elements, unique_idx, unique_element_counts) := np_unique ocs in
     oucs <- take_idx ocs unique_idx ;;
     _ <- take_idx ocl unique_idx ;;
     IVAP64.fit_sorted unique_elements unique_idx unique_element_counts ocs ocl oucs).
Proof.
  intros HL Hn. unfold IVAP64.fit.
  destruct (Nat.leb_spec (n_unique_labels y) 2) as [_|H]; [|lia]. simpl negb. cbv iota.
  destruct (lexsort_gather (IVAP.binarize 1 y) scores) as (idx & E1 & E2 & E3).
  { rewrite binarize_length. exact HL. }
  cbv zeta. rewrite E1. cbn [bind]. rewrite E2. cbn [bind]. rewrite E3. cbn [bind].
  reflexivity.
Qed.

(** ** A calibration set of [n] copies of one positive sample *)

Section OneSample.

Variable s : Qc.
Variable n : nat.
Hypothesis Hn : n <> 0%nat.

Lemma sorted_rows_repeat : sorted_rows (repeat 1%Z n) (repeat s n) = repeat (s, 1%Z) n.
Proof.
apply Permutation_repeat. rewrite sorted_rows_perm.
clear Hn. induction n as [|m IH]; simpl; [reflexivity|]. rewrite IH. reflexivity.
Qed.

Lemma dedup_sorted_repeat : dedup_sorted (repeat s n) = [s].
Proof.
destruct n as [|m]; [congruence|]. clear Hn.
induction m as [|m IH]; [reflexivity|].
change (repeat s (S (S m))) with (s :: repeat s (S m)).
change (dedup_sorted (s :: repeat s (S m)))
  with (if Qc_eqb s s then dedup_sorted (repeat s (S m)) else s :: dedup_sorted (repeat s (S m))).
rewrite Qc_eqb_refl. exact IH.
Qed.

Lemma count_of_repeat : count_of s (repeat s n) = n.
Proof.
unfold count_of. clear Hn. induction n as [|m IH]; [reflexivity|].
simpl. rewrite Qc_eqb_refl. simpl. rewrite IH. reflexivity.
Qed.

Lemma np_unique_repeat : np_unique (repeat s n) = ([s], [0%nat], [n]).
Proof.
unfold np_unique.
rewrite (Permutation_repeat s n (isort_perm _ Qc_leb (repeat s n))).
rewrite dedup_sorted_repeat. cbn [map]. rewrite count_of_repeat.
destruct n as [|m]; [congruence|]. simpl. rewrite Qc_eqb_refl. reflexivity.
Qed.

Lemma matching_labels_repeat :
map snd (filter (fun sl : Qc * Z => Qc_eqb (fst sl) s) (combine (repeat s n) (repeat 1%Z n)))
= repeat 1%Z n.
Proof.
clear Hn. induction n as [|m IH]; [reflexivity|].
simpl. rewrite Qc_eqb_refl. simpl. rewrite IH. reflexivity.
Qed.

Lemma Zsum_repeat_1 : Zsum (repeat 1%Z n) = Z.of_nat n.
Proof.
clear Hn. induction n as [|m IH]; [reflexivity|].
change (Zsum (repeat 1%Z (S m))) with (1 + Zsum (repeat 1%Z m))%Z. rewrite IH. lia.
Qed.

Lemma compute_csd_repeat :
IVAP64.compute_csd 1 [s] [n] (repeat s n) (repeat 1%Z n) [s]
= Ok [(PrimFloat.zero, PrimFloat.zero);
      (float_of_nat n,
       PrimFloat.mul (PrimFloat.div (float_of_nat n) (float_of_nat n)) (float_of_nat n))].
Proof.
unfold IVAP64.compute_csd. cbn [seq mapM]. unfold IVAP64.label_rate.
cbn [getitem nth_error bind]. rewrite matching_labels_repeat, Zsum_repeat_1.
unfold dict_zip. cbn [combine fold_left dict_set fst snd dict_get]. rewrite Qc_eqb_refl.
cbn [bind combine map float_cumsum float_cumsum_from int_cumsum int_cumsum_from fst snd
     Nat.add]. reflexivity.
Qed.

Lemma fit64_repeat :
IVAP64.fit IVAP64.init (repeat 1%Z n) (repeat s n)
= IVAP64.fit_sorted [s] [0%nat] [n] (repeat s n) (repeat 1%Z n) [s].
Proof.
rewrite fit64_eq.
- assert (IVAP.binarize 1 (repeat 1%Z n) = repeat 1%Z n) as ->
      by (unfold IVAP.binarize; rewrite map_repeat; reflexivity).
  rewrite sorted_rows_repeat. rewrite !map_repeat. cbn [fst snd].
  cbv zeta. rewrite np_unique_repeat.
  destruct n as [|m]; [congruence|]. reflexivity.
- rewrite !repeat_length. reflexivity.
- apply Nat.le_trans with (n_unique_labels [1%Z]); [|vm_compute; lia].
  apply n_unique_labels_incl. intros x Hx. apply repeat_spec in Hx. subst x. left. reflexivity.
Qed.

End OneSample.

(** ** C1 in float64 *)

(** C1 as stated fails on the float64 code: the label rate 14/25 times the
    count 25 rounds to the float next above 14, and [fit] stores
    [F1 = [0; h; h; 0.5]] with [h] the float next above one half: [F1]
    decreases from index 2 to index 3. *)
Lemma ivap_F_monotone_float64_counterexample :
  length skewed_labels = length skewed_scores /\
  (n_unique_labels skewed_labels <= 2)%nat /\
  exists m f0 f1,
    IVAP64.fit IVAP64.init skewed_labels skewed_scores = Ok m /\
    IVAP64.F0 m = Some f0 /\ IVAP64.F1 m = Some f1 /\
    f1 = [PrimFloat.zero; PrimFloat.next_up float_half; PrimFloat.next_up float_half;
          float_half] /\
    ~ (nondecreasing64 f0 /\ nondecreasing64 f1 /\ pointwise_le64 f0 f1).
Proof.
  split; [reflexivity|]. split; [vm_compute; lia|].
  exists skewed_ivap. eexists. eexists.
  split; [vm_compute; reflexivity|]. split; [reflexivity|]. split; [reflexivity|].
  split; [vm_compute; reflexivity|].
  intros (_ & H & _).
  specialize (H 2%nat 3%nat _ _ (Nat.le_succ_diag_r 2) eq_refl eq_refl).
  vm_compute in H. discriminate.
Qed.

(** ** C3 in float64 *)

Lemma many_Z : Z.of_nat many = 134217729%Z.
Proof. unfold many. apply Z2Nat.id. discriminate. Qed.

Lemma many_pos : many <> 0%nat.
Proof. intros H. pose proof many_Z as E. rewrite H in E. discriminate. Qed.

Lemma many_ivap_fit :
  IVAP64.fit IVAP64.init (repeat 1%Z many) (repeat (qc 1 2) many) = Ok many_ivap.
Proof.
  rewrite (fit64_repeat (qc 1 2) many many_pos).
  unfold IVAP64.fit_sorted. cbn [length]. rewrite (compute_csd_repeat (qc 1 2) many).
  unfold float_of_nat. rewrite many_Z. vm_compute. reflexivity.
Qed.

(** C3 as stated fails on the float64 code: after 2^27 + 1 positive
    samples of the score 0.5, the interval of the score 0.9 is
    [(p0, 1)] with [p0] the float nearest to n / (n + 1), and its
    probability is the float next below [p0]. *)
Lemma ivap_interval_contains_float64_counterexample :
  exists m p p0 p1,
    IVAP64.fit IVAP64.init (repeat 1%Z many) (repeat (qc 1 2) many) = Ok m /\
    IVAP64.predict_proba m [qc 9 10] = Ok [p] /\
    IVAP64.predict_intervall m [qc 9 10] = Ok [(p0, p1)] /\
    p0 = PrimFloat.div (float_of_Z 134217729) (float_of_Z 134217730) /\
    p1 = PrimFloat.one /\
    p = PrimFloat.next_down p0 /\
    ~ (float_le p0 p /\ float_le p p1).
Proof.
  exists many_ivap. eexists. eexists. eexists.
  split; [exact many_ivap_fit|].
  split; [vm_compute; reflexivity|]. split; [vm_compute; reflexivity|].
  split; [vm_compute; reflexivity|]. split; [vm_compute; reflexivity|].
  split; [vm_compute; reflexivity|].
  intros [H _]. vm_compute in H. discriminate.
Qed.

Local Close Scope Q_scope.

(** * Further properties of the inductive predictor *)

Local Open Scope Q_scope.

(** ** The unique scores *)

Lemma dedup_sorted_complete v l : In v l -> In v (dedup_sorted l).
Proof.
  induction l as [|x l IH]; intros H; [exact H|].
  destruct l as [|y l]; [exact H|].
  change (dedup_sorted (x :: y :: l))
    with (if Qc_eqb x y then dedup_sorted (y :: l) else x :: dedup_sorted (y :: l)).
  destruct (Qc_eqb x y) eqn:E.
  - apply IH. destruct H as [<-|H]; [|exact H]. apply Qc_eqb_eq in E. left. symmetry. exact E.
  - destruct H as [<-|H]; [left; reflexivity | right; apply IH; exact H].
Qed.

Lemma dedup_sorted_strict l :
  StronglySorted Qcle l -> StronglySorted Qclt (dedup_sorted l).
Proof.
  induction 1 as [|x l Hl IH Hx]; [constructor|].
  destruct l as [|y l]; [constructor; constructor|].
  change (dedup_sorted (x :: y :: l))
    with (if Qc_eqb x y then dedup_sorted (y :: l) else x :: dedup_sorted (y :: l)).
  destruct (Qc_eqb x y) eqn:E; [exact IH|].
  constructor; [exact IH|]. rewrite Forall_forall in *. intros z Hz.
  apply dedup_sorted_In in Hz.
  assert (y <= z)%Qc as Hyz.
  { destruct Hz as [<-|Hz]; [apply Qcle_refl|].
    apply StronglySorted_inv in Hl. destruct Hl as [_ Hy]. rewrite Forall_forall in Hy.
    apply Hy. exact Hz. }
  assert (x <= y)%Qc as Hxy by (apply Hx; left; reflexivity).
  assert (x <> y) as Hne by (intros ->; rewrite Qc_eqb_refl in E; discriminate).
  apply Qclt_le_trans with y; [|exact Hyz].
  destruct (Qcle_lt_or_eq _ _ Hxy) as [H|H]; [exact H | contradiction].
Qed.

Lemma unique_values_strict a : StronglySorted Qclt (unique_values a).
Proof.
  unfold unique_values. apply dedup_sorted_strict.
  pose proof (isort_sorted _ Qc_leb Qc_leb_total Qc_leb_trans a) as H.
  induction H as [|x l Hl IH Hx]; constructor; [exact IH|].
  rewrite Forall_forall in *. intros z Hz. apply Qc_leb_le. apply Hx. exact Hz.
Qed.

Lemma unique_values_complete v a : In v a -> In v (unique_values a).
Proof.
  intros H. apply dedup_sorted_complete.
  apply (Permutation_in _ (Permutation_sym (isort_perm _ Qc_leb a))). exact H.
Qed.

Lemma Qc_leb_antisym a b : Qc_leb a b = true -> Qc_leb b a = true -> a = b.
Proof. rewrite !Qc_leb_le. apply Qcle_antisym. Qed.

Lemma unique_values_perm a b : Permutation a b -> unique_values a = unique_values b.
Proof.
  intros H. unfold unique_values. f_equal.
  apply (isort_perm_eq _ Qc_leb Qc_leb_total Qc_leb_trans Qc_leb_antisym). exact H.
Qed.

Lemma map_fst_combine {A B} (l1 : list A) (l2 : list B) :
  length l1 = length l2 -> map fst (combine l1 l2) = l1.
Proof.
  revert l2. induction l1 as [|a l1 IH]; intros [|b l2] H; try discriminate; [reflexivity|].
  simpl. f_equal. apply IH. simpl in H. lia.
Qed.

(** The unique scores that [fit] stores are the distinct calibration
    scores, whatever the order of the rows. *)
Lemma fit_unique_elements self y scores m :
  IVAP.fit self y scores = Ok m ->
  exists vs ws,
    m = IVAP.mk true (Some (length (unique_values scores))) (Some (0 :: vs)) (Some (0 :: ws))
                (Some (unique_values scores)) /\
    fitted_facts (unique_values scores) vs ws.
Proof.
  intros E. destruct (fit_Ok_inv self y scores m E) as [HL Hn].
  destruct (fit_facts self y scores HL Hn) as (ue & vs & ws & E' & Hf & _).
  assert (ue = unique_values scores) as ->.
  { rewrite (fit_eq self y scores HL Hn) in E'.
    set (rows := sorted_rows (IVAP.binarize 1 y) scores) in *.
    assert (Permutation rows (combine scores (IVAP.binarize 1 y))) as Hperm
        by apply sorted_rows_perm.
    destruct (fit_tail_spec (map fst rows) (map snd rows)) as (vs' & ws' & E2 & _).
    { rewrite !length_map. reflexivity. }
    { intros l Hl. apply in_map_iff in Hl. destruct Hl as ([s l'] & <- & Hin).
      apply (Permutation_in _ Hperm) in Hin. apply in_combine_r in Hin.
      apply (binarize_01 1 y). exact Hin. }
    rewrite E2 in E'. injection E' as _ _ _ Eue. rewrite <- Eue.
    apply unique_values_perm.
    apply Permutation_trans with (map fst (combine scores (IVAP.binarize 1 y)));
      [apply Permutation_map; exact Hperm|].
    rewrite map_fst_combine by (rewrite binarize_length; congruence). reflexivity. }
  exists vs, ws. split; [|exact Hf]. rewrite E' in E. injection E as <-. reflexivity.
Qed.

(** X1. The state that [fit] stores: the instance is fitted, the unique
    scores are the calibration scores, each once, in strictly increasing
    order, [k_distinct] is their number, and [F0] and [F1] have one entry
    more, the first of which is 0. *)
Theorem ivap_fit_state (self : IVAP.t) (y : list Z) (scores : list Qc) (m : IVAP.t) :
  IVAP.fit self y scores = Ok m ->
  exists ue f0 f1,
    IVAP.fitted m = true /\
    IVAP.unique_elements m = Some ue /\ IVAP.k_distinct m = Some (length ue) /\
    IVAP.F0 m = Some f0 /\ IVAP.F1 m = Some f1 /\
    length f0 = S (length ue) /\ length f1 = S (length ue) /\
    nth_error f0 0 = Some 0 /\ nth_error f1 0 = Some 0 /\
    StronglySorted Qclt ue /\ (forall s, In s ue <-> In s scores).
Proof.
  intros E. destruct (fit_unique_elements self y scores m E) as (vs & ws & -> & Hf).
  exists (unique_values scores), (0 :: ws), (0 :: vs). simpl.
  rewrite (ff_len0 _ _ _ Hf), (ff_len1 _ _ _ Hf).
  repeat (split; [reflexivity|]). split; [apply unique_values_strict|].
  intros s. split; [apply unique_values_In | apply unique_values_complete].
Qed.

Lemma ivap_fit_state_witness :
  exists ue f0 f1,
    IVAP.fitted example_ivap = true /\
    IVAP.unique_elements example_ivap = Some ue /\
    IVAP.k_distinct example_ivap = Some (length ue) /\
    IVAP.F0 example_ivap = Some f0 /\ IVAP.F1 example_ivap = Some f1 /\
    length f0 = S (length ue) /\ length f1 = S (length ue) /\
    nth_error f0 0 = Some 0 /\ nth_error f1 0 = Some 0 /\
    StronglySorted Qclt ue /\ (forall s, In s ue <-> In s example_scores).
Proof.
  apply (ivap_fit_state IVAP.init example_labels example_scores). exact example_ivap_fit.
Defined.

(** X2. Beyond index 0 the entries of [F0] lie in [0, 1), those of [F1] in
    (0, 1], and [F0[i] < F1[i]] strictly. *)
Theorem ivap_F_bounds (self : IVAP.t) (y : list Z) (scores : list Qc) (m : IVAP.t)
        (f0 f1 : list Q) :
  IVAP.fit self y scores = Ok m -> IVAP.F0 m = Some f0 -> IVAP.F1 m = Some f1 ->
  forall i a b, (1 <= i)%nat -> nth_error f0 i = Some a -> nth_error f1 i = Some b ->
                0 <= a /\ a < b /\ b <= 1.
Proof.
  intros E E0 E1. destruct (fit_unique_elements self y scores m E) as (vs & ws & -> & Hf).
  simpl in E0, E1. injection E0 as <-. injection E1 as <-.
  intros [|i] a b Hi Ha Hb; [lia|]. simpl in Ha, Hb.
  destruct (ff_b0 _ _ _ Hf i a Ha) as [H0 _]. destruct (ff_b1 _ _ _ Hf i b Hb) as [_ H1].
  pose proof (ff_lt _ _ _ Hf i b a Hb Ha). auto.
Qed.

Lemma ivap_F_bounds_witness :
  exists a b,
    nth_error (match IVAP.F0 example_ivap with Some f => f | None => [] end) 1 = Some a /\
    nth_error (match IVAP.F1 example_ivap with Some f => f | None => [] end) 1 = Some b /\
    0 <= a /\ a < b /\ b <= 1.
Proof.
  eexists. eexists.
  split; [vm_compute; reflexivity|]. split; [vm_compute; reflexivity|].
  apply (ivap_F_bounds IVAP.init example_labels example_scores example_ivap
           (match IVAP.F0 example_ivap with Some f => f | None => [] end)
           (match IVAP.F1 example_ivap with Some f => f | None => [] end)
           example_ivap_fit eq_refl eq_refl 1%nat).
  - lia.
  - vm_compute; reflexivity.
  - vm_compute; reflexivity.
Defined.

(** ** Predictions *)

Lemma merge_strict p0 p1 : 0 <= p0 -> p0 < 1 -> 0 < p1 -> 0 < IVAP.merge p0 p1 /\ IVAP.merge p0 p1 < 1.
Proof.
  intros H0 H1 Hp. unfold IVAP.merge.
  assert (0 < 1 - p0 + p1) as Hd by lra.
  split.
  - apply Qlt_shift_div_l; [exact Hd | lra].
  - apply Qlt_shift_div_r; [exact Hd | lra].
Qed.

Lemma merge_monotone p0 p1 q0 q1 :
  0 <= p0 -> q0 < 1 -> 0 < p1 -> p0 <= q0 -> p1 <= q1 ->
  IVAP.merge p0 p1 <= IVAP.merge q0 q1.
Proof.
  intros H0 H1 Hp Hle0 Hle1. unfold IVAP.merge.
  assert (0 < 1 - p0 + p1) as Hd by lra.
  assert (0 < 1 - q0 + q1) as Hd' by lra.
  apply Qle_shift_div_l; [exact Hd'|].
  assert (p1 / (1 - p0 + p1) * (1 - q0 + q1) == p1 * (1 - q0 + q1) / (1 - p0 + p1)) as ->
      by (field; lra).
  apply Qle_shift_div_r; [exact Hd|]. nra.
Qed.

Lemma first_index_ge_mono a s s' : (s <= s')%Qc -> (first_index_ge a s <= first_index_ge a s')%nat.
Proof.
  intros H. rewrite !first_index_ge_eq. apply first_false_mono.
  intros x Hx. apply Qc_ltb_lt in Hx. apply Qc_ltb_lt. apply Qclt_le_trans with s; assumption.
Qed.

Lemma rightmost_insertion_mono a s s' :
  (s <= s')%Qc -> (rightmost_insertion a s <= rightmost_insertion a s')%nat.
Proof.
  intros H. rewrite !rightmost_insertion_eq. apply first_false_mono.
  intros x Hx. apply Qc_leb_le in Hx. apply Qc_leb_le. apply Qcle_trans with s; assumption.
Qed.

Lemma first_false_ext f g a :
  (forall x, In x a -> f x = g x) -> first_false f a = first_false g a.
Proof.
  induction a as [|x a IH]; intros H; [reflexivity|]. simpl.
  rewrite (H x (or_introl eq_refl)). destruct (g x); [|reflexivity].
  f_equal. apply IH. intros z Hz. apply H. right. exact Hz.
Qed.

Lemma In_removelast {A} (x : A) l : In x (removelast l) -> In x l.
Proof.
  induction l as [|a l IH]; [intros []|].
  destruct l as [|b l]; [intros []|].
  change (removelast (a :: b :: l)) with (a :: removelast (b :: l)).
  intros [<-|H]; [left; reflexivity | right; apply IH; exact H].
Qed.

Section FittedMore.

Variables (ue : list Qc) (vs ws : list Q).
Hypothesis Hf : fitted_facts ue vs ws.
Hypothesis Hne : ue <> [].

Lemma interval_strict s :
let iv := interval_of ue (0 :: ws) (0 :: vs) s in
0 <= fst iv /\ fst iv < snd iv /\ snd iv <= 1.
Proof.
cbv zeta. destruct (interval_bounds ue vs ws Hf Hne s) as (H0 & _ & _ & _ & H1).
split; [exact H0|]. split; [|exact H1].
unfold interval_of. cbn [fst snd].
destruct (index_bounds ue s Hne) as (Hlu & Hl & Hu1 & Hu2).
set (lo := lower_index ue s) in *. set (up := upper_index ue s) in *. clearbody lo up.
assert (nth_error (0 :: ws) lo = Some (nth lo (0 :: ws) 0)) as E0
    by (apply nth_error_nth'; simpl; rewrite (ff_len0 _ _ _ Hf); lia).
assert (nth_error (0 :: ws) up = Some (nth up (0 :: ws) 0)) as E1
    by (apply nth_error_nth'; simpl; rewrite (ff_len0 _ _ _ Hf); lia).
assert (nth_error (0 :: vs) up = Some (nth up (0 :: vs) 0)) as E2
    by (apply nth_error_nth'; simpl; rewrite (ff_len1 _ _ _ Hf); lia).
pose proof (nondec_nth _ (ff_nd0 _ _ _ Hf) lo up _ _ Hlu E0 E1) as Hle.
destruct up as [|u]; [lia|]. simpl in E1, E2.
pose proof (ff_lt _ _ _ Hf u _ _ E2 E1) as Hlt.
simpl (nth (S u) (0 :: vs) 0). simpl (nth (S u) (0 :: ws) 0) in Hle. lra.
Qed.

Lemma interval_monotone s s' :
(s <= s')%Qc ->
fst (interval_of ue (0 :: ws) (0 :: vs) s) <= fst (interval_of ue (0 :: ws) (0 :: vs) s') /\
snd (interval_of ue (0 :: ws) (0 :: vs) s) <= snd (interval_of ue (0 :: ws) (0 :: vs) s').
Proof.
intros H. unfold interval_of. cbn [fst snd].
destruct (index_bounds ue s Hne) as (_ & Hl & _ & Hu).
destruct (index_bounds ue s' Hne) as (_ & Hl' & _ & Hu').
assert (lower_index ue s <= lower_index ue s')%nat as Hlo by (apply first_index_ge_mono; exact H).
assert (upper_index ue s <= upper_index ue s')%nat as Hup
    by (unfold upper_index; apply le_n_S; apply rightmost_insertion_mono; exact H).
split.
- apply (nondec_nth _ (ff_nd0 _ _ _ Hf) _ _ _ _ Hlo);
    apply nth_error_nth'; simpl; rewrite (ff_len0 _ _ _ Hf); lia.
- apply (nondec_nth _ (ff_nd1 _ _ _ Hf) _ _ _ _ Hup);
    apply nth_error_nth'; simpl; rewrite (ff_len1 _ _ _ Hf); lia.
Qed.

End FittedMore.

(** X3. On an IVAP fitted on a non-empty calibration set, [predict_proba]
    returns one probability per test score, each strictly between 0 and 1. *)
Theorem ivap_predict_proba_range (self : IVAP.t) (y : list Z) (scores : list Qc)
        (m : IVAP.t) (tests : list Qc) :
  IVAP.fit self y scores = Ok m -> y <> [] ->
  exists ps,
    IVAP.predict_proba m tests = Ok ps /\ length ps = length tests /\
    Forall (fun p => 0 < p /\ p < 1) ps.
Proof.
  intros E Hy. destruct (fit_Ok_facts self y scores m E Hy) as (ue & vs & ws & -> & Hf & Hne).
  eexists. split; [apply (predict_proba_eq ue vs ws Hf Hne)|]. split; [apply length_map|].
  apply Forall_forall. intros p Hp. apply in_map_iff in Hp. destruct Hp as (s & <- & _).
  destruct (interval_bounds ue vs ws Hf Hne s) as (H0 & H1 & _ & Hp & _).
  apply merge_strict; assumption.
Qed.

Lemma ivap_predict_proba_range_witness :
  exists ps,
    IVAP.predict_proba example_ivap [qc 5 100; qc 2 10; qc 1 1] = Ok ps /\
    length ps = 3%nat /\ Forall (fun p => 0 < p /\ p < 1) ps.
Proof.
  apply (ivap_predict_proba_range IVAP.init example_labels example_scores).
  - exact example_ivap_fit.
  - discriminate.
Defined.

(** X4. In exact arithmetic, on an IVAP fitted on a non-empty calibration
    set, [predict_intervall] returns one pair per test score, with
    [0 <= p0 < p1 <= 1]. *)
Theorem ivap_predict_intervall_range (self : IVAP.t) (y : list Z) (scores : list Qc)
        (m : IVAP.t) (tests : list Qc) :
  IVAP.fit self y scores = Ok m -> y <> [] ->
  exists ivs,
    IVAP.predict_intervall m tests = Ok ivs /\ length ivs = length tests /\
    Forall (fun iv => 0 <= fst iv /\ fst iv < snd iv /\ snd iv <= 1) ivs.
Proof.
  intros E Hy. destruct (fit_Ok_facts self y scores m E Hy) as (ue & vs & ws & -> & Hf & Hne).
  eexists. split; [apply (predict_intervall_eq ue vs ws Hf Hne)|]. split; [apply length_map|].
  apply Forall_forall. intros iv Hiv. apply in_map_iff in Hiv. destruct Hiv as (s & <- & _).
  apply (interval_strict ue vs ws Hf Hne s).
Qed.

Lemma ivap_predict_intervall_range_witness :
  exists ivs,
    IVAP.predict_intervall example_ivap [qc 5 100; qc 2 10; qc 1 1] = Ok ivs /\
    length ivs = 3%nat /\
    Forall (fun iv => 0 <= fst iv /\ fst iv < snd iv /\ snd iv <= 1) ivs.
Proof.
  apply (ivap_predict_intervall_range IVAP.init example_labels example_scores).
  - exact example_ivap_fit.
  - discriminate.
Defined.

(** X5. In exact arithmetic the calibration map is monotone: a test score
    that is not smaller gets a probability that is not smaller. *)
Theorem ivap_predict_proba_monotone (self : IVAP.t) (y : list Z) (scores : list Qc)
        (m : IVAP.t) (tests : list Qc) :
  IVAP.fit self y scores = Ok m -> y <> [] ->
  exists ps,
    IVAP.predict_proba m tests = Ok ps /\
    forall i j si sj pi pj,
      nth_error tests i = Some si -> nth_error tests j = Some sj ->
      nth_error ps i = Some pi -> nth_error ps j = Some pj ->
      (si <= sj)%Qc -> pi <= pj.
Proof.
  intros E Hy. destruct (fit_Ok_facts self y scores m E Hy) as (ue & vs & ws & -> & Hf & Hne).
  eexists. split; [apply (predict_proba_eq ue vs ws Hf Hne)|].
  intros i j si sj pi pj Hi Hj Hpi Hpj Hle.
  rewrite nth_error_map, Hi in Hpi. rewrite nth_error_map, Hj in Hpj.
  injection Hpi as <-. injection Hpj as <-.
  destruct (interval_bounds ue vs ws Hf Hne si) as (H0 & _ & _ & Hp & _).
  destruct (interval_bounds ue vs ws Hf Hne sj) as (_ & H1 & _).
  destruct (interval_monotone ue vs ws Hf Hne si sj Hle) as [Ha Hb].
  apply merge_monotone; assumption.
Qed.

Lemma ivap_predict_proba_monotone_witness :
  exists ps,
    IVAP.predict_proba example_ivap [qc 5 100; qc 2 10; qc 1 1] = Ok ps /\
    forall i j si sj pi pj,
      nth_error [qc 5 100; qc 2 10; qc 1 1] i = Some si ->
      nth_error [qc 5 100; qc 2 10; qc 1 1] j = Some sj ->
      nth_error ps i = Some pi -> nth_error ps j = Some pj ->
      (si <= sj)%Qc -> pi <= pj.
Proof.
  apply (ivap_predict_proba_monotone IVAP.init example_labels example_scores).
  - exact example_ivap_fit.
  - discriminate.
Defined.

(** X6. The probability of a test score depends on its rank among the
    calibration scores only: two test scores that compare in the same way
    with every calibration score get the same probability. *)
Theorem ivap_predict_proba_rank (self : IVAP.t) (y : list Z) (scores : list Qc)
        (m : IVAP.t) (s s' : Qc) :
  IVAP.fit self y scores = Ok m -> y <> [] ->
  (forall u, In u scores -> ((u < s)%Qc <-> (u < s')%Qc) /\ ((u <= s)%Qc <-> (u <= s')%Qc)) ->
  exists p, IVAP.predict_proba m [s; s'] = Ok [p; p].
Proof.
  intros E Hy Hcmp.
  destruct (fit_unique_elements self y scores m E) as (vs & ws & -> & Hf).
  assert (unique_values scores <> []) as Hne.
  { apply unique_values_nonempty. destruct (fit_Ok_inv _ _ _ _ E) as [HL _].
    destruct y; [congruence|]. destruct scores; discriminate. }
  rewrite (predict_proba_eq _ vs ws Hf Hne). cbn [map].
  assert (lower_index (unique_values scores) s = lower_index (unique_values scores) s') as El.
  { unfold lower_index. rewrite !first_index_ge_eq. apply first_false_ext.
    intros u Hu. apply unique_values_In in Hu. destruct (Hcmp u Hu) as [H _].
    destruct (Qc_ltb u s) eqn:E1, (Qc_ltb u s') eqn:E2; try reflexivity.
    - apply Qc_ltb_lt in E1. apply H in E1. apply Qc_ltb_lt in E1. congruence.
    - apply Qc_ltb_lt in E2. apply H in E2. apply Qc_ltb_lt in E2. congruence. }
  assert (upper_index (unique_values scores) s = upper_index (unique_values scores) s') as Eu.
  { unfold upper_index. f_equal. rewrite !rightmost_insertion_eq. apply first_false_ext.
    intros u Hu. apply In_removelast in Hu. apply unique_values_In in Hu.
    destruct (Hcmp u Hu) as [_ H].
    destruct (Qc_leb u s) eqn:E1, (Qc_leb u s') eqn:E2; try reflexivity.
    - apply Qc_leb_le in E1. apply H in E1. apply Qc_leb_le in E1. congruence.
    - apply Qc_leb_le in E2. apply H in E2. apply Qc_leb_le in E2. congruence. }
  unfold interval_of. rewrite El, Eu. eexists. reflexivity.
Qed.

Lemma ivap_predict_proba_rank_witness :
  exists p, IVAP.predict_proba example_ivap [qc 3 10; qc 5 10] = Ok [p; p].
Proof.
  apply (ivap_predict_proba_rank IVAP.init example_labels example_scores).
  - exact example_ivap_fit.
  - discriminate.
  - intros u [<- | [<- | [<- | [<- | []]]]]; split; split; intros H;
      first [ vm_compute; reflexivity
            | vm_compute; discriminate
            | vm_compute in H; discriminate
            | vm_compute in H; exfalso; apply H; reflexivity ].
Defined.

(** X7. [fit] accepts the empty calibration set; the predictor it returns
    gives the empty vector for no test score and raises IndexError as soon
    as there is one. *)
Theorem ivap_fit_empty (self : IVAP.t) (tests : list Qc) :
  exists m,
    IVAP.fit self [] [] = Ok m /\
    IVAP.predict_proba m [] = Ok [] /\ IVAP.predict_intervall m [] = Ok [] /\
    (tests <> [] ->
     IVAP.predict_proba m tests = Raise IndexError /\
     IVAP.predict_intervall m tests = Raise IndexError).
Proof.
  exists (IVAP.mk true (Some 0%nat) (Some [0]) (Some [0]) (Some [])).
  split; [reflexivity|]. split; [reflexivity|]. split; [reflexivity|].
  intros Ht. destruct tests as [|s tests]; [congruence|].
  unfold IVAP.predict_proba, IVAP.predict_intervall. simpl IVAP.getattr. simpl negb.
  cbv iota. cbn [bind].
  assert (take_idx [0] (map (searchsorted_left []) (s :: tests))
          = Ok (map (fun _ => 0) (s :: tests))) as ->.
  { unfold take_idx. rewrite mapM_map. apply mapM_ok. intros x _. reflexivity. }
  cbn [bind]. split; reflexivity.
Qed.

(** * [split_csr_matrix] *)

Local Close Scope Q_scope.

Lemma split_loop_app {A} (matrix : list A) q r range start folds :
  split_loop matrix q r range start folds = folds ++ split_loop matrix q r range start [].
Proof.
  revert start folds. induction range as [|i range IH]; intros start folds; simpl.
  - rewrite app_nil_r. reflexivity.
  - rewrite IH. rewrite (IH _ [_]). rewrite <- app_assoc. reflexivity.
Qed.

Lemma split_loop_length {A} (matrix : list A) q r range start folds :
  length (split_loop matrix q r range start folds) = (length folds + length range)%nat.
Proof.
  revert start folds. induction range as [|i range IH]; intros start folds; simpl; [lia|].
  rewrite IH, length_app. simpl. lia.
Qed.

Lemma fold_start_S q r i :
  fold_start q r (S i) = (fold_start q r i + q + (if (i <? r)%nat then 1 else 0))%nat.
Proof.
  unfold fold_start. destruct (Nat.ltb_spec i r); lia.
Qed.

Lemma split_loop_nth {A} (matrix : list A) q r n :
  forall i0 folds j,
    (j < n)%nat ->
    nth_error (split_loop matrix q r (seq i0 n) (fold_start q r i0) folds) (length folds + j)
    = Some (slice matrix (fold_start q r (i0 + j)) (fold_start q r (S (i0 + j)))).
Proof.
  induction n as [|n IH]; intros i0 folds j Hj; [lia|].
  simpl. rewrite <- fold_start_S.
  destruct j as [|j].
  - rewrite split_loop_app, Nat.add_0_r, Nat.add_0_r.
    rewrite nth_error_app1 by (rewrite length_app; simpl; lia).
    rewrite nth_error_app2 by lia. rewrite Nat.sub_diag. reflexivity.
  - specialize (IH (S i0) (folds ++ [slice matrix (fold_start q r i0) (fold_start q r (S i0))]) j).
    rewrite length_app in IH. simpl in IH.
    replace (length folds + S j)%nat with (length folds + 1 + j)%nat by lia.
    rewrite IH by lia. repeat f_equal; lia.
Qed.

Lemma split_loop_concat {A} (matrix : list A) q r n :
  forall i0,
    concat (split_loop matrix q r (seq i0 n) (fold_start q r i0) [])
    = slice matrix (fold_start q r i0) (fold_start q r (i0 + n)).
Proof.
  induction n as [|n IH]; intros i0.
  - simpl. unfold slice. rewrite Nat.add_0_r, Nat.sub_diag. reflexivity.
  - simpl. rewrite <- fold_start_S. rewrite split_loop_app. simpl.
    rewrite IH. unfold slice.
    replace (i0 + S n)%nat with (S i0 + n)%nat by lia.
    assert (fold_start q r i0 <= fold_start q r (S i0))%nat as H1
        by (rewrite fold_start_S; lia).
    assert (fold_start q r (S i0) <= fold_start q r (S i0 + n))%nat as H2.
    { unfold fold_start. nia. }
    set (a := fold_start q r i0) in *. set (b := fold_start q r (S i0)) in *.
    set (c := fold_start q r (S i0 + n)) in *. clearbody a b c.
    replace (c - a)%nat with ((b - a) + (c - b))%nat by lia.
    rewrite <- (firstn_skipn (b - a) (firstn (b - a + (c - b)) (skipn a matrix))).
    f_equal.
    + rewrite firstn_firstn. f_equal. lia.
    + rewrite skipn_firstn_comm. replace (b - a + (c - b) - (b - a))%nat with (c - b)%nat by lia.
      rewrite skipn_skipn. repeat f_equal. lia.
Qed.

Lemma fold_start_last n k : k <> 0%nat -> fold_start (n / k) (n mod k) k = n.
Proof.
  intros Hk. unfold fold_start.
  pose proof (Nat.mod_upper_bound n k Hk). pose proof (Nat.div_mod_eq n k).
  rewrite Nat.min_r by lia. lia.
Qed.

(** X8. [split_csr_matrix] raises ZeroDivisionError for no fold; otherwise
    it returns [n_folds] folds which, put end to end, are the rows of the
    matrix in their order: no row is lost, repeated or moved. *)
Theorem split_csr_matrix_partition (A : Type) (matrix : list A) (n_folds : nat) :
  (n_folds = 0%nat -> split_csr_matrix matrix n_folds = Throw ZeroDivisionError) /\
  (n_folds <> 0%nat ->
   exists folds,
     split_csr_matrix matrix n_folds = Return folds /\
     length folds = n_folds /\ concat folds = matrix).
Proof.
  split.
  - intros ->. reflexivity.
  - intros Hk. unfold split_csr_matrix.
    destruct (Nat.eqb_spec n_folds 0) as [|_]; [contradiction|].
    eexists. split; [reflexivity|]. split.
    + rewrite split_loop_length, length_seq. reflexivity.
    + change 0%nat with (fold_start (length matrix / n_folds) (length matrix mod n_folds) 0) at 2.
      rewrite split_loop_concat. simpl (0 + n_folds)%nat.
      rewrite fold_start_last by exact Hk. unfold slice, fold_start. simpl.
      rewrite Nat.sub_0_r. apply firstn_all.
Qed.

(** X9. Fold [i] of [split_csr_matrix] has [n_rows // n_folds] rows, and one
    more when [i < n_rows % n_folds]: the sizes never increase along the
    folds and differ by one at most; with more folds than rows the last
    folds are empty. *)
Theorem split_csr_matrix_sizes (A : Type) (matrix : list A) (n_folds : nat)
        (folds : list (list A)) :
  split_csr_matrix matrix n_folds = Return folds ->
  forall i fold, nth_error folds i = Some fold ->
    length fold
    = (length matrix / n_folds + (if (i <? length matrix mod n_folds)%nat then 1 else 0))%nat.
Proof.
  unfold split_csr_matrix. destruct (Nat.eqb_spec n_folds 0) as [|Hk]; [discriminate|].
  intros E. injection E as <-. intros i fold Hi.
  assert (i < n_folds)%nat as Hlt.
  { assert (nth_error (split_loop matrix (length matrix / n_folds) (length matrix mod n_folds)
                                  (seq 0 n_folds) 0 []) i <> None) as Hn by congruence.
    apply nth_error_Some in Hn. rewrite split_loop_length, length_seq in Hn. simpl in Hn. lia. }
  set (q := (length matrix / n_folds)%nat) in *. set (r := (length matrix mod n_folds)%nat) in *.
  pose proof (split_loop_nth matrix q r n_folds 0 [] i Hlt) as H.
  change (fold_start q r 0) with 0%nat in H. change (length (@nil (list A)) + i)%nat with i in H.
  change (0 + i)%nat with i in H.
  rewrite H in Hi. injection Hi as <-.
  unfold slice. rewrite length_firstn, length_skipn.
  assert (fold_start q r (S i) <= length matrix)%nat as Hb.
  { pose proof (fold_start_last (length matrix) n_folds Hk) as HL. fold q r in HL.
    unfold fold_start in *.
    assert (S i * q <= n_folds * q)%nat by (apply Nat.mul_le_mono_r; lia). lia. }
  rewrite fold_start_S in *. destruct (i <? r)%nat; lia.
Qed.

Lemma split_csr_matrix_sizes_witness :
  split_csr_matrix (seq 1 7) 3 = Return [[1; 2; 3]; [4; 5]; [6; 7]]%nat /\
  length [1; 2; 3]%nat
  = (length (seq 1 7) / 3 + (if (0 <? length (seq 1 7) mod 3)%nat then 1 else 0))%nat.
Proof.
  split; [reflexivity|].
  apply (split_csr_matrix_sizes nat (seq 1 7) 3 [[1; 2; 3]; [4; 5]; [6; 7]]%nat eq_refl
           0%nat [1; 2; 3]%nat eq_refl).
Defined.

(** * Further properties of the cross predictor *)

Lemma mapM_nth {A B} (f : A -> result B) l r i a :
  mapM f l = Ok r -> nth_error l i = Some a ->
  exists b, nth_error r i = Some b /\ f a = Ok b.
Proof.
  revert r i. induction l as [|x l IH]; intros r i H Hi; [destruct i; discriminate|].
  simpl in H. destruct (f x) as [b0|] eqn:E; [|discriminate]. cbn [bind] in H.
  destruct (mapM f l) as [r'|] eqn:E'; [|discriminate]. cbn [bind] in H. injection H as <-.
  destruct i as [|i].
  - injection Hi as <-. exists b0. split; [reflexivity | exact E].
  - simpl in Hi |- *. apply (IH r' i eq_refl Hi).
Qed.

Lemma nth_error_combine_Some {A B} (l1 : list A) (l2 : list B) i a b :
  nth_error l1 i = Some a -> nth_error l2 i = Some b -> nth_error (combine l1 l2) i = Some (a, b).
Proof.
  revert l2 i. induction l1 as [|x l1 IH]; intros [|y l2] [|i] H1 H2; try discriminate.
  - injection H1 as ->. injection H2 as ->. reflexivity.
  - simpl in *. apply IH; assumption.
Qed.

Lemma take_idx_combine {A B} (X : list A) (y : list B) idx xs ys :
  take_idx X idx = Ok xs -> take_idx y idx = Ok ys ->
  take_idx (combine X y) idx = Ok (combine xs ys).
Proof.
  unfold take_idx. revert xs ys. induction idx as [|i idx IH]; intros xs ys Hx Hy.
  - injection Hx as <-. injection Hy as <-. reflexivity.
  - simpl in Hx, Hy |- *.
    unfold getitem in Hx at 1. destruct (nth_error X i) as [a|] eqn:Ea; [|discriminate].
    unfold getitem in Hy at 1. destruct (nth_error y i) as [b|] eqn:Eb; [|discriminate].
    cbn [bind] in Hx, Hy.
    destruct (mapM (getitem X) idx) as [xs'|]; [|discriminate].
    destruct (mapM (getitem y) idx) as [ys'|]; [|discriminate].
    cbn [bind] in Hx, Hy. injection Hx as <-. injection Hy as <-.
    unfold getitem at 1. rewrite (nth_error_combine_Some _ _ _ _ _ Ea Eb). cbn [bind].
    rewrite (IH xs' ys' eq_refl eq_refl). reflexivity.
Qed.

(** X10. [create_n_splits] returns one split per pair of index arrays of the
    splitter, and in every split the rows and the labels stay aligned: the
    training part and the calibration part are the (row, label) pairs at
    the training and at the calibration indices. *)
Theorem create_n_splits_aligned (Row : Type)
        (stratified_kfold : nat -> list Row -> list Z -> result (list (list nat * list nat)))
        (X : list Row) (y : list Z) (n_folds : nat) (sp : CVAP.splits Row) :
  CVAP.create_n_splits stratified_kfold X y n_folds = Ok sp ->
  exists idx,
    stratified_kfold n_folds X y = Ok idx /\
    length (fst sp) = length idx /\ length (snd sp) = length idx /\
    forall i train_index cal_index,
      nth_error idx i = Some (train_index, cal_index) ->
      exists X_train X_cal y_train y_cal,
        nth_error (fst sp) i = Some (X_train, X_cal) /\
        nth_error (snd sp) i = Some (y_train, y_cal) /\
        take_idx (combine X y) train_index = Ok (combine X_train y_train) /\
        take_idx (combine X y) cal_index = Ok (combine X_cal y_cal).
Proof.
  unfold CVAP.create_n_splits. intros H.
  destruct (stratified_kfold n_folds X y) as [idx|]; [|discriminate]. cbn [bind] in H.
  match type of H with bind (mapM ?f idx) _ = _ => destruct (mapM f idx) as [l|] eqn:E end;
    [|discriminate].
  cbn [bind] in H. injection H as <-. exists idx. split; [reflexivity|].
  pose proof (mapM_length _ _ _ E) as HL. cbn [fst snd]. rewrite !length_map.
  split; [exact HL|]. split; [exact HL|].
  intros i tr cal Hi. destruct (mapM_nth _ _ _ _ _ E Hi) as ([[xt xc] [yt yc]] & Hb & Ef).
  exists xt, xc, yt, yc. rewrite !nth_error_map, Hb. split; [reflexivity|]. split; [reflexivity|].
  destruct (take_idx X tr) as [a|] eqn:E1; [|discriminate]. cbn [bind] in Ef.
  destruct (take_idx X cal) as [b|] eqn:E2; [|discriminate]. cbn [bind] in Ef.
  destruct (take_idx y tr) as [c|] eqn:E3; [|discriminate]. cbn [bind] in Ef.
  destruct (take_idx y cal) as [d|] eqn:E4; [|discriminate]. cbn [bind] in Ef.
  injection Ef as <- <- <- <-.
  split; apply take_idx_combine; assumption.
Qed.

Lemma create_n_splits_aligned_witness :
  exists idx,
    balanced_kfold 2 (seq 0 4) balanced_labels = Ok idx /\
    length (fst balanced_splits) = length idx /\ length (snd balanced_splits) = length idx /\
    forall i train_index cal_index,
      nth_error idx i = Some (train_index, cal_index) ->
      exists X_train X_cal y_train y_cal,
        nth_error (fst balanced_splits) i = Some (X_train, X_cal) /\
        nth_error (snd balanced_splits) i = Some (y_train, y_cal) /\
        take_idx (combine (seq 0 4) balanced_labels) train_index = Ok (combine X_train y_train) /\
        take_idx (combine (seq 0 4) balanced_labels) cal_index = Ok (combine X_cal y_cal).
Proof.
  apply (create_n_splits_aligned nat balanced_kfold (seq 0 4) balanced_labels 2 balanced_splits).
  reflexivity.
Defined.

Local Open Scope Q_scope.

Lemma well_fitted_interval c s :
  well_fitted c ->
  0 <= fst (ivap_interval c s) /\ fst (ivap_interval c s) < 1 /\
  0 < snd (ivap_interval c s) /\ snd (ivap_interval c s) <= 1.
Proof.
  intros (ue & vs & ws & -> & Hf & Hne). unfold ivap_interval. cbn [IVAP.unique_elements IVAP.F0 IVAP.F1].
  destruct (interval_bounds ue vs ws Hf Hne s) as (H0 & H1 & _ & H2 & H3). auto.
Qed.

(** X11. On a cross predictor returned by [fit], for a fusion function that
    is positive on positive samples, [predict_proba] of a non-empty vector
    returns one probability per score: all 0 when no fold was retained,
    all strictly between 0 and 1 otherwise. *)
Theorem cvap_predict_proba_range (Row : Type)
        (stratified_kfold : nat -> list Row -> list Z -> result (list (list nat * list nat)))
        (estimator_scores : list Row -> list Z -> list Row -> result (list Qc))
        (gmean : list Q -> Q)
        (self : CVAP.t) (y : list Z) (scores : list Qc) (X : list Row)
        (log : list CVAP.event) (m : CVAP.t) (tests : list Qc) :
  (forall a, a <> [] -> Forall (fun x => 0 < x) a -> 0 < gmean a) ->
  CVAP.fit stratified_kfold estimator_scores self y scores X = (log, Ok m) ->
  tests <> [] ->
  exists ps,
    CVAP.predict_proba gmean m tests = Ok ps /\ length ps = length tests /\
    ((CVAP.ivaps m = Some [] /\ Forall (fun p => p = 0) ps) \/
     (CVAP.ivaps m <> Some [] /\ Forall (fun p => 0 < p /\ p < 1) ps)).
Proof.
  intros Hg E Ht.
  destruct (cvap_fit_well_fitted Row estimator_scores stratified_kfold self y scores X log m E)
    as (Hfit & l & Hiv & Hwf).
  destruct l as [|c l].
  - exists (repeat 0 (length tests)). split.
    + destruct m as [f n iv]. simpl in Hfit, Hiv. subst. reflexivity.
    + split; [apply repeat_length|]. left. split; [exact Hiv|].
      apply Forall_forall. intros p Hp. apply repeat_spec in Hp. exact Hp.
  - exists (map (fused gmean (c :: l)) tests). split.
    + apply (cvap_predict_proba_fused gmean m (c :: l) tests Hfit Hiv Hwf); [discriminate | exact Ht].
    + split; [apply length_map|]. right. split; [rewrite Hiv; discriminate|].
      apply Forall_forall. intros p Hp. apply in_map_iff in Hp. destruct Hp as (s & <- & _).
      unfold fused.
      set (a := gmean (map (fun c0 => snd (ivap_interval c0 s)) (c :: l))).
      set (b := gmean (map (fun c0 => 1 - fst (ivap_interval c0 s)) (c :: l))).
      assert (0 < a) as Ha.
      { apply Hg; [discriminate|]. apply Forall_forall. intros x Hx.
        apply in_map_iff in Hx. destruct Hx as (c0 & <- & Hc0).
        rewrite Forall_forall in Hwf. destruct (well_fitted_interval c0 s (Hwf c0 Hc0)). tauto. }
      assert (0 < b) as Hb.
      { apply Hg; [discriminate|]. apply Forall_forall. intros x Hx.
        apply in_map_iff in Hx. destruct Hx as (c0 & <- & Hc0).
        rewrite Forall_forall in Hwf. destruct (well_fitted_interval c0 s (Hwf c0 Hc0)) as (_ & H & _).
        lra. }
      clearbody a b. split.
      * apply Qlt_shift_div_l; lra.
      * apply Qlt_shift_div_r; lra.
Qed.

Lemma cvap_predict_proba_range_witness :
  exists ps,
    CVAP.predict_proba any_gmean balanced_cvap [qc 1 2] = Ok ps /\ length ps = 1%nat /\
    ((CVAP.ivaps balanced_cvap = Some [] /\ Forall (fun p => p = 0) ps) \/
     (CVAP.ivaps balanced_cvap <> Some [] /\ Forall (fun p => 0 < p /\ p < 1) ps)).
Proof.
  apply (cvap_predict_proba_range nat balanced_kfold half_scores any_gmean (CVAP.init 2)
           balanced_labels [] (seq 0 4)
           [CVAP.CreateSplits; CVAP.TrainModel 0; CVAP.TrainModel 1]).
  - intros a _ _. reflexivity.
  - vm_compute. reflexivity.
  - discriminate.
Defined.

(** * Further properties of the dispatcher's [predict_proba] *)

Lemma update_Forall {A} (P : A -> Prop) (a : list A) i v :
  Forall P a -> P v -> Forall P (update a i v).
Proof.
  intros Ha Hv. revert i. induction Ha as [|x a Hx Ha IH]; intros [|i]; simpl;
    try constructor; auto.
Qed.

Lemma broadcast_Forall (P : Q -> Prop) n v col :
  Calibrator.broadcast n v = Ok col -> Forall P v -> length col = n /\ Forall P col.
Proof.
  intros E Hv. split; [apply (broadcast_length _ _ _ E)|]. unfold Calibrator.broadcast in E.
  destruct (length v =? n)%nat; [injection E as <-; exact Hv|].
  destruct (length v =? 1)%nat eqn:E1; [|discriminate]. injection E as <-.
  apply Forall_forall. intros x Hx. apply repeat_spec in Hx. subst x.
  destruct v as [|x v]; [discriminate|]. simpl. apply Forall_inv in Hv. exact Hv.
Qed.

Lemma Forall_pos_nonneg l : Forall (fun v => 0 < v) l -> Forall (fun v => 0 <= v) l.
Proof. apply Forall_impl. intros a H. apply Qlt_le_weak. exact H. Qed.

Section MulticlassFold.

Variable C : Type.
Context {BC : Calibrator.BinaryCalibrator C}.
Variable cs : list C.
Variable n : nat.
Hypothesis Hpos : forall c split v,
  In c cs -> Calibrator.calibrator_predict_proba c split = Ok v -> Forall (fun p => 0 < p) v.

Lemma multiclass_fold splits :
forall t P P',
  Forall (col_ok n) P -> (t <> 0%nat -> first_positive P) ->
  foldM (fun probabilities (entry : nat * list Qc) =>
           let (idx, split) := entry in
           calibrator <- getitem cs idx ;;
           v <- Calibrator.calibrator_predict_proba calibrator split ;;
           Calibrator.set_column n probabilities idx v)
        (combine (seq t (length splits)) splits) P = Ok P' ->
  length P' = length P /\ Forall (col_ok n) P' /\
  ((t + length splits)%nat <> 0%nat -> first_positive P').
Proof.
induction splits as [|split splits IH]; intros t P P' HP Ht H.
- simpl in H. injection H as <-. split; [reflexivity|]. split; [exact HP|].
  rewrite Nat.add_0_r. exact Ht.
- simpl in H.
  unfold getitem in H at 1. destruct (nth_error cs t) as [c|] eqn:Ec; [|discriminate].
  cbn [bind] in H.
  destruct (Calibrator.calibrator_predict_proba c split) as [v|] eqn:Ev; [|discriminate].
  cbn [bind] in H. unfold Calibrator.set_column in H at 1.
  destruct (Nat.ltb_spec t (length P)) as [Hlt|]; [|discriminate].
  destruct (Calibrator.broadcast n v) as [col|] eqn:Ecol; [|discriminate]. cbn [bind] in H.
  pose proof (Hpos c split v (nth_error_In _ _ Ec) Ev) as Hv.
  destruct (broadcast_Forall _ n v col Ecol Hv) as [Hlen Hcol].
  destruct (IH (S t) (update P t col) P') as (H1 & H2 & H3).
  + apply update_Forall; [exact HP|]. split; [exact Hlen | apply Forall_pos_nonneg; exact Hcol].
  + intros _. destruct t as [|t].
    * destruct P as [|c0 P]; [simpl in Hlt; lia|]. exists col. split; [reflexivity | exact Hcol].
    * destruct (Ht (Nat.neq_succ_0 t)) as (c0 & E0 & Hc0). exists c0. split; [|exact Hc0].
      destruct P as [|x P]; [discriminate|]. exact E0.
  + exact H.
  + rewrite update_length in H1. split; [exact H1|]. split; [exact H2|].
    intros _. apply H3. simpl. lia.
Qed.

End MulticlassFold.

Lemma Qsum_nonneg l : Forall (fun v => 0 <= v) l -> 0 <= Calibrator.Qsum l.
Proof.
  induction 1 as [|x l Hx Hl IH]; simpl; [lra|]. lra.
Qed.

Lemma Qsum_ge l x : Forall (fun v => 0 <= v) l -> In x l -> x <= Calibrator.Qsum l.
Proof.
  induction 1 as [|y l Hy Hl IH]; intros Hin; [destruct Hin|].
  simpl. pose proof (Qsum_nonneg l Hl). destruct Hin as [<-|Hin]; [lra|].
  specialize (IH Hin). lra.
Qed.

Lemma normalized_simplex raw :
  Forall (fun v => 0 <= v) raw -> 0 < Calibrator.Qsum raw ->
  simplex_row (length raw) (map (fun x => Calibrator.np_divide x (Calibrator.Qsum raw)) raw).
Proof.
  intros Hraw Hs. set (S := Calibrator.Qsum raw) in *.
  exists (map (fun x => x / S) raw). split.
  - rewrite map_map. apply map_ext. intros x. unfold Calibrator.np_divide.
    destruct (Qeq_bool S 0) eqn:E; [|reflexivity]. apply Qeq_bool_iff in E. lra.
  - split; [apply length_map|]. split.
    + rewrite Qsum_div. fold S. field. lra.
    + apply Forall_forall. intros p Hp. apply in_map_iff in Hp. destruct Hp as (x & <- & Hx).
      pose proof (Qsum_ge raw x Hraw Hx) as Hle. fold S in Hle.
      rewrite Forall_forall in Hraw. specialize (Hraw x Hx). simpl in Hraw. split.
      * apply Qle_shift_div_l; lra.
      * apply Qle_shift_div_r; lra.
Qed.

Lemma multiclass_rows (C : Type) (BC : Calibrator.BinaryCalibrator C)
      (self : Calibrator.t C) n_samples test_scores M :
  (forall c split v, In c (Calibrator.calibrators self) ->
                     Calibrator.calibrator_predict_proba c split = Ok v ->
                     Forall (fun p => 0 < p) v) ->
  Calibrator.multiclass self = true -> test_scores <> [] ->
  Calibrator.predict_proba self n_samples test_scores = Ok M ->
  length M = n_samples /\ Forall (simplex_row (Calibrator.n_classes self)) M.
Proof.
  intros Hpos Hm Hts. unfold Calibrator.predict_proba. rewrite Hm.
  match goal with |- bind ?c _ = _ -> _ => destruct c as [P|] eqn:E end; [|discriminate].
  cbn [bind]. intros EM. injection EM as <-.
  unfold enumerate in E.
  destruct (multiclass_fold C (Calibrator.calibrators self) n_samples Hpos test_scores 0%nat
              (repeat (repeat 0 n_samples) (Calibrator.n_classes self)) P)
    as (H1 & H2 & H3).
  - apply Forall_forall. intros col Hc. apply repeat_spec in Hc. subst col. split.
    + apply repeat_length.
    + apply Forall_forall. intros v Hv. apply repeat_spec in Hv. subst v. lra.
  - intros H. congruence.
  - exact E.
  - rewrite repeat_length in H1.
    split; [rewrite length_map; unfold Calibrator.rows; rewrite length_map; apply length_seq|].
    destruct H3 as (c0 & E0 & Hc0); [destruct test_scores; simpl; [congruence | lia]|].
    apply Forall_forall. intros row Hrow. apply in_map_iff in Hrow. destruct Hrow as (raw & <- & Hraw).
    unfold Calibrator.rows in Hraw. apply in_map_iff in Hraw. destruct Hraw as (r & <- & Hr).
    apply in_seq in Hr.
    set (raw := map (fun col => nth r col 0) P).
    assert (length raw = Calibrator.n_classes self) as <- by (unfold raw; rewrite length_map; exact H1).
    assert (Forall (fun v => 0 <= v) raw) as Hnn.
    { apply Forall_forall. intros x Hx. apply in_map_iff in Hx. destruct Hx as (col & <- & Hcol).
      rewrite Forall_forall in H2. destruct (H2 col Hcol) as [Hl Hc].
      rewrite Forall_forall in Hc. apply Hc. apply nth_In. lia. }
    apply normalized_simplex; [exact Hnn|].
    destruct P as [|c0' P]; [discriminate|]. injection E0 as ->.
    assert (0 < nth r c0 0) as Hp.
    { rewrite Forall_forall in Hc0. apply Hc0. apply nth_In.
      apply Forall_inv in H2. destruct H2 as [Hl _]. lia. }
    unfold raw in *. cbn [map] in *. apply Forall_inv_tail in Hnn.
    pose proof (Qsum_nonneg _ Hnn) as Hs. cbn [Calibrator.Qsum fold_right].
    unfold Calibrator.Qsum in Hs. lra.
Qed.

Lemma ivap_predictions_positive c split v :
  (exists y scores, y <> [] /\ IVAP.fit IVAP.init y scores = Ok c) ->
  IVAP.predict_proba c split = Ok v -> Forall (fun p => 0 < p) v.
Proof.
  intros (y & scores & Hy & E) Ev.
  destruct (fit_Ok_facts IVAP.init y scores c E Hy) as (ue & vs & ws & -> & Hf & Hne).
  rewrite (predict_proba_eq ue vs ws Hf Hne) in Ev. injection Ev as <-.
  apply Forall_forall. intros p Hp. apply in_map_iff in Hp. destruct Hp as (s & <- & _).
  destruct (interval_bounds ue vs ws Hf Hne s) as (H0 & H1 & _ & Hp & _).
  apply merge_strict; assumption.
Qed.

(** X12. In multiclass mode with inductive predictors, each fitted on a
    non-empty calibration set, every row that [predict_proba] returns for at
    least one column of scores is a proper distribution: finite entries
    between 0 and 1 of sum 1; the normalisation never divides by zero. *)
Theorem calibrator_ivap_simplex (self : Calibrator.t IVAP.t) (n_samples : nat)
        (test_scores : list (list Qc)) (M : list (list (option Q))) :
  Calibrator.multiclass self = true -> test_scores <> [] ->
  Forall (fun c => exists y scores, y <> [] /\ IVAP.fit IVAP.init y scores = Ok c)
         (Calibrator.calibrators self) ->
  Calibrator.predict_proba (BC := Calibrator.ivap_calibrator) self n_samples test_scores = Ok M ->
  length M = n_samples /\ Forall (simplex_row (Calibrator.n_classes self)) M.
Proof.
  intros Hm Hts Hcs. apply (multiclass_rows IVAP.t Calibrator.ivap_calibrator); [|exact Hm|exact Hts].
  intros c split v Hc Ev. rewrite Forall_forall in Hcs.
  apply (ivap_predictions_positive c split v (Hcs c Hc) Ev).
Qed.

Lemma calibrator_ivap_simplex_witness :
  length ivap_calibrator3_output = 1%nat /\
  Forall (simplex_row (Calibrator.n_classes ivap_calibrator3)) ivap_calibrator3_output.
Proof.
  apply (calibrator_ivap_simplex ivap_calibrator3 1 [[qc 1 10]; [qc 2 10]; [qc 1 1]]).
  - reflexivity.
  - discriminate.
  - assert (exists y scores, y <> [] /\ IVAP.fit IVAP.init y scores = Ok example_ivap) as H
        by (exists example_labels, example_scores; split; [discriminate | exact example_ivap_fit]).
    repeat constructor; exact H.
  - vm_compute. reflexivity.
Defined.

Lemma binary_rows_range (C : Type) (BC : Calibrator.BinaryCalibrator C) (P : Q -> Prop)
      (self : Calibrator.t C) (n_samples : nat) (test_scores : list (list Qc))
      (M : list (list (option Q))) :
  (forall c split v, In c (Calibrator.calibrators self) ->
                     Calibrator.calibrator_predict_proba c split = Ok v -> Forall P v) ->
  Calibrator.multiclass self = false ->
  Calibrator.predict_proba self n_samples test_scores = Ok M ->
  length M = n_samples /\
  Forall (fun row => exists p, row = [Some (1 - p); Some p] /\ P p) M.
Proof.
  intros HP Hm. unfold Calibrator.predict_proba. rewrite Hm.
  unfold getitem at 1. destruct (nth_error (Calibrator.calibrators self) 0) as [c|] eqn:Ec;
    [|discriminate]. cbn [bind].
  unfold getitem at 1. destruct (nth_error test_scores 1) as [split|] eqn:Es; [|discriminate].
  cbn [bind].
  destruct (Calibrator.calibrator_predict_proba c split) as [v|] eqn:Ev; [|discriminate].
  cbn [bind].
  change (repeat (repeat 0 n_samples) 2) with [repeat 0 n_samples; repeat 0 n_samples].
  unfold Calibrator.set_column at 1. cbn [length].
  change (1 <? 2)%nat with true. cbv iota.
  destruct (Calibrator.broadcast n_samples v) as [col|] eqn:Ecol; [|discriminate].
  cbn [bind update]. unfold getitem at 1. cbn [nth_error bind].
  unfold Calibrator.set_column. cbn [length]. change (0 <? 2)%nat with true. cbv iota.
  pose proof (HP c split v (nth_error_In _ _ Ec) Ev) as Hv.
  destruct (broadcast_Forall P n_samples v col Ecol Hv) as [Hcol HPcol].
  unfold Calibrator.broadcast at 1. rewrite length_map, Hcol, Nat.eqb_refl. cbn [bind].
  simpl update. intros E. injection E as <-. split.
  - rewrite length_map. unfold Calibrator.rows. rewrite length_map. apply length_seq.
  - apply Forall_forall. intros row Hrow. apply in_map_iff in Hrow.
    destruct Hrow as (raw & <- & Hraw). unfold Calibrator.rows in Hraw.
    apply in_map_iff in Hraw. destruct Hraw as (r & <- & Hr). apply in_seq in Hr.
    exists (nth r col 0). split.
    + simpl. rewrite (nth_map_in (fun p => 1 - p) col 0 r) by lia. reflexivity.
    + rewrite Forall_forall in HPcol. apply HPcol. apply nth_In. lia.
Qed.

Lemma ivap_predictions_range c split v :
  (exists y scores, y <> [] /\ IVAP.fit IVAP.init y scores = Ok c) ->
  IVAP.predict_proba c split = Ok v -> Forall (fun p => 0 < p /\ p < 1) v.
Proof.
  intros (y & scores & Hy & E) Ev.
  destruct (fit_Ok_facts IVAP.init y scores c E Hy) as (ue & vs & ws & -> & Hf & Hne).
  rewrite (predict_proba_eq ue vs ws Hf Hne) in Ev. injection Ev as <-.
  apply Forall_forall. intros p Hp. apply in_map_iff in Hp. destruct Hp as (s & <- & _).
  destruct (interval_bounds ue vs ws Hf Hne s) as (H0 & H1 & _ & Hp & _).
  apply merge_strict; assumption.
Qed.

(** X13. In binary mode [predict_proba] uses the first calibrator and the
    second column of the scores only; row [r] of its result is
    [1 - p, p] for the calibrated probability [p] of sample [r]. *)
Theorem calibrator_binary_rows (C : Type) (BC : Calibrator.BinaryCalibrator C)
        (self : Calibrator.t C) (n_samples : nat) (test_scores : list (list Qc))
        (M : list (list (option Q))) :
  Calibrator.multiclass self = false ->
  Calibrator.predict_proba self n_samples test_scores = Ok M ->
  exists c split v col,
    nth_error (Calibrator.calibrators self) 0 = Some c /\
    nth_error test_scores 1 = Some split /\
    Calibrator.calibrator_predict_proba c split = Ok v /\
    Calibrator.broadcast n_samples v = Ok col /\
    M = map (fun r => [Some (1 - nth r col 0); Some (nth r col 0)]) (seq 0 n_samples).
Proof.
  intros Hm. unfold Calibrator.predict_proba. rewrite Hm.
  unfold getitem at 1. destruct (nth_error (Calibrator.calibrators self) 0) as [c|] eqn:Ec;
    [|discriminate]. cbn [bind].
  unfold getitem at 1. destruct (nth_error test_scores 1) as [split|] eqn:Es; [|discriminate].
  cbn [bind].
  destruct (Calibrator.calibrator_predict_proba c split) as [v|] eqn:Ev; [|discriminate].
  cbn [bind].
  change (repeat (repeat 0 n_samples) 2) with [repeat 0 n_samples; repeat 0 n_samples].
  unfold Calibrator.set_column at 1. cbn [length].
  change (1 <? 2)%nat with true. cbv iota.
  destruct (Calibrator.broadcast n_samples v) as [col|] eqn:Ecol; [|discriminate].
  cbn [bind update]. unfold getitem at 1. cbn [nth_error bind].
  unfold Calibrator.set_column. cbn [length]. change (0 <? 2)%nat with true. cbv iota.
  pose proof (broadcast_length _ _ _ Ecol) as Hcol.
  unfold Calibrator.broadcast at 1. rewrite length_map, Hcol, Nat.eqb_refl. cbn [bind].
  simpl update. intros E. injection E as <-.
  exists c, split, v, col. split; [reflexivity|]. split; [reflexivity|].
  split; [exact Ev|]. split; [exact Ecol|].
  unfold Calibrator.rows. rewrite map_map. apply map_ext_in. intros r Hr. apply in_seq in Hr.
  simpl. rewrite (nth_map_in (fun p => 1 - p) col 0 r) by lia. reflexivity.
Qed.

Lemma calibrator_binary_rows_witness :
  exists c split v col,
    nth_error (Calibrator.calibrators ivap_calibrator2) 0 = Some c /\
    nth_error [[qc 1 2; qc 1 2]; [qc 1 10; qc 1 1]] 1 = Some split /\
    Calibrator.calibrator_predict_proba (BinaryCalibrator := Calibrator.ivap_calibrator) c split = Ok v /\
    Calibrator.broadcast 2 v = Ok col /\
    ivap_calibrator2_output
    = map (fun r => [Some (1 - nth r col 0); Some (nth r col 0)]) (seq 0 2).
Proof.
  apply (calibrator_binary_rows IVAP.t Calibrator.ivap_calibrator ivap_calibrator2 2
           [[qc 1 2; qc 1 2]; [qc 1 10; qc 1 1]]).
  - reflexivity.
  - vm_compute. reflexivity.
Defined.

(** * The cumulative sum diagram *)

Lemma last1_cons {A} (x : A) l : l <> [] -> last1 (x :: l) = last1 l.
Proof.
  intros H. unfold last1. simpl. destruct (rev l) as [|y r] eqn:E.
  - apply (f_equal (@rev A)) in E. rewrite rev_involutive in E. contradiction.
  - reflexivity.
Qed.

Lemma csd_last (W T : list Q) :
  length W = length T ->
  forall a b, exists p,
    last1 ((a, b) :: combine (cumsum_from a W) (cumsum_from b T)) = Ok p /\
    fst p == a + Calibrator.Qsum W /\ snd p == b + Calibrator.Qsum T.
Proof.
  revert T. induction W as [|w W IH]; intros [|t T] HL a b; try discriminate.
  - exists (a, b). split; [reflexivity|]. simpl. split; ring.
  - simpl. injection HL as HL. destruct (IH T HL (a + w) (b + t)) as (p & E & H1 & H2).
    exists p. split.
    + rewrite last1_cons by discriminate. exact E.
    + rewrite H1, H2. simpl. split; ring.
Qed.

Lemma indicator_sum (ue : list Qc) x :
  NoDup ue -> In x ue ->
  fold_right Nat.add 0%nat (map (fun u => if Qc_eqb u x then 1%nat else 0%nat) ue) = 1%nat.
Proof.
  induction 1 as [|u ue Hu Hnd IH]; intros Hin; [destruct Hin|].
  simpl. destruct (Qc_eqb u x) eqn:E.
  - apply Qc_eqb_eq in E. subst u.
    assert (fold_right Nat.add 0%nat (map (fun u => if Qc_eqb u x then 1%nat else 0%nat) ue) = 0%nat)
      as ->; [|reflexivity].
    clear - Hu. induction ue as [|v ue IH]; [reflexivity|]. simpl.
    destruct (Qc_eqb v x) eqn:E; [apply Qc_eqb_eq in E; subst; exfalso; apply Hu; left; reflexivity|].
    apply IH. intros H. apply Hu. right. exact H.
  - destruct Hin as [->|Hin]; [rewrite Qc_eqb_refl in E; discriminate|]. apply IH. exact Hin.
Qed.

Lemma counts_sum (ue ocs : list Qc) :
  NoDup ue -> incl ocs ue ->
  fold_right Nat.add 0%nat (map (fun u => count_of u ocs) ue) = length ocs.
Proof.
  intros Hnd. induction ocs as [|x ocs IH]; intros Hin.
  - unfold count_of. simpl. clear. induction ue as [|u ue IHu]; [reflexivity | exact IHu].
  - simpl. rewrite <- IH by (intros z Hz; apply Hin; right; exact Hz).
    pose proof (indicator_sum ue x Hnd (Hin x (or_introl eq_refl))) as Hone.
    assert (forall ue',
      fold_right Nat.add 0%nat (map (fun u => count_of u (x :: ocs)) ue')
      = (fold_right Nat.add 0%nat (map (fun u => if Qc_eqb u x then 1%nat else 0%nat) ue')
         + fold_right Nat.add 0%nat (map (fun u => count_of u ocs) ue'))%nat) as G.
    { induction ue' as [|u ue' IHu]; [reflexivity|]. simpl. rewrite IHu.
      unfold count_of. simpl. destruct (Qc_eqb u x); simpl; lia. }
    rewrite G, Hone. reflexivity.
Qed.

Lemma positives_sum (ue ocs : list Qc) (ocl : list Z) :
  NoDup ue -> incl ocs ue -> length ocs = length ocl ->
  fold_right Z.add 0%Z (map (fun u => positives ocs ocl u) ue) = Zsum ocl.
Proof.
  intros Hnd. revert ocl. induction ocs as [|x ocs IH]; intros [|l ocl] Hin HL; try discriminate.
  - unfold positives. simpl. clear. induction ue as [|u ue IHu]; [reflexivity | exact IHu].
  - injection HL as HL. change (Zsum (l :: ocl)) with (l + Zsum ocl)%Z.
    rewrite <- (IH ocl) by (try (intros z Hz; apply Hin; right); assumption).
    pose proof (indicator_sum ue x Hnd (Hin x (or_introl eq_refl))) as Hone.
    assert (forall ue',
      fold_right Z.add 0%Z (map (fun u => positives (x :: ocs) (l :: ocl) u) ue')
      = (l * Z.of_nat (fold_right Nat.add 0%nat
                         (map (fun u => if Qc_eqb u x then 1%nat else 0%nat) ue'))
         + fold_right Z.add 0%Z (map (fun u => positives ocs ocl u) ue'))%Z) as G.
    { induction ue' as [|u ue' IHu]; [simpl; lia|]. simpl. rewrite IHu.
      unfold positives at 1. simpl. rewrite (Qc_eqb_sym x u).
      destruct (Qc_eqb u x); simpl; unfold positives, Zsum; lia. }
    rewrite G, Hone. lia.
Qed.

Lemma Qsum_of_nat (f : Qc -> nat) ue :
  Calibrator.Qsum (map (fun u => Q_of_nat (f u)) ue)
  == Q_of_nat (fold_right Nat.add 0%nat (map f ue)).
Proof.
  induction ue as [|u ue IH]; [reflexivity|]. simpl. rewrite IH. unfold Q_of_nat.
  rewrite Nat2Z.inj_add, inject_Z_plus. reflexivity.
Qed.

Lemma Qsum_of_Z (f : Qc -> Z) ue :
  Calibrator.Qsum (map (fun u => inject_Z (f u)) ue)
  == inject_Z (fold_right Z.add 0%Z (map f ue)).
Proof.
  induction ue as [|u ue IH]; [reflexivity|]. simpl. rewrite IH, inject_Z_plus. reflexivity.
Qed.

Lemma Qsum_ext_in {A} (f g : A -> Q) l :
  (forall x, In x l -> f x == g x) -> Calibrator.Qsum (map f l) == Calibrator.Qsum (map g l).
Proof.
  induction l as [|x l IH]; intros H; [reflexivity|]. simpl.
  rewrite (H x (or_introl eq_refl)), IH by (intros z Hz; apply H; right; exact Hz). reflexivity.
Qed.

Lemma StronglySorted_Qclt_NoDup l : StronglySorted Qclt l -> NoDup l.
Proof.
  induction 1 as [|x l Hl IH Hx]; constructor; [|exact IH].
  intros Hin. rewrite Forall_forall in Hx. specialize (Hx x Hin).
  apply Qclt_not_le in Hx. apply Hx. apply Qcle_refl.
Qed.

(** X14. The diagram that [compute_csd] builds in exact arithmetic, as
    [fit] calls it on scores and binary labels of the same length: one
    point more than there are distinct scores, from (0, 0) to (number of
    samples, number of positive labels); from a point to a later one the
    abscissa grows by 1 at least and the ordinate by between 0 and the
    growth of the abscissa. *)
Theorem compute_csd_diagram (ocs : list Qc) (ocl : list Z) :
  length ocs = length ocl -> (forall l, In l ocl -> l = 0%Z \/ l = 1%Z) ->
  exists csd lastp,
    (let '(unique_elements, unique_idx, unique_element_counts) := np_unique ocs in
     oucs <- take_idx ocs unique_idx ;;
     IVAP.compute_csd (length unique_idx) unique_elements unique_element_counts ocs ocl oucs)
    = Ok csd /\
    length csd = S (length (unique_values ocs)) /\
    nth_error csd 0 = Some (0, 0) /\
    last1 csd = Ok lastp /\
    fst lastp == Q_of_nat (length ocs) /\ snd lastp == inject_Z (Zsum ocl) /\
    path Fwd csd.
Proof.
  intros HL Hl. set (ue := unique_values ocs).
  assert (forall u, In u ue -> In u ocs) as Hin by (intros u; apply unique_values_In).
  destruct (csd_last (map (weight ocs) ue) (map (fun u => rate ocs ocl u * weight ocs u) ue))
    with (a := 0) (b := 0) as (lastp & Elast & Hx & Hy); [rewrite !length_map; reflexivity|].
  exists (csd_of ocs ocl ue), lastp.
  assert (NoDup ue) as Hnd by (apply StronglySorted_Qclt_NoDup, unique_values_strict).
  assert (incl ocs ue) as Hincl by (intros u Hu; apply unique_values_complete; exact Hu).
  split; [|split; [apply csd_of_length|split; [reflexivity|split; [exact Elast|split; [|split]]]]].
  - unfold np_unique. fold (unique_values ocs). fold ue.
    assert (take_idx ocs (map (fun v => index_of v ocs) ue) = Ok ue) as ->.
    { unfold take_idx. rewrite mapM_map. rewrite <- (map_id ue) at 2. apply mapM_ok.
      intros x Hx'. apply getitem_In. apply index_of_nth. apply Hin. exact Hx'. }
    cbn [bind]. rewrite length_map. apply compute_csd_eq.
  - rewrite Hx. unfold weight. rewrite Qsum_of_nat, (counts_sum ue ocs Hnd Hincl). ring.
  - rewrite Hy.
    rewrite (Qsum_ext_in _ (fun u => inject_Z (positives ocs ocl u)))
      by (intros u Hu; apply rate_weight; apply Hin; exact Hu).
    rewrite Qsum_of_Z.
    assert (fold_right Z.add 0%Z (map (positives ocs ocl) ue) = Zsum ocl) as ->
        by apply (positives_sum ue ocs ocl Hnd Hincl HL).
    ring.
  - apply csd_of_path; assumption.
Qed.

Lemma compute_csd_diagram_witness :
  exists csd lastp,
    (let '(unique_elements, unique_idx, unique_element_counts) := np_unique example_scores in
     oucs <- take_idx example_scores unique_idx ;;
     IVAP.compute_csd (length unique_idx) unique_elements unique_element_counts
                      example_scores example_labels oucs)
    = Ok csd /\
    length csd = S (length (unique_values example_scores)) /\
    nth_error csd 0 = Some (0, 0) /\
    last1 csd = Ok lastp /\
    fst lastp == Q_of_nat (length example_scores) /\
    snd lastp == inject_Z (Zsum example_labels) /\
    path Fwd csd.
Proof.
  apply (compute_csd_diagram example_scores example_labels).
  - reflexivity.
  - intros l [<- | [<- | [<- | [<- | []]]]]; auto.
Defined.

Local Close Scope Q_scope.

(** * The initial stacks are lower convex hulls *)

Local Open Scope Q_scope.

Lemma supports_suffix e pre l q : supports e (pre ++ l) q -> supports e l q.
Proof.
  intros H pre' a b post E. apply (H (pre ++ pre') a b post). rewrite E, app_assoc. reflexivity.
Qed.

Lemma supports_cons e p a r q :
  0 <= sg e * cross3 p a q -> supports e (a :: r) q -> supports e (p :: a :: r) q.
Proof.
  intros H0 H pre x y post E. destruct pre as [|z pre].
  - simpl in E. injection E as <- <- _. exact H0.
  - simpl in E. injection E as _ E. apply (H pre x y post E).
Qed.

Lemma supports_rev e l q : supports e l q -> supports (opp e) (rev l) q.
Proof.
  intros H pre a b post E.
  apply (f_equal (@rev point)) in E. rewrite rev_involutive in E.
  rewrite rev_app_distr in E. simpl in E. rewrite <- !app_assoc in E. simpl in E.
  specialize (H _ _ _ _ E). unfold cross3 in *. destruct e; simpl in *; lra.
Qed.

Lemma cross3_near e p c1 c0 q :
  xlt e p c1 -> xlt e c1 c0 ->
  sg e * cross3 p c1 c0 <= 0 -> 0 <= sg e * cross3 c1 c0 q ->
  sg e * (fst q - fst c0) <= 0 ->
  0 <= sg e * cross3 p c0 q.
Proof.
  unfold xlt, cross3. intros Hp Hc Ht Hs Hq.
  set (ux := fst c1 - fst c0) in *. set (uy := snd c1 - snd c0) in *.
  set (vx := fst p - fst c0) in *. set (vy := snd p - snd c0) in *.
  set (wx := fst q - fst c0) in *. set (wy := snd q - snd c0) in *.
  assert (fst c0 - fst c1 == - ux) as E1 by (unfold ux; ring).
  assert (fst c1 - fst p == ux - vx) as E2 by (unfold ux, vx; ring).
  assert (snd c0 - snd c1 == - uy) as E3 by (unfold uy; ring).
  assert (snd c1 - snd p == uy - vy) as E4 by (unfold uy, vy; ring).
  assert (fst c0 - fst p == - vx) as E5 by (unfold vx; ring).
  assert (snd c0 - snd p == - vy) as E6 by (unfold vy; ring).
  rewrite ?E1, ?E2, ?E3, ?E4, ?E5, ?E6 in *.
  clearbody ux uy vx vy wx wy. clear E1 E2 E3 E4 E5 E6.
  assert (ux * (vx * wy - vy * wx) == vx * (ux * wy - uy * wx) - wx * (ux * vy - uy * vx)) as Hid
      by ring.
  destruct e; simpl in *; nra.
Qed.

Lemma cross3_far e p c0 c2 q :
  xlt e p c0 -> xlt e c0 c2 ->
  0 < sg e * cross3 p c0 c2 -> 0 <= sg e * cross3 c0 c2 q ->
  0 <= sg e * (fst q - fst c0) ->
  0 <= sg e * cross3 p c0 q.
Proof.
  unfold xlt, cross3. intros Hp Hc Ht Hs Hq.
  set (ux := fst c2 - fst c0) in *. set (uy := snd c2 - snd c0) in *.
  set (vx := fst p - fst c0) in *. set (vy := snd p - snd c0) in *.
  set (wx := fst q - fst c0) in *. set (wy := snd q - snd c0) in *.
  assert (fst c0 - fst p == - vx) as E5 by (unfold vx; ring).
  assert (snd c0 - snd p == - vy) as E6 by (unfold vy; ring).
  assert (snd q - snd c2 == wy - uy) as E7 by (unfold wy, uy; ring).
  assert (fst q - fst c2 == wx - ux) as E8 by (unfold wx, ux; ring).
  rewrite ?E5, ?E6, ?E7, ?E8 in *.
  clearbody ux uy vx vy wx wy. clear E5 E6 E7 E8.
  assert (ux * (vx * wy - vy * wx) == vx * (ux * wy - uy * wx) - wx * (ux * vy - uy * vx)) as Hid
      by ring.
  destruct e; simpl in *; nra.
Qed.

(** The head of a chain is on the inner side of all the other edges. *)
Lemma cross3_head e p a b :
  xlt e p a -> xlt e a b -> 0 < sg e * cross3 p a b -> 0 <= sg e * cross3 a b p.
Proof.
  unfold cross3. intros _ _ H.
  assert ((fst b - fst a) * (snd p - snd b) - (snd b - snd a) * (fst p - fst b)
          == (fst a - fst p) * (snd b - snd a) - (snd a - snd p) * (fst b - fst a)) as -> by ring.
  lra.
Qed.

Lemma turn_ok_skip e p a b c :
  xlt e p a -> xlt e a b -> xlt e b c -> turn_ok e p a b -> turn_ok e a b c -> turn_ok e p b c.
Proof.
  unfold xlt, turn_ok, cross3. intros Hpa Hab Hbc H1 H2.
  set (ux := fst a - fst p) in *. set (uy := snd a - snd p) in *.
  set (vx := fst b - fst a) in *. set (vy := snd b - snd a) in *.
  set (wx := fst c - fst b) in *. set (wy := snd c - snd b) in *.
  assert (fst b - fst p == ux + vx) as E1 by (unfold ux, vx; ring).
  assert (snd b - snd p == uy + vy) as E2 by (unfold uy, vy; ring).
  rewrite E1, E2. clearbody ux uy vx vy wx wy. clear E1 E2.
  assert (vx * ((ux + vx) * wy - (uy + vy) * wx)
          == (ux + vx) * (vx * wy - vy * wx) + wx * (ux * vy - uy * vx)) as Hid by ring.
  destruct e; simpl in *; nra.
Qed.

Lemma chain_supports_head e p l : chain e (p :: l) -> supports e l p.
Proof.
  revert p. induction l as [|a l IH]; intros p Hc pre x y post E.
  - destruct pre; discriminate.
  - destruct l as [|b r]; [destruct pre as [|? [|? ?]]; discriminate|].
    destruct Hc as (Hpa & Hpab & Hc).
    assert (xlt e a b) as Hab by (destruct Hc as (H & _); exact H).
    destruct pre as [|z pre].
    + simpl in E. injection E as <- <- _. apply cross3_head; assumption.
    + simpl in E. injection E as _ E.
      apply (IH p) with (pre := pre) (post := post); [|exact E].
      split; [eapply xlt_trans; eassumption|]. split; [|apply (chain_tail e a); exact Hc].
      destruct r as [|c r]; [exact I|].
      destruct Hc as (_ & Habc & Hbc & _). apply (turn_ok_skip e p a b c); assumption.
Qed.

Lemma pop_while_cases f (S : list point) :
  let S' := IVAP.pop_while f S in
  (S' = S \/
   exists pre c1 c0 rest, S = pre ++ c1 :: c0 :: rest /\ S' = c0 :: rest /\ f c0 c1 = true).
Proof.
  cbv zeta. induction S as [|a S IH]; [left; reflexivity|].
  destruct S as [|b r]; [left; reflexivity|].
  change (IVAP.pop_while f (a :: b :: r))
    with (if f b a then IVAP.pop_while f (b :: r) else a :: b :: r).
  destruct (f b a) eqn:E; [|left; reflexivity]. right.
  destruct IH as [IH | (pre & c1 & c0 & rest & E1 & E2 & E3)].
  - exists [], a, b, r. rewrite IH. split; [reflexivity|]. split; [reflexivity | exact E].
  - exists (a :: pre), c1, c0, rest. split; [simpl; f_equal; exact E1|]. split; assumption.
Qed.

Lemma cross3_self p c : cross3 p c p == 0.
Proof. unfold cross3. ring. Qed.

Lemma cross3_top p c : cross3 p c c == 0.
Proof. unfold cross3. ring. Qed.

(** One point more: the edges of the new stack support the points seen so
    far and the new point. *)
Lemma scan_step e f p (S seen : list point) bottom :
  viol_spec e p f ->
  chain e S -> (2 <= length S)%nat -> last S bottom = bottom ->
  (forall q, In q seen -> supports e S q) ->
  (forall q, In q seen -> q = bottom \/ xlt e q bottom) ->
  (forall q, In q seen -> Some q = hd_error S \/ exists top, hd_error S = Some top /\ xlt e top q) ->
  (forall s, In s S -> xlt e p s) ->
  forall q, In q (p :: seen) -> supports e (p :: IVAP.pop_while f S) q.
Proof.
  intros Hf Hc Hlen Hbot Hsup Hb Htop Hp.
  pose proof (pop_while_chain e p f S Hf Hc Hp) as Hc'.
  destruct (pop_while_suffix f S) as [pre0 Epre].
  assert (IVAP.pop_while f S <> []) as Hne
      by (apply pop_while_nonempty; destruct S; [simpl in Hlen; lia | discriminate]).
  destruct (IVAP.pop_while f S) as [|c0 rest] eqn:ES'; [congruence|]. clear Hne.
  intros q [<-|Hq].
  - apply supports_cons.
    + rewrite cross3_self. lra.
    + apply chain_supports_head. exact Hc'.
  - apply supports_cons.
    + assert (xlt e p c0) as Hpc0 by (destruct Hc' as (H & _); exact H).
      destruct (Qlt_le_dec 0 (sg e * (fst q - fst c0))) as [Hfar|Hnear].
      * (* the far side of [c0]: the edge below [c0] *)
        destruct rest as [|c2 rest].
        -- exfalso. assert (c0 = bottom) as ->.
           { rewrite <- Hbot. rewrite Epre. rewrite last_last. reflexivity. }
           destruct (Hb q Hq) as [->|Hx]; unfold xlt in *; destruct e; simpl in *; lra.
        -- destruct Hc' as (_ & Ht & Hc0 & _).
           apply (cross3_far e p c0 c2 q); try assumption; [|lra].
           specialize (Hsup q Hq). rewrite Epre in Hsup.
           apply (supports_suffix e pre0 _ q Hsup [] c0 c2 rest). reflexivity.
      * (* the near side of [c0]: the last popped point *)
        destruct (pop_while_cases f S) as [Eq | (pre & c1 & c0' & rest' & E1 & E2 & E3)].
        -- rewrite ES' in Eq. rewrite <- Eq in Htop.
           destruct (Htop q Hq) as [E | (top & Et & Hx)].
           ++ injection E as ->. rewrite cross3_top. lra.
           ++ injection Et as <-. unfold xlt in Hx. exfalso. destruct e; simpl in *; lra.
        -- rewrite ES' in E2. injection E2 as <- <-.
           assert (chain e (c1 :: c0 :: rest)) as Hc1.
           { rewrite E1 in Hc. clear - Hc. induction pre as [|z pre IH]; [exact Hc|].
             apply IH. apply (chain_tail e z). exact Hc. }
           apply (cross3_near e p c1 c0 q).
           ++ apply Hp. rewrite E1. apply in_or_app. right. left. reflexivity.
           ++ destruct Hc1 as (H & _). exact H.
           ++ apply Hf in E3. unfold turn_ok in E3. lra.
           ++ specialize (Hsup q Hq). rewrite E1 in Hsup.
              apply (supports_suffix e pre _ q Hsup [] c1 c0 rest). reflexivity.
           ++ exact Hnear.
    + specialize (Hsup q Hq). rewrite Epre in Hsup. apply (supports_suffix e pre0 _ q Hsup).
Qed.

Lemma pop_while_last f (S : list point) d : last (IVAP.pop_while f S) d = last S d.
Proof.
  induction S as [|a S IH]; [reflexivity|].
  destruct S as [|b r]; [reflexivity|].
  change (IVAP.pop_while f (a :: b :: r))
    with (if f b a then IVAP.pop_while f (b :: r) else a :: b :: r).
  destruct (f b a); [|reflexivity]. rewrite IH. reflexivity.
Qed.

Lemma last_In {A} (l : list A) d : l <> [] -> In (last l d) l.
Proof.
  induction l as [|a l IH]; intros H; [congruence|].
  destruct l as [|b l]; [left; reflexivity|]. right. apply IH. discriminate.
Qed.

Lemma scan_supports e f_of pts :
  (forall p, viol_spec e p (f_of p)) ->
  forall S seen bottom,
    chain e S -> (2 <= length S)%nat -> last S bottom = bottom ->
    (forall q, In q seen -> supports e S q) ->
    (forall q, In q seen -> q = bottom \/ xlt e q bottom) ->
    (forall q, In q seen ->
               Some q = hd_error S \/ exists top, hd_error S = Some top /\ xlt e top q) ->
    (forall s, In s S -> In s seen) ->
    (forall p q, In p pts -> In q seen -> xlt e p q) ->
    StronglySorted (fun x y => xlt e y x) pts ->
    forall q, In q (seen ++ pts) -> supports e (scan f_of pts S) q.
Proof.
  intros Hf. induction pts as [|p pts IH];
    intros S seen bottom Hc Hlen Hbot Hsup Hb Htop Hin Hord Hsort q Hq.
  - rewrite app_nil_r in Hq. apply Hsup. exact Hq.
  - unfold scan. simpl fold_left. fold (scan f_of pts (p :: IVAP.pop_while (f_of p) S)).
    assert (forall s, In s S -> xlt e p s) as Hp
        by (intros s Hs; apply Hord; [left; reflexivity | apply Hin; exact Hs]).
    destruct (pop_while_suffix (f_of p) S) as [pre Epre].
    assert (IVAP.pop_while (f_of p) S <> []) as Hne
        by (apply pop_while_nonempty; destruct S; [simpl in Hlen; lia | discriminate]).
    apply StronglySorted_inv in Hsort. destruct Hsort as [Hsort Hps].
    rewrite Forall_forall in Hps.
    apply (IH (p :: IVAP.pop_while (f_of p) S) (p :: seen) bottom).
    + apply pop_while_chain; [apply Hf | exact Hc | exact Hp].
    + destruct (IVAP.pop_while (f_of p) S); [congruence | simpl; lia].
    + destruct (IVAP.pop_while (f_of p) S) as [|c0 r] eqn:E; [congruence|].
      change (last (p :: c0 :: r) bottom) with (last (c0 :: r) bottom).
      rewrite <- E, pop_while_last. exact Hbot.
    + apply (scan_step e (f_of p) p S seen bottom); try assumption. apply Hf.
    + intros q' [<-|Hq'].
      * right. apply Hp. rewrite <- Hbot.
        apply last_In. destruct S; [simpl in Hlen; lia | discriminate].
      * apply Hb. exact Hq'.
    + intros q' [<-|Hq']; [left; reflexivity|]. right. exists p. split; [reflexivity|].
      apply Hord; [left; reflexivity | exact Hq'].
    + intros s [<-|Hs]; [left; reflexivity|]. right. apply Hin. rewrite Epre.
      apply in_or_app. right. exact Hs.
    + intros p' q' Hp' [<-|Hq'].
      * apply Hps. exact Hp'.
      * apply Hord; [right; exact Hp' | exact Hq'].
    + exact Hsort.
    + apply in_app_or in Hq. destruct Hq as [Hq|[<-|Hq]].
      * right. apply in_or_app. left. exact Hq.
      * left. reflexivity.
      * right. apply in_or_app. right. exact Hq.
Qed.

Lemma se_subseq {A} (l1 l2 : list A) : se l1 l2 -> subseq l1 l2.
Proof.
  induction 1.
  - apply subseq_take. apply subseq_nil.
  - apply subseq_skip. assumption.
  - apply subseq_take. assumption.
Qed.

Lemma se_last {A} (l1 l2 : list A) d : se l1 l2 -> last l1 d = last l2 d.
Proof.
  induction 1 as [x | x l1 l2 H IH | x l1 l2 H IH].
  - reflexivity.
  - destruct (se_nonempty _ _ H) as [_ H2]. destruct l2; [congruence|]. exact IH.
  - destruct (se_nonempty _ _ H) as [H1 H2]. destruct l1; [congruence|].
    destruct l2; [congruence|]. exact IH.
Qed.

Lemma subseq_snoc {A} (l1 l2 : list A) x : subseq l1 l2 -> subseq (l1 ++ [x]) (l2 ++ [x]).
Proof.
  induction 1; simpl.
  - apply subseq_take. apply subseq_nil.
  - apply subseq_skip. assumption.
  - apply subseq_take. assumption.
Qed.

Lemma subseq_snoc_skip {A} (l1 l2 : list A) x : subseq l1 l2 -> subseq l1 (l2 ++ [x]).
Proof.
  induction 1; simpl.
  - apply subseq_skip. apply subseq_nil.
  - apply subseq_skip. assumption.
  - apply subseq_take. assumption.
Qed.

Lemma subseq_rev {A} (l1 l2 : list A) : subseq l1 l2 -> subseq (rev l1) (rev l2).
Proof.
  induction 1; simpl.
  - apply subseq_nil.
  - apply subseq_snoc_skip. assumption.
  - apply subseq_snoc. assumption.
Qed.

Lemma last1_last {A} (l : list A) d : l <> [] -> last1 l = Ok (last l d).
Proof.
  intros H. destruct (exists_last H) as (l' & x & ->). rewrite last1_snoc, last_last. reflexivity.
Qed.

Lemma chain_turns e l :
  chain e l -> forall pre a b c post, l = pre ++ a :: b :: c :: post -> 0 < sg e * cross3 a b c.
Proof.
  intros Hc pre. revert l Hc. induction pre as [|z pre IH]; intros l Hc a b c post E.
  - subst l. destruct Hc as (_ & H & _). exact H.
  - subst l. exact (IH _ (chain_tail e z _ Hc) a b c post eq_refl).
Qed.

Lemma sorted_fst_bwd l :
  StronglySorted (fun a b : point => fst a < fst b) l ->
  StronglySorted (fun x y => xlt Bwd y x) l.
Proof.
  induction 1 as [|a l Hl IH Ha]; constructor; [exact IH|].
  rewrite Forall_forall in *. intros x Hx. specialize (Ha x Hx). unfold xlt. simpl. lra.
Qed.

Lemma sorted_fst_rev l :
  StronglySorted (fun a b : point => fst a < fst b) l ->
  StronglySorted (fun x y => xlt Fwd y x) (rev l).
Proof.
  induction 1 as [|a l Hl IH Ha]; [constructor|]. simpl.
  apply StronglySorted_snoc; [exact IH|].
  rewrite Forall_forall in Ha. intros x Hx. apply in_rev in Hx. specialize (Ha x Hx).
  unfold xlt. simpl. lra.
Qed.

(** X15. [initialize_f1_corners] raises IndexError on fewer than two points;
    on a diagram of strictly increasing abscissas and with exact cross
    products it returns, from top to bottom of the stack, the lower convex
    hull of the diagram read from right to left. *)
Theorem initialize_f1_corners_hull (csd : list point) :
  ((length csd < 2)%nat -> IVAP.initialize_f1_corners csd = Raise IndexError) /\
  ((2 <= length csd)%nat -> StronglySorted (fun a b : point => fst a < fst b) csd ->
   exists hull, IVAP.initialize_f1_corners csd = Ok (rev hull) /\ lower_hull csd hull).
Proof.
  split.
  - intros H. destruct csd as [|p0 [|p1 rest]]; [reflexivity | reflexivity | simpl in H; lia].
  - intros Hlen Hs. destruct csd as [|p0 [|p1 rest]]; [simpl in Hlen; lia | simpl in Hlen; lia|].
    clear Hlen. unfold IVAP.initialize_f1_corners. simpl getitem. cbn [bind]. simpl skipn.
    set (f_of := fun (p ntt top : point) => IVAP.non_left_angle_turn ntt top p).
    change (fold_left _ rest [p1; p0]) with (scan f_of rest [p1; p0]).
    apply StronglySorted_inv in Hs. destruct Hs as [Hs H0]. rewrite Forall_forall in H0.
    pose proof Hs as Hs1. apply StronglySorted_inv in Hs1. destruct Hs1 as [Hs2 H1].
    rewrite Forall_forall in H1.
    assert (xlt Bwd p1 p0) as H10
        by (unfold xlt; simpl; specialize (H0 p1 (or_introl eq_refl)); lra).
    destruct (scan_spec Bwd f_of rest viol_init_f1 [p1] p0 [p1]) as (U' & E & Hc & Hse).
    + simpl. split; [exact H10 | tauto].
    + apply se_one.
    + intros p Hp. unfold xlt. simpl. specialize (H0 p (or_intror Hp)). lra.
    + intros p y Hp [<-|[]]. unfold xlt. simpl. specialize (H1 p Hp). lra.
    + apply sorted_fst_bwd. exact Hs2.
    + simpl app in E, Hse.
      pose proof (scan_supports Bwd f_of rest viol_init_f1 [p1; p0] [p0; p1] p0) as Hsup.
      exists (p0 :: rev U'). split.
      * simpl rev. rewrite rev_involutive. rewrite <- E. reflexivity.
      * destruct (se_nonempty _ _ Hse) as [HU _].
        split; [apply subseq_take; apply se_subseq; exact Hse|].
        split; [reflexivity|]. split.
        { rewrite last1_cons by exact HU. rewrite (last1_cons p0) by discriminate.
          rewrite (last1_last _ p0 HU), (last1_last (p1 :: rest) p0) by discriminate.
          rewrite (se_last _ _ p0 Hse). reflexivity. }
        split.
        { apply chain_rev in Hc. rewrite rev_app_distr in Hc.
          change (chain Fwd (p0 :: rev U')) in Hc.
          intros pre a b c post Eh. pose proof (chain_turns _ _ Hc pre a b c post Eh) as H.
          simpl in H. lra. }
        { intros q pre a b post Hq Eh.
          assert (supports Bwd (scan f_of rest [p1; p0]) q) as Hq'.
          { apply Hsup.
            - simpl. split; [exact H10 | tauto].
            - simpl. lia.
            - reflexivity.
            - intros q' Hq' pre' a' b' post' E'.
              destruct pre' as [|? [|? [|? ?]]]; try discriminate.
              injection E' as <- <- _. destruct Hq' as [<-|[<-|[]]].
              + rewrite cross3_top. lra.
              + assert (cross3 p1 p0 p1 == 0) as -> by (unfold cross3; ring). lra.
            - intros q' [<-|[<-|[]]]; [left; reflexivity | right; exact H10].
            - intros q' [<-|[<-|[]]]; [|left; reflexivity].
              right. exists p1. split; [reflexivity | exact H10].
            - intros s [<-|[<-|[]]]; simpl; auto.
            - intros p q' Hp [<-|[<-|[]]]; unfold xlt; simpl.
              + specialize (H0 p (or_intror Hp)). lra.
              + specialize (H1 p Hp). lra.
            - apply sorted_fst_bwd. exact Hs2.
            - destruct Hq as [<-|[<-|Hq]]; [left; reflexivity | right; left; reflexivity|].
              right. right. exact Hq. }
          rewrite E in Hq'. apply supports_rev in Hq'. rewrite rev_app_distr in Hq'.
          simpl in Hq'. specialize (Hq' pre a b post Eh). simpl in Hq'. lra. }
Qed.

Lemma initialize_f1_corners_hull_witness :
  exists hull,
    IVAP.initialize_f1_corners [(0, 0); (1, 1); (2, 1); (3, 3)] = Ok (rev hull) /\
    lower_hull [(0, 0); (1, 1); (2, 1); (3, 3)] hull.
Proof.
  apply (initialize_f1_corners_hull [(0, 0); (1, 1); (2, 1); (3, 3)]).
  - simpl. lia.
  - repeat constructor; reflexivity.
Defined.

Lemma hd_error_rev_last {A} (l : list A) d : l <> [] -> hd_error l = Some (last (rev l) d).
Proof.
  destruct l as [|a l]; [congruence|]. intros _. simpl. rewrite last_last. reflexivity.
Qed.

(** X16. [initialize_f0_corners] raises IndexError on fewer than two points;
    on a diagram of strictly increasing abscissas and with exact cross
    products it returns, from top to bottom of the stack, the lower convex
    hull of the diagram read from left to right. *)
Theorem initialize_f0_corners_hull (csd : list point) :
  ((length csd < 2)%nat -> IVAP.initialize_f0_corners csd = Raise IndexError) /\
  ((2 <= length csd)%nat -> StronglySorted (fun a b : point => fst a < fst b) csd ->
   exists hull, IVAP.initialize_f0_corners csd = Ok hull /\ lower_hull csd hull).
Proof.
  split.
  - intros H. destruct csd as [|p0 [|p1 rest]]; [reflexivity | reflexivity | simpl in H; lia].
  - intros Hlen Hs.
    assert (exists pre p1 p0, csd = pre ++ [p1; p0]) as (pre & p1 & p0 & ->).
    { destruct (exists_last (l := csd)) as (l1 & p0 & ->); [destruct csd; [simpl in Hlen; lia | discriminate]|].
      destruct (exists_last (l := l1)) as (pre & p1 & ->).
      { destruct l1; [simpl in Hlen; lia | discriminate]. }
      exists pre, p1, p0. rewrite <- app_assoc. reflexivity. }
    clear Hlen. unfold IVAP.initialize_f0_corners.
    assert (last1 (pre ++ [p1; p0]) = Ok p0) as ->.
    { replace (pre ++ [p1; p0]) with ((pre ++ [p1]) ++ [p0]) by (rewrite <- app_assoc; reflexivity).
      apply last1_snoc. }
    cbn [bind]. rewrite last2_snoc. cbn [bind].
    assert (firstn (length (pre ++ [p1; p0]) - 2) (pre ++ [p1; p0]) = pre) as ->.
    { rewrite length_app. simpl length. replace (length pre + 2 - 2)%nat with (length pre) by lia.
      rewrite firstn_app, Nat.sub_diag, firstn_all. simpl. apply app_nil_r. }
    set (f_of := fun (p ntt top : point) => IVAP.non_right_angle_turn ntt top p).
    change (fold_left _ (rev pre) [p1; p0]) with (scan f_of (rev pre) [p1; p0]).
    apply StronglySorted_app_inv in Hs. destruct Hs as (Hpre & Htail & Hcross).
    assert (fst p1 < fst p0) as H10.
    { apply StronglySorted_inv in Htail. destruct Htail as [_ H]. rewrite Forall_forall in H.
      apply H. left. reflexivity. }
    assert (forall p, In p (rev pre) -> fst p < fst p1 /\ fst p < fst p0) as Hlt.
    { intros p Hp. apply in_rev in Hp. split; apply Hcross; simpl; auto. }
    destruct (scan_spec Fwd f_of (rev pre) viol_init_f0 [p1] p0 [p1]) as (U' & E & Hc & Hse).
    + simpl. split; [unfold xlt; simpl; lra | tauto].
    + apply se_one.
    + intros p Hp. unfold xlt. simpl. destruct (Hlt p Hp). lra.
    + intros p y Hp [<-|[]]. unfold xlt. simpl. destruct (Hlt p Hp). lra.
    + apply sorted_fst_rev. exact Hpre.
    + simpl app in E. change ([p1] ++ rev pre) with (rev (rev [p1]) ++ rev pre) in Hse.
      rewrite <- rev_app_distr in Hse. simpl rev at 2 in Hse.
      pose proof (scan_supports Fwd f_of (rev pre) viol_init_f0 [p1; p0] [p1; p0] p0) as Hsup.
      exists (U' ++ [p0]). split; [rewrite <- E; reflexivity|].
      destruct (se_nonempty _ _ Hse) as [HU _].
      assert (U' <> []) as HU' by (intros ->; apply HU; reflexivity).
      split.
      { replace (pre ++ [p1; p0]) with ((pre ++ [p1]) ++ [p0]) by (rewrite <- app_assoc; reflexivity).
        apply subseq_snoc. apply se_subseq, subseq_rev in Hse. rewrite !rev_involutive in Hse.
        exact Hse. }
      split.
      { destruct U' as [|u U']; [congruence|].
        assert (hd_error (pre ++ [p1; p0]) = hd_error (pre ++ [p1])) as ->
            by (destruct pre; reflexivity).
        rewrite (hd_error_rev_last (pre ++ [p1]) p0) by (destruct pre; discriminate).
        rewrite <- (se_last _ _ p0 Hse). simpl rev. rewrite last_last. reflexivity. }
      split.
      { rewrite last1_snoc.
        replace (pre ++ [p1; p0]) with ((pre ++ [p1]) ++ [p0]) by (rewrite <- app_assoc; reflexivity).
        rewrite last1_snoc. reflexivity. }
      split.
      { intros pre' a b c post Eh. pose proof (chain_turns _ _ Hc pre' a b c post Eh) as H.
        simpl in H. lra. }
      { intros q pre' a b post Hq Eh.
        assert (supports Fwd (scan f_of (rev pre) [p1; p0]) q) as Hq'.
        { apply Hsup.
          - simpl. split; [unfold xlt; simpl; lra | tauto].
          - simpl. lia.
          - reflexivity.
          - intros q' Hq' pre'' a' b' post' E'.
            destruct pre'' as [|? [|? [|? ?]]]; try discriminate.
            injection E' as <- <- _. destruct Hq' as [<-|[<-|[]]].
            + assert (cross3 p1 p0 p1 == 0) as -> by (unfold cross3; ring). lra.
            + rewrite cross3_top. lra.
          - intros q' [<-|[<-|[]]]; [right; unfold xlt; simpl; lra | left; reflexivity].
          - intros q' [<-|[<-|[]]]; [left; reflexivity|].
            right. exists p1. split; [reflexivity | unfold xlt; simpl; lra].
          - intros s Hs. exact Hs.
          - intros p q' Hp [<-|[<-|[]]]; unfold xlt; simpl; destruct (Hlt p Hp); lra.
          - apply sorted_fst_rev. exact Hpre.
          - apply in_app_or in Hq. apply in_or_app. destruct Hq as [Hq|Hq].
            + right. apply in_rev in Hq. exact Hq.
            + left. exact Hq. }
        rewrite E in Hq'. specialize (Hq' pre' a b post Eh). simpl in Hq'. lra. }
Qed.

Lemma initialize_f0_corners_hull_witness :
  exists hull,
    IVAP.initialize_f0_corners [(0, 0); (1, 1); (2, 1); (3, 3)] = Ok hull /\
    lower_hull [(0, 0); (1, 1); (2, 1); (3, 3)] hull.
Proof.
  apply (initialize_f0_corners_hull [(0, 0); (1, 1); (2, 1); (3, 3)]).
  - simpl. lia.
  - repeat constructor; reflexivity.
Defined.

Local Close Scope Q_scope.

(** * Construction and fitting of the dispatcher *)

(** X17. [__init__] and [_create_calibrator] agree on the method names:
    [__init__] accepts a name exactly when it is one of the four available
    methods (given an estimator with [predict_proba] and [classes_]), for
    every accepted name [_create_calibrator] builds a calibrator or raises
    and never returns None, and for every other name it returns None. *)
Theorem create_calibrator_available (Row Other : Type)
        (platt_scaling : outcome Other)
        (isotonic_regression : CalibratorFit.params -> outcome Other)
        (est : CalibratorFit.estimator Row) (name : String.string)
        (p q : CalibratorFit.params) :
  CalibratorFit.has_predict_proba est = true -> CalibratorFit.classes_ est <> None ->
  (In name CalibratorFit.available_methods ->
   exists self,
     CalibratorFit.init Other est name p = Return self /\
     CalibratorFit.create_calibrator platt_scaling isotonic_regression self
                                     (CalibratorFit.method self) q <> Return None) /\
  (~ In name CalibratorFit.available_methods ->
   CalibratorFit.init Other est name p = Throw (Exn ValueError) /\
   forall self : CalibratorFit.t Row Other,
     CalibratorFit.create_calibrator platt_scaling isotonic_regression self name q
     = Return None).
Proof.
  intros Hpp Hcl. destruct (CalibratorFit.classes_ est) as [classes|] eqn:Ecl; [|congruence].
  split.
  - intros Hin. exists (CalibratorFit.mk est p classes false name None).
    assert (existsb (String.eqb name) CalibratorFit.available_methods = true) as Eex.
    { apply existsb_exists. exists name. split; [exact Hin | apply String.eqb_refl]. }
    unfold CalibratorFit.init. rewrite Hpp, Ecl, Eex.
    split; [reflexivity|]. cbn [CalibratorFit.method].
    unfold CalibratorFit.create_calibrator.
    destruct Hin as [<- | [<- | [<- | [<- | []]]]]; simpl String.eqb; cbv iota.
    + destruct (CalibratorFit.new_ivap q); discriminate.
    + destruct (CalibratorFit.new_cvap _ q); discriminate.
    + destruct platt_scaling; discriminate.
    + destruct (isotonic_regression q); discriminate.
  - intros Hnin.
    assert (forall s, In s CalibratorFit.available_methods -> String.eqb name s = false) as Hne.
    { intros s Hs. destruct (String.eqb_spec name s) as [->|]; [contradiction | reflexivity]. }
    split.
    + assert (existsb (String.eqb name) CalibratorFit.available_methods = false) as Eex
          by (simpl; rewrite !Hne by (simpl; auto 6); reflexivity).
      unfold CalibratorFit.init. rewrite Hpp, Ecl, Eex. reflexivity.
    + intros self. unfold CalibratorFit.create_calibrator.
      rewrite !Hne by (simpl; auto 6). reflexivity.
Qed.

Lemma create_calibrator_available_witness :
  (In example_method CalibratorFit.available_methods ->
   exists self,
     CalibratorFit.init unit example_estimator example_method [] = Return self /\
     CalibratorFit.create_calibrator (Return tt) (fun _ => Return tt) self
                                     (CalibratorFit.method self) [] <> Return None) /\
  (~ In example_method CalibratorFit.available_methods ->
   CalibratorFit.init unit example_estimator example_method [] = Throw (Exn ValueError) /\
   forall self : CalibratorFit.t nat unit,
     CalibratorFit.create_calibrator (Return tt) (fun _ => Return tt) self example_method []
     = Return None).
Proof.
  apply (create_calibrator_available nat unit (Return tt) (fun _ => Return tt)
           example_estimator example_method [] []).
  - reflexivity.
  - discriminate.
Defined.

Lemma foldM_outcome_snoc {A B} (f : list B -> A -> outcome (list B)) (Q : A -> B -> Prop) :
  (forall acc a acc', f acc a = Return acc' -> exists c, acc' = acc ++ [c] /\ Q a c) ->
  forall l acc cs,
    foldM_outcome f l acc = Return cs -> exists new, cs = acc ++ new /\ Forall2 Q l new.
Proof.
  intros Hf. induction l as [|a l IH]; intros acc cs H.
  - simpl in H. injection H as <-. exists []. rewrite app_nil_r. split; [reflexivity | constructor].
  - simpl in H. destruct (f acc a) as [acc'|] eqn:E; [|discriminate]. cbn [bind_outcome] in H.
    destruct (Hf _ _ _ E) as (c & -> & Hc). destruct (IH _ _ H) as (new & -> & Hnew).
    exists (c :: new). rewrite <- app_assoc. split; [reflexivity | constructor; assumption].
Qed.

Lemma call_fit_ivap (Row Other : Type) stratified_kfold estimator_scores
      (other_fit : Other -> list Z -> list Qc -> list Row -> outcome Other) X labels col c :
  CalibratorFit.call_fit stratified_kfold estimator_scores other_fit
                         (Some (CalibratorFit.Ivap Other IVAP.init)) labels (Return col) X
  = Return c ->
  fitted_ivap Other col c.
Proof.
  unfold CalibratorFit.call_fit. intros H.
  destruct labels as [y|]; [|discriminate]. cbn [bind_outcome] in H.
  destruct (IVAP.fit IVAP.init y col) as [c'|] eqn:E; [|discriminate].
  cbn [lift bind_outcome] in H. injection H as <-.
  exists c', y. split; [reflexivity|]. split; [|exact E].
  apply (fit_Ok_inv _ _ _ _ E).
Qed.

Lemma enumerate_length {A} (l : list A) : length (enumerate l) = length l.
Proof. unfold enumerate. rewrite length_combine, length_seq, Nat.min_id. reflexivity. Qed.

(** X18. What [fit] stores when it returns: the flag [multiclass] is the
    old flag or set because the calibration scores have more than two
    columns (it is never cleared), there is one calibrator per column of
    scores in multiclass mode and exactly one, for scores of exactly two
    columns, in binary mode; the other attributes are unchanged. *)
Theorem calibrator_fit_state (Row : Type)
        (stratified_kfold : nat -> list Row -> list Z -> result (list (list nat * list nat)))
        (estimator_scores : list Row -> list Z -> list Row -> result (list Qc))
        (label_binarizer_T : list Z -> outcome (list (list Z)))
        (label_encoder : list Z -> outcome (list Z))
        (Other : Type) (platt_scaling : outcome Other)
        (isotonic_regression : CalibratorFit.params -> outcome Other)
        (other_fit : Other -> list Z -> list Qc -> list Row -> outcome Other)
        (self self' : CalibratorFit.t Row Other) (X : list Row) (y : list Z) :
  CalibratorFit.fit stratified_kfold estimator_scores label_binarizer_T label_encoder
                    platt_scaling isotonic_regression other_fit self X y = Return self' ->
  exists cols cs,
    CalibratorFit.predict_proba (CalibratorFit.the_estimator self) X = Return cols /\
    CalibratorFit.multiclass self'
    = (CalibratorFit.multiclass self || (2 <? length cols)%nat)%bool /\
    CalibratorFit.calibrators self' = Some cs /\
    (CalibratorFit.multiclass self' = true -> length cs = length cols) /\
    (CalibratorFit.multiclass self' = false -> length cs = 1%nat /\ length cols = 2%nat) /\
    CalibratorFit.the_estimator self' = CalibratorFit.the_estimator self /\
    CalibratorFit.method self' = CalibratorFit.method self /\
    CalibratorFit.method_params self' = CalibratorFit.method_params self /\
    CalibratorFit.self_classes_ self' = CalibratorFit.self_classes_ self.
Proof.
  unfold CalibratorFit.fit. intros H.
  destruct (CalibratorFit.predict_proba (CalibratorFit.the_estimator self) X) as [cols|];
    [|discriminate].
  cbn [bind_outcome] in H. cbv zeta in H.
  assert ((if (2 <? length cols)%nat then true else CalibratorFit.multiclass self)
          = (CalibratorFit.multiclass self || (2 <? length cols)%nat)%bool) as Eflag
      by (destruct (2 <? length cols)%nat, (CalibratorFit.multiclass self); reflexivity).
  rewrite Eflag in H.
  destruct (CalibratorFit.multiclass self || (2 <? length cols)%nat)%bool eqn:Em.
  - destruct (label_binarizer_T y) as [bl|]; [|discriminate]. cbn [bind_outcome] in H.
    match type of H with
    | bind_outcome (foldM_outcome ?f ?l ?a) _ = _ =>
        destruct (foldM_outcome f l a) as [cs|] eqn:E; [|discriminate];
        apply (foldM_outcome_snoc f (fun _ _ => True)) in E
    end.
    + cbn [bind_outcome] in H. injection H as <-. exists cols, cs. simpl.
      destruct E as (new & -> & Hnew). apply Forall2_length in Hnew.
      rewrite enumerate_length in Hnew.
      split; [reflexivity|]. split; [symmetry; exact Em|]. split; [reflexivity|].
      split; [intros _; simpl; congruence|]. split; [discriminate|].
      repeat split; reflexivity.
    + intros acc [idx split] acc' Hs.
      destruct (CalibratorFit.create_calibrator _ _ _ _ _) as [c|]; [|discriminate].
      cbn [bind_outcome] in Hs.
      destruct (CalibratorFit.call_fit _ _ _ _ _ _ _) as [c'|]; [|discriminate].
      cbn [bind_outcome] in Hs. injection Hs as <-. exists c'. auto.
  - destruct (label_encoder y) as [ey|]; [|discriminate]. cbn [bind_outcome] in H.
    destruct (CalibratorFit.create_calibrator _ _ _ _ _) as [c|]; [|discriminate].
    cbn [bind_outcome] in H.
    destruct (CalibratorFit.call_fit _ _ _ _ _ _ _) as [c'|] eqn:Ec; [|discriminate].
    cbn [bind_outcome] in H. injection H as <-. exists cols, [c']. simpl.
    split; [reflexivity|]. split; [symmetry; exact Em|]. split; [reflexivity|].
    split; [discriminate|]. split; [|repeat split; reflexivity].
    intros _. split; [reflexivity|].
    apply orb_false_iff in Em. destruct Em as [_ Em]. apply Nat.ltb_ge in Em.
    unfold CalibratorFit.call_fit in Ec. destruct c; [|discriminate]. cbn [bind_outcome] in Ec.
    unfold getitem in Ec. destruct (nth_error cols 1) eqn:En; [|discriminate].
    assert (nth_error cols 1 <> None) as Hn by congruence. apply nth_error_Some in Hn. lia.
Qed.

Lemma calibrator_fit_state_witness :
  exists cols cs,
    CalibratorFit.predict_proba (CalibratorFit.the_estimator example_calibrator) (seq 0 4)
    = Return cols /\
    CalibratorFit.multiclass example_fitted_calibrator
    = (CalibratorFit.multiclass example_calibrator || (2 <? length cols)%nat)%bool /\
    CalibratorFit.calibrators example_fitted_calibrator = Some cs /\
    (CalibratorFit.multiclass example_fitted_calibrator = true -> length cs = length cols) /\
    (CalibratorFit.multiclass example_fitted_calibrator = false ->
     length cs = 1%nat /\ length cols = 2%nat) /\
    CalibratorFit.the_estimator example_fitted_calibrator
    = CalibratorFit.the_estimator example_calibrator /\
    CalibratorFit.method example_fitted_calibrator = CalibratorFit.method example_calibrator /\
    CalibratorFit.method_params example_fitted_calibrator
    = CalibratorFit.method_params example_calibrator /\
    CalibratorFit.self_classes_ example_fitted_calibrator
    = CalibratorFit.self_classes_ example_calibrator.
Proof.
  apply (calibrator_fit_state nat balanced_kfold half_scores example_binarizer example_encoder
           unit (Return tt) (fun _ => Return tt) example_other_fit
           example_calibrator example_fitted_calibrator (seq 0 4) example_labels).
  vm_compute. reflexivity.
Defined.

Lemma Forall2_map_snd {A B C} (P : B -> C -> Prop) (l : list (A * B)) cs :
  Forall2 (fun e c => P (snd e) c) l cs -> Forall2 P (map snd l) cs.
Proof. induction 1; simpl; constructor; assumption. Qed.

Lemma calibrator_fit_state_lemma (Row : Type)
        (stratified_kfold : nat -> list Row -> list Z -> result (list (list nat * list nat)))
        (estimator_scores : list Row -> list Z -> list Row -> result (list Qc))
        (label_binarizer_T : list Z -> outcome (list (list Z)))
        (label_encoder : list Z -> outcome (list Z))
        (Other : Type) (platt_scaling : outcome Other)
        (isotonic_regression : CalibratorFit.params -> outcome Other)
        (other_fit : Other -> list Z -> list Qc -> list Row -> outcome Other)
        (self self' : CalibratorFit.t Row Other) (X : list Row) (y : list Z) :
  CalibratorFit.fit stratified_kfold estimator_scores label_binarizer_T label_encoder
                    platt_scaling isotonic_regression other_fit self X y = Return self' ->
  CalibratorFit.the_estimator self' = CalibratorFit.the_estimator self.
Proof.
  unfold CalibratorFit.fit. intros H.
  destruct (CalibratorFit.predict_proba (CalibratorFit.the_estimator self) X) as [cols|];
    [|discriminate].
  cbn [bind_outcome] in H. cbv zeta in H.
  destruct (if (2 <? length cols)%nat then true else CalibratorFit.multiclass self).
  - destruct (label_binarizer_T y) as [bl|]; [|discriminate]. cbn [bind_outcome] in H.
    match type of H with
    | bind_outcome ?c _ = _ => destruct c as [cs|]; [|discriminate]
    end.
    cbn [bind_outcome] in H. injection H as <-. reflexivity.
  - destruct (label_encoder y) as [ey|]; [|discriminate]. cbn [bind_outcome] in H.
    destruct (CalibratorFit.create_calibrator _ _ _ _ _) as [c|]; [|discriminate].
    cbn [bind_outcome] in H.
    destruct (CalibratorFit.call_fit _ _ _ _ _ _ _) as [c'|]; [|discriminate].
    cbn [bind_outcome] in H. injection H as <-. reflexivity.
Qed.

Section IvapMethod.

Import String.

Lemma fit_ivap_calibrators (Row : Type)
      (stratified_kfold : nat -> list Row -> list Z -> result (list (list nat * list nat)))
      (estimator_scores : list Row -> list Z -> list Row -> result (list Qc))
      (label_binarizer_T : list Z -> outcome (list (list Z)))
      (label_encoder : list Z -> outcome (list Z))
      (Other : Type) (platt_scaling : outcome Other)
      (isotonic_regression : CalibratorFit.params -> outcome Other)
      (other_fit : Other -> list Z -> list Qc -> list Row -> outcome Other)
      (self self' : CalibratorFit.t Row Other) (X : list Row) (y : list Z)
      (cols : list (list Qc)) :
CalibratorFit.fit stratified_kfold estimator_scores label_binarizer_T label_encoder
                  platt_scaling isotonic_regression other_fit self X y = Return self' ->
CalibratorFit.method self = "ivap"%string ->
CalibratorFit.predict_proba (CalibratorFit.the_estimator self) X = Return cols ->
exists cs,
  CalibratorFit.calibrators self' = Some cs /\
  (CalibratorFit.multiclass self' = true -> Forall2 (fitted_ivap Other) cols cs) /\
  (CalibratorFit.multiclass self' = false ->
   exists col, nth_error cols 1 = Some col /\ Forall2 (fitted_ivap Other) [col] cs).
Proof.
unfold CalibratorFit.fit. intros H Hm Hcols. rewrite Hcols in H.
cbn [bind_outcome] in H. cbv zeta in H.
assert (forall c,
  CalibratorFit.create_calibrator platt_scaling isotonic_regression self
    (CalibratorFit.method self) (CalibratorFit.method_params self) = Return c ->
  c = Some (CalibratorFit.Ivap Other IVAP.init)) as Hcreate.
{ intros c Hc. unfold CalibratorFit.create_calibrator in Hc. rewrite Hm in Hc.
  change ("ivap" =? "ivap")%string with true in Hc. cbv iota in Hc.
  unfold CalibratorFit.new_ivap in Hc.
  destruct (CalibratorFit.method_params self); [|discriminate].
  cbn [bind_outcome] in Hc. injection Hc as <-. reflexivity. }
destruct (if (2 <? List.length cols)%nat then true else CalibratorFit.multiclass self) eqn:Em.
- destruct (label_binarizer_T y) as [bl|]; [|discriminate]. cbn [bind_outcome] in H.
  match type of H with
  | bind_outcome (foldM_outcome ?f ?l ?a) _ = _ =>
      destruct (foldM_outcome f l a) as [cs|] eqn:E; [|discriminate];
      apply (foldM_outcome_snoc f (fun entry c => fitted_ivap Other (snd entry) c)) in E
  end.
  + cbn [bind_outcome] in H. injection H as <-. exists cs. simpl.
    destruct E as (new & -> & Hnew). split; [reflexivity|]. split; [|discriminate].
    intros _. apply Forall2_map_snd in Hnew. rewrite enumerate_snd in Hnew. exact Hnew.
  + intros acc [idx split] acc' Hs.
    destruct (CalibratorFit.create_calibrator _ _ _ _ _) as [c|] eqn:Ec; [|discriminate].
    rewrite (Hcreate c eq_refl) in *. cbn [bind_outcome] in Hs.
    destruct (CalibratorFit.call_fit _ _ _ _ _ _ _) as [c'|] eqn:Ef; [|discriminate].
    cbn [bind_outcome] in Hs. injection Hs as <-. exists c'. split; [reflexivity|].
    apply (call_fit_ivap _ _ _ _ _ _ _ _ _ Ef).
- destruct (label_encoder y) as [ey|]; [|discriminate]. cbn [bind_outcome] in H.
  destruct (CalibratorFit.create_calibrator _ _ _ _ _) as [c|] eqn:Ec; [|discriminate].
  rewrite (Hcreate c eq_refl) in *. cbn [bind_outcome] in H.
  destruct (CalibratorFit.call_fit _ _ _ _ _ _ _) as [c'|] eqn:Ef; [|discriminate].
  cbn [bind_outcome] in H. injection H as <-. exists [c']. simpl.
  split; [reflexivity|]. split; [discriminate|]. intros _.
  unfold getitem in Ef. destruct (nth_error cols 1) as [col|] eqn:En; [|discriminate].
  cbn [lift] in Ef. exists col. split; [exact En|]. constructor; [|constructor].
  apply (call_fit_ivap _ _ _ _ _ _ _ _ _ Ef).
Qed.

(** X19. With the method ivap, [fit] stores inductive predictors only, in
  the order of the columns: in multiclass mode predictor [idx] is fitted
  on column [idx] of the calibration scores, in binary mode the single
  predictor is fitted on column 1; each is fitted on as many labels as
  the column has scores. *)
Theorem calibrator_fit_ivap (Row : Type)
      (stratified_kfold : nat -> list Row -> list Z -> result (list (list nat * list nat)))
      (estimator_scores : list Row -> list Z -> list Row -> result (list Qc))
      (label_binarizer_T : list Z -> outcome (list (list Z)))
      (label_encoder : list Z -> outcome (list Z))
      (Other : Type) (platt_scaling : outcome Other)
      (isotonic_regression : CalibratorFit.params -> outcome Other)
      (other_fit : Other -> list Z -> list Qc -> list Row -> outcome Other)
      (self self' : CalibratorFit.t Row Other) (X : list Row) (y : list Z)
      (cols : list (list Qc)) :
CalibratorFit.fit stratified_kfold estimator_scores label_binarizer_T label_encoder
                  platt_scaling isotonic_regression other_fit self X y = Return self' ->
CalibratorFit.method self = "ivap"%string ->
CalibratorFit.predict_proba (CalibratorFit.the_estimator self) X = Return cols ->
exists cs,
  CalibratorFit.calibrators self' = Some cs /\
  (CalibratorFit.multiclass self' = true -> Forall2 (fitted_ivap Other) cols cs) /\
  (CalibratorFit.multiclass self' = false ->
   exists col, nth_error cols 1 = Some col /\ Forall2 (fitted_ivap Other) [col] cs).
Proof.
intros H Hm Hcols.
destruct (fit_ivap_calibrators Row stratified_kfold estimator_scores label_binarizer_T
            label_encoder Other platt_scaling isotonic_regression other_fit
            self self' X y cols H Hm Hcols) as (cs & Hcs & Hmulti & Hbin).
exists cs. split; [exact Hcs|]. split; assumption.
Qed.

Lemma calibrator_fit_ivap_witness :
exists cs,
  CalibratorFit.calibrators example_fitted_calibrator = Some cs /\
  (CalibratorFit.multiclass example_fitted_calibrator = true ->
   Forall2 (fitted_ivap unit) [[qc 9 10; qc 8 10; qc 8 10; qc 1 10]; example_scores] cs) /\
  (CalibratorFit.multiclass example_fitted_calibrator = false ->
   exists col,
     nth_error [[qc 9 10; qc 8 10; qc 8 10; qc 1 10]; example_scores] 1 = Some col /\
     Forall2 (fitted_ivap unit) [col] cs).
Proof.
apply (calibrator_fit_ivap nat balanced_kfold half_scores example_binarizer example_encoder
         unit (Return tt) (fun _ => Return tt) example_other_fit
         example_calibrator example_fitted_calibrator (seq 0 4) example_labels).
- vm_compute. reflexivity.
- reflexivity.
- reflexivity.
Defined.

(** X20. The inductive predictor takes no parameter: with the method ivap
  and method parameters, which [__init__] accepts, [fit] on scores of at
  least one column never returns; it raises TypeError, unless the
  transformation of the labels raises first. *)
Theorem calibrator_fit_ivap_params (Row : Type)
      (stratified_kfold : nat -> list Row -> list Z -> result (list (list nat * list nat)))
      (estimator_scores : list Row -> list Z -> list Row -> result (list Qc))
      (label_binarizer_T : list Z -> outcome (list (list Z)))
      (label_encoder : list Z -> outcome (list Z))
      (Other : Type) (platt_scaling : outcome Other)
      (isotonic_regression : CalibratorFit.params -> outcome Other)
      (other_fit : Other -> list Z -> list Qc -> list Row -> outcome Other)
      (self : CalibratorFit.t Row Other) (X : list Row) (y : list Z)
      (cols : list (list Qc)) :
CalibratorFit.method self = "ivap"%string -> CalibratorFit.method_params self <> [] ->
CalibratorFit.predict_proba (CalibratorFit.the_estimator self) X = Return cols ->
cols <> [] ->
exists e,
  CalibratorFit.fit stratified_kfold estimator_scores label_binarizer_T label_encoder
                    platt_scaling isotonic_regression other_fit self X y = Throw e /\
  (e = TypeError \/ label_binarizer_T y = Throw e \/ label_encoder y = Throw e).
Proof.
intros Hm Hp Hcols Hne. unfold CalibratorFit.fit. rewrite Hcols. cbn [bind_outcome]. cbv zeta.
assert (CalibratorFit.create_calibrator platt_scaling isotonic_regression self
          (CalibratorFit.method self) (CalibratorFit.method_params self) = Throw TypeError)
  as Hcreate.
{ unfold CalibratorFit.create_calibrator. rewrite Hm.
  change ("ivap" =? "ivap")%string with true. cbv iota.
  unfold CalibratorFit.new_ivap. destruct (CalibratorFit.method_params self); [congruence|].
  reflexivity. }
destruct (if (2 <? List.length cols)%nat then true else CalibratorFit.multiclass self).
- destruct (label_binarizer_T y) as [bl|e] eqn:Eb.
  + cbn [bind_outcome]. exists TypeError. split; [|left; reflexivity].
    destruct cols as [|col cols]; [congruence|].
    unfold enumerate. simpl. rewrite Hcreate. reflexivity.
  + exists e. split; [reflexivity|]. right. left. reflexivity.
- destruct (label_encoder y) as [ey|e] eqn:Ee.
  + cbn [bind_outcome]. rewrite Hcreate. exists TypeError. split; [reflexivity | left; reflexivity].
  + exists e. split; [reflexivity|]. right. right. reflexivity.
Qed.

Lemma calibrator_fit_ivap_params_witness :
exists e,
  CalibratorFit.fit balanced_kfold half_scores example_binarizer example_encoder
                    (Return tt) (fun _ => Return tt) example_other_fit
                    example_calibrator_params (seq 0 4) example_labels = Throw e /\
  (e = TypeError \/ example_binarizer example_labels = Throw e \/
   example_encoder example_labels = Throw e).
Proof.
apply (calibrator_fit_ivap_params nat balanced_kfold half_scores example_binarizer
         example_encoder unit (Return tt) (fun _ => Return tt) example_other_fit
         example_calibrator_params (seq 0 4) example_labels
         [[qc 9 10; qc 8 10; qc 8 10; qc 1 10]; example_scores]).
- reflexivity.
- discriminate.
- reflexivity.
- discriminate.
Defined.

Lemma ivaps_of_fitted (Other : Type) cols (cs : list (CalibratorFit.calibrator Other)) :
Forall2 (fitted_ivap Other) cols cs -> Forall (fun col : list Qc => col <> []) cols ->
exists ics,
  ivaps_of Other cs = Some ics /\
  Forall (fun c => exists y scores, y <> [] /\ IVAP.fit IVAP.init y scores = Ok c) ics.
Proof.
induction 1 as [|col c cols cs Hc Hcs IH]; intros Hne.
- exists []. split; [reflexivity | constructor].
- apply Forall_cons_iff in Hne. destruct Hne as [Hcol Hne].
  destruct (IH Hne) as (ics & E & Hics).
  destruct Hc as (c' & labels & -> & HL & Efit).
  exists (c' :: ics). simpl. rewrite E. split; [reflexivity|].
  constructor; [|exact Hics]. exists labels, col. split; [|exact Efit].
  intros ->. destruct col; [congruence | discriminate].
Qed.

(** X21. With the method ivap, after [fit] on calibration scores whose
  columns are not empty, the rows that [predict_proba] returns are
  distributions: in multiclass mode, for at least one column of test
  scores, finite entries between 0 and 1 of sum 1; in binary mode
  [1 - p, p] with [0 < p < 1]. *)
Theorem calibrator_fit_predict_ivap (Row : Type)
      (stratified_kfold : nat -> list Row -> list Z -> result (list (list nat * list nat)))
      (estimator_scores : list Row -> list Z -> list Row -> result (list Qc))
      (label_binarizer_T : list Z -> outcome (list (list Z)))
      (label_encoder : list Z -> outcome (list Z))
      (Other : Type) (platt_scaling : outcome Other)
      (isotonic_regression : CalibratorFit.params -> outcome Other)
      (other_fit : Other -> list Z -> list Qc -> list Row -> outcome Other)
      (self self' : CalibratorFit.t Row Other) (X : list Row) (y : list Z)
      (cols : list (list Qc)) :
CalibratorFit.fit stratified_kfold estimator_scores label_binarizer_T label_encoder
                  platt_scaling isotonic_regression other_fit self X y = Return self' ->
CalibratorFit.method self = "ivap"%string ->
CalibratorFit.classes_ (CalibratorFit.the_estimator self) <> None ->
CalibratorFit.predict_proba (CalibratorFit.the_estimator self) X = Return cols ->
Forall (fun col => col <> []) cols ->
exists st,
  predict_state Row Other self' = Some st /\
  forall n_samples test_scores M,
    Calibrator.predict_proba (BC := Calibrator.ivap_calibrator) st n_samples test_scores
    = Ok M ->
    List.length M = n_samples /\
    (Calibrator.multiclass st = true -> test_scores <> [] ->
     Forall (simplex_row (Calibrator.n_classes st)) M) /\
    (Calibrator.multiclass st = false ->
     Forall (fun row => exists p, row = [Some (1 - p); Some p] /\ 0 < p /\ p < 1)%Q M).
Proof.
intros H Hm Hcl Hcols Hne.
destruct (fit_ivap_calibrators Row stratified_kfold estimator_scores label_binarizer_T
            label_encoder Other platt_scaling isotonic_regression other_fit
            self self' X y cols H Hm Hcols) as (cs & Hcs & Hmulti & Hbin).
pose proof (calibrator_fit_state_lemma Row stratified_kfold estimator_scores
              label_binarizer_T label_encoder Other platt_scaling isotonic_regression
              other_fit self self' X y H) as Hest.
assert (exists ics,
  ivaps_of Other cs = Some ics /\
  Forall (fun c => exists y scores, y <> [] /\ IVAP.fit IVAP.init y scores = Ok c) ics)
  as (ics & Eics & Hics).
{ destruct (CalibratorFit.multiclass self') eqn:Em.
  - apply (ivaps_of_fitted Other cols cs (Hmulti eq_refl) Hne).
  - destruct (Hbin eq_refl) as (col & En & Hf).
    apply (ivaps_of_fitted Other [col] cs Hf). constructor; [|constructor].
    rewrite Forall_forall in Hne. apply Hne. apply (nth_error_In _ _ En). }
destruct (CalibratorFit.classes_ (CalibratorFit.the_estimator self)) as [classes|] eqn:Ecl;
  [|congruence].
exists (Calibrator.mk (CalibratorFit.multiclass self') (List.length classes) ics). split.
- unfold predict_state. rewrite Hcs, Hest, Ecl, Eics. reflexivity.
- intros n_samples test_scores M EM.
  assert (forall c split v, In c ics -> IVAP.predict_proba c split = Ok v ->
                            Forall (fun p => 0 < p /\ p < 1)%Q v) as Hrange.
  { intros c split v Hc Ev. rewrite Forall_forall in Hics.
    apply (ivap_predictions_range c split v (Hics c Hc) Ev). }
  destruct (CalibratorFit.multiclass self') eqn:Em.
  + destruct test_scores as [|ts0 test_scores].
    * split; [|split; [intros _ Hts; congruence | discriminate]].
      unfold Calibrator.predict_proba in EM. simpl in EM. injection EM as <-.
      rewrite length_map. unfold Calibrator.rows. rewrite length_map. apply length_seq.
    * destruct (multiclass_rows IVAP.t Calibrator.ivap_calibrator
                  (Calibrator.mk true (List.length classes) ics) n_samples
                  (ts0 :: test_scores) M) as [HL HM]; try assumption; try reflexivity;
        try discriminate.
      -- intros c split v Hc Ev. pose proof (Hrange c split v Hc Ev) as Hv.
         apply Forall_forall. intros p Hp. rewrite Forall_forall in Hv.
         destruct (Hv p Hp) as [Hp0 _]. exact Hp0.
      -- split; [exact HL|]. split; [intros _ _; exact HM | discriminate].
  + destruct (binary_rows_range IVAP.t Calibrator.ivap_calibrator
                (fun p => 0 < p /\ p < 1)%Q (Calibrator.mk false (List.length classes) ics)
                n_samples test_scores M) as [HL HM];
      try assumption; try reflexivity.
    split; [exact HL|]. split; [discriminate | intros _; exact HM].
Qed.

Lemma calibrator_fit_predict_ivap_witness :
exists st,
  predict_state nat unit example_fitted_calibrator = Some st /\
  forall n_samples test_scores M,
    Calibrator.predict_proba (BC := Calibrator.ivap_calibrator) st n_samples test_scores
    = Ok M ->
    List.length M = n_samples /\
    (Calibrator.multiclass st = true -> test_scores <> [] ->
     Forall (simplex_row (Calibrator.n_classes st)) M) /\
    (Calibrator.multiclass st = false ->
     Forall (fun row => exists p, row = [Some (1 - p); Some p] /\ 0 < p /\ p < 1)%Q M).
Proof.
apply (calibrator_fit_predict_ivap nat balanced_kfold half_scores example_binarizer
         example_encoder unit (Return tt) (fun _ => Return tt) example_other_fit
         example_calibrator example_fitted_calibrator (seq 0 4) example_labels
         [[qc 9 10; qc 8 10; qc 8 10; qc 1 10]; example_scores]).
- vm_compute. reflexivity.
- reflexivity.
- discriminate.
- reflexivity.
- repeat constructor; discriminate.
Defined.

Lemma Forall2_right {A B} (P : B -> Prop) (l : list A) (cs : list B) :
Forall2 (fun _ c => P c) l cs -> Forall P cs.
Proof. induction 1; constructor; assumption. Qed.

(** X22. With the method cvap, [fit] stores cross predictors only, each
  fitted and with the number of folds given by the method parameter
  [n_folds], or 5 when there is no parameter; other parameters are
  rejected. *)
Theorem calibrator_fit_cvap (Row : Type)
      (stratified_kfold : nat -> list Row -> list Z -> result (list (list nat * list nat)))
      (estimator_scores : list Row -> list Z -> list Row -> result (list Qc))
      (label_binarizer_T : list Z -> outcome (list (list Z)))
      (label_encoder : list Z -> outcome (list Z))
      (Other : Type) (platt_scaling : outcome Other)
      (isotonic_regression : CalibratorFit.params -> outcome Other)
      (other_fit : Other -> list Z -> list Qc -> list Row -> outcome Other)
      (self self' : CalibratorFit.t Row Other) (X : list Row) (y : list Z) :
CalibratorFit.fit stratified_kfold estimator_scores label_binarizer_T label_encoder
                  platt_scaling isotonic_regression other_fit self X y = Return self' ->
CalibratorFit.method self = "cvap"%string ->
exists cs,
  CalibratorFit.calibrators self' = Some cs /\
  Forall (fun c => exists c',
              c = CalibratorFit.Cvap Other c' /\ CVAP.fitted c' = true /\
              ((CalibratorFit.method_params self = [] /\ CVAP.n_folds c' = 5%nat) \/
               CalibratorFit.method_params self = [("n_folds"%string, CVAP.n_folds c')]))
         cs.
Proof.
unfold CalibratorFit.fit. intros H Hm.
destruct (CalibratorFit.predict_proba (CalibratorFit.the_estimator self) X) as [cols|];
  [|discriminate].
cbn [bind_outcome] in H. cbv zeta in H.
assert (forall c labels scores c1,
  CalibratorFit.create_calibrator platt_scaling isotonic_regression self
    (CalibratorFit.method self) (CalibratorFit.method_params self) = Return c ->
  CalibratorFit.call_fit stratified_kfold estimator_scores other_fit c labels scores X
  = Return c1 ->
  exists c',
    c1 = CalibratorFit.Cvap Other c' /\ CVAP.fitted c' = true /\
    ((CalibratorFit.method_params self = [] /\ CVAP.n_folds c' = 5%nat) \/
     CalibratorFit.method_params self = [("n_folds"%string, CVAP.n_folds c')])) as Hstep.
{ intros c labels scores c1 Hc Hf.
  unfold CalibratorFit.create_calibrator in Hc. rewrite Hm in Hc.
  change ("cvap" =? "ivap")%string with false in Hc.
  change ("cvap" =? "cvap")%string with true in Hc. cbv iota in Hc.
  assert (exists n,
    c = Some (CalibratorFit.Cvap Other (CVAP.init n)) /\
    ((CalibratorFit.method_params self = [] /\ n = 5%nat) \/
     CalibratorFit.method_params self = [("n_folds"%string, n)])) as (n & -> & Hn).
  { unfold CalibratorFit.new_cvap in Hc.
    destruct (CalibratorFit.method_params self) as [|[k v] [|? ?]]; try discriminate.
    - destruct (CalibratorFit.has_get_params _); [|discriminate].
      cbn [bind_outcome] in Hc. injection Hc as <-. exists 5%nat. auto.
    - destruct (String.eqb_spec k "n_folds") as [->|]; [|discriminate].
      destruct (CalibratorFit.has_get_params _); [|discriminate].
      cbn [bind_outcome] in Hc. injection Hc as <-. exists v. auto. }
  unfold CalibratorFit.call_fit in Hf.
  destruct labels as [yl|]; [|discriminate]. cbn [bind_outcome] in Hf.
  destruct scores as [sc|]; [|discriminate]. cbn [bind_outcome] in Hf.
  destruct (CVAP.fit stratified_kfold estimator_scores (CVAP.init n) yl sc X)
    as [log [m|]] eqn:Efit; [|discriminate].
  cbn [snd lift bind_outcome] in Hf. injection Hf as <-.
  exists m. split; [reflexivity|].
  unfold CVAP.fit in Efit.
  destruct (negb (n_unique_labels yl =? 2)%nat); [discriminate|].
  destruct (CVAP.create_n_splits stratified_kfold X yl (CVAP.n_folds (CVAP.init n)));
    [|discriminate].
  destruct (CVAP.fit_loop _ _ _ _ _) as [log0 [l|]]; [|discriminate].
  injection Efit as _ <-. split; [reflexivity|]. exact Hn. }
destruct (if (2 <? List.length cols)%nat then true else CalibratorFit.multiclass self).
- destruct (label_binarizer_T y) as [bl|]; [|discriminate]. cbn [bind_outcome] in H.
  match type of H with
  | bind_outcome (foldM_outcome ?f ?l ?a) _ = _ =>
      destruct (foldM_outcome f l a) as [cs|] eqn:E; [|discriminate];
      apply (foldM_outcome_snoc f
               (fun _ c => exists c',
                  c = CalibratorFit.Cvap Other c' /\ CVAP.fitted c' = true /\
                  ((CalibratorFit.method_params self = [] /\ CVAP.n_folds c' = 5%nat) \/
                   CalibratorFit.method_params self = [("n_folds"%string, CVAP.n_folds c')])))
        in E
  end.
  + cbn [bind_outcome] in H. injection H as <-. exists cs. simpl.
    destruct E as (new & -> & Hnew). split; [reflexivity|].
    apply (Forall2_right _ _ _ Hnew).
  + intros acc [idx split] acc' Hs.
    destruct (CalibratorFit.create_calibrator _ _ _ _ _) as [c|] eqn:Ec; [|discriminate].
    cbn [bind_outcome] in Hs.
    destruct (CalibratorFit.call_fit _ _ _ _ _ _ _) as [c'|] eqn:Ef; [|discriminate].
    cbn [bind_outcome] in Hs. injection Hs as <-. exists c'. split; [reflexivity|].
    apply (Hstep c _ _ c' eq_refl Ef).
- destruct (label_encoder y) as [ey|]; [|discriminate]. cbn [bind_outcome] in H.
  destruct (CalibratorFit.create_calibrator _ _ _ _ _) as [c|] eqn:Ec; [|discriminate].
  cbn [bind_outcome] in H.
  destruct (CalibratorFit.call_fit _ _ _ _ _ _ _) as [c'|] eqn:Ef; [|discriminate].
  cbn [bind_outcome] in H. injection H as <-. exists [c']. simpl.
  split; [reflexivity|]. constructor; [|constructor].
  apply (Hstep c _ _ c' eq_refl Ef).
Qed.

Lemma calibrator_fit_cvap_witness :
exists cs,
  CalibratorFit.calibrators example_fitted_cvap_calibrator = Some cs /\
  Forall (fun c => exists c',
              c = CalibratorFit.Cvap unit c' /\ CVAP.fitted c' = true /\
              ((CalibratorFit.method_params example_cvap_calibrator = [] /\
                CVAP.n_folds c' = 5%nat) \/
               CalibratorFit.method_params example_cvap_calibrator
               = [("n_folds"%string, CVAP.n_folds c')]))
         cs.
Proof.
apply (calibrator_fit_cvap nat balanced_kfold half_scores example_binarizer example_encoder
         unit (Return tt) (fun _ => Return tt) example_other_fit
         example_cvap_calibrator example_fitted_cvap_calibrator (seq 0 4) balanced_labels).
- vm_compute. reflexivity.
- reflexivity.
Defined.

End IvapMethod.
